(** * aicommit: the deterministic commit-message core

    A shallow embedding of the three stages of the heuristic pipeline of
    [aicommit] -- change extraction ([git.go]), classification
    ([detect.go]) and message composition ([render.go]) -- together with
    the properties of these stages that the specification states.

    Conventions of the embedding:
    - a Go [string] is a byte sequence: Rocq's [string], one [ascii] per
      byte; non-ASCII text is its UTF-8 encoding, as in Go;
    - a Go [int] is a [Z] in the range of a 64-bit signed word, and every
      addition wraps ([Int.add]);
    - a Go [map[string]T] is a [gmap string T]; Go leaves the iteration
      order of a map unspecified, so wherever the source ranges over a map
      the embedding uses the order of [map_to_list] and the theorems speak
      of membership only;
    - indexing a slice out of range panics in Go: the cursor loops are
      written with partial lookups and an explicit [Panic] outcome;
    - the functions of the Go standard library the sources call
      ([strings], [bytes], [strconv], [unicode/utf8], [path/filepath]) are
      embedded in the modules [utf8], [strings], [strconv] and [filepath]
      below, for the Unix build of the program. *)

From Stdlib Require Import ZArith Ascii String DecimalString.
From stdpp Require Import gmap strings list fin_maps sorting.

Local Arguments String.append !_ _ /.

(** ** Machine integers *)

Module Int.
Definition min_int : Z := (- 2 ^ 63)%Z.
Definition max_int : Z := (2 ^ 63 - 1)%Z.

(** Two's complement wrap-around of a 64-bit signed word. *)
Definition wrap (z : Z) : Z := ((z + 2 ^ 63) `mod` 2 ^ 64 - 2 ^ 63)%Z.

Definition add (a b : Z) : Z := wrap (a + b).

Definition in_range (z : Z) : Prop := (min_int ≤ z ≤ max_int)%Z.
End Int.

(** ** Bytes *)

Definition byte (c : ascii) : Z := Z.of_N (N_of_ascii c).
Definition chr (z : Z) : ascii := ascii_of_N (Z.to_N z).

Definition str1 (c : ascii) : string := String c "".

(** [s[n:]] and [s[:n]] for [n] within the length of [s]. *)
Fixpoint skip (n : nat) (s : string) : string :=
  match n, s with
  | S n, String _ t => skip n t
  | _, _ => s
  end.

Fixpoint keep (n : nat) (s : string) : string :=
  match n, s with
  | S n, String c t => String c (keep n t)
  | _, _ => ""
  end.

Fixpoint concat (l : list string) : string :=
  match l with
  | [] => ""
  | s :: l => s +:+ concat l
  end.

(** ** [unicode/utf8] *)

Module utf8.
Definition RuneError : Z := 0xFFFD%Z.
Definition RuneSelf : Z := 0x80%Z.
Definition MaxRune : Z := 0x10FFFF%Z.

(** A continuation byte, [10xxxxxx]. *)
Definition cont (b : Z) : bool := bool_decide (0x80 ≤ b ≤ 0xBF)%Z.

(** The range accepted for the second byte after the lead byte [b0]. *)
Definition accept_lo (b0 : Z) : Z :=
  if bool_decide (b0 = 0xE0%Z) then 0xA0%Z
  else if bool_decide (b0 = 0xF0%Z) then 0x90%Z else 0x80%Z.
Definition accept_hi (b0 : Z) : Z :=
  if bool_decide (b0 = 0xED%Z) then 0x9F%Z
  else if bool_decide (b0 = 0xF4%Z) then 0x8F%Z else 0xBF%Z.
Definition second (b0 b1 : Z) : bool :=
  bool_decide (accept_lo b0 ≤ b1 ≤ accept_hi b0)%Z.

Definition bits (mask b : Z) (shift : Z) : Z := Z.shiftl (Z.land b mask) shift.

(** [utf8.DecodeRuneInString]: the first rune of [s] and its width in
    bytes.  An invalid or truncated encoding gives [(RuneError, 1)], the
    empty string [(RuneError, 0)]. *)
Definition DecodeRuneInString (s : string) : Z * nat :=
  match s with
  | "" => (RuneError, 0)
  | String c0 t =>
    let b0 := byte c0 in
    if bool_decide (b0 < RuneSelf)%Z then (b0, 1)
    else if bool_decide (0xC2 ≤ b0 ≤ 0xDF)%Z then
      match t with
      | String c1 _ =>
        if cont (byte c1)
        then (Z.lor (bits 0x1F b0 6) (bits 0x3F (byte c1) 0), 2)
        else (RuneError, 1)
      | _ => (RuneError, 1)
      end
    else if bool_decide (0xE0 ≤ b0 ≤ 0xEF)%Z then
      match t with
      | String c1 (String c2 _) =>
        if second b0 (byte c1) && cont (byte c2)
        then (Z.lor (bits 0x0F b0 12)
                (Z.lor (bits 0x3F (byte c1) 6) (bits 0x3F (byte c2) 0)), 3)
        else (RuneError, 1)
      | _ => (RuneError, 1)
      end
    else if bool_decide (0xF0 ≤ b0 ≤ 0xF4)%Z then
      match t with
      | String c1 (String c2 (String c3 _)) =>
        if second b0 (byte c1) && cont (byte c2) && cont (byte c3)
        then (Z.lor (bits 0x07 b0 18)
                (Z.lor (bits 0x3F (byte c1) 12)
                   (Z.lor (bits 0x3F (byte c2) 6) (bits 0x3F (byte c3) 0))), 4)
        else (RuneError, 1)
      | _ => (RuneError, 1)
      end
    else (RuneError, 1)
  end.

(** [[]rune(s)]: decode rune after rune; every step consumes at least
    one byte, so [String.length s] steps are enough. *)
Fixpoint runes_from (n : nat) (s : string) : list Z :=
  match n, s with
  | S n, String _ _ =>
    let '(r, w) := DecodeRuneInString s in r :: runes_from n (skip w s)
  | _, _ => []
  end.

Definition runes (s : string) : list Z := runes_from (String.length s) s.

Definition surrogate (r : Z) : bool := bool_decide (0xD800 ≤ r ≤ 0xDFFF)%Z.

Definition tail6 (r : Z) (shift : Z) : ascii :=
  chr (Z.lor 0x80 (Z.land (Z.shiftr r shift) 0x3F)).

(** [utf8.AppendRune]: runes out of range and surrogates are written as
    [RuneError]. *)
Definition EncodeRune (r : Z) : string :=
  if bool_decide (0 ≤ r ≤ 0x7F)%Z then str1 (chr r)
  else if bool_decide (0x80 ≤ r ≤ 0x7FF)%Z then
    String (chr (Z.lor 0xC0 (Z.shiftr r 6))) (str1 (tail6 r 0))
  else if bool_decide (r < 0 ∨ MaxRune < r)%Z || surrogate r then
    String (chr 0xEF) (String (chr 0xBF) (str1 (chr 0xBD)))
  else if bool_decide (r ≤ 0xFFFF)%Z then
    String (chr (Z.lor 0xE0 (Z.shiftr r 12)))
      (String (tail6 r 6) (str1 (tail6 r 0)))
  else
    String (chr (Z.lor 0xF0 (Z.shiftr r 18)))
      (String (tail6 r 12) (String (tail6 r 6) (str1 (tail6 r 0)))).

(** [string(rs)] for a rune slice [rs]. *)
Definition of_runes (rs : list Z) : string := concat (EncodeRune <$> rs).
End utf8.

(** ** [unicode] *)

Module unicode.
(** [unicode.IsSpace]: the runes with the White_Space property. *)
Definition IsSpace (r : Z) : bool :=
  bool_decide ((0x09 ≤ r ≤ 0x0D) ∨ r = 0x20 ∨ r = 0x85 ∨ r = 0xA0 ∨ r = 0x1680
               ∨ (0x2000 ≤ r ≤ 0x200A) ∨ r = 0x2028 ∨ r = 0x2029
               ∨ r = 0x202F ∨ r = 0x205F ∨ r = 0x3000)%Z.

(** The case table of [unicode.ToLower]: the simple lower-case mappings
    of the Unicode Character Database above U+007F (version 14.0 of the
    database; versions 15.0 and 15.1 add no cased letters), kept as
    ranges the way [unicode.CaseRanges] keeps them.  A range either shifts its runes
    by a constant, or it is a run of upper and lower case letters in
    turn, the upper case ones at the even offsets. *)
Inductive delta : Type :=
  | Shift (d : Z)
  | UpperLower.

Definition CaseRanges : list (Z * Z * delta) :=
  ([(0xC0, 0xD6, Shift 32); (0xD8, 0xDE, Shift 32); (0x100, 0x12F, UpperLower);
   (0x130, 0x130, Shift (-199)); (0x132, 0x137, UpperLower);
   (0x139, 0x148, UpperLower); (0x14A, 0x177, UpperLower);
   (0x178, 0x178, Shift (-121)); (0x179, 0x17E, UpperLower);
   (0x181, 0x181, Shift 210); (0x182, 0x185, UpperLower);
   (0x186, 0x186, Shift 206); (0x187, 0x188, UpperLower);
   (0x189, 0x18A, Shift 205); (0x18B, 0x18C, UpperLower);
   (0x18E, 0x18E, Shift 79); (0x18F, 0x18F, Shift 202);
   (0x190, 0x190, Shift 203); (0x191, 0x192, UpperLower);
   (0x193, 0x193, Shift 205); (0x194, 0x194, Shift 207);
   (0x196, 0x196, Shift 211); (0x197, 0x197, Shift 209);
   (0x198, 0x199, UpperLower); (0x19C, 0x19C, Shift 211);
   (0x19D, 0x19D, Shift 213); (0x19F, 0x19F, Shift 214);
   (0x1A0, 0x1A5, UpperLower); (0x1A6, 0x1A6, Shift 218);
   (0x1A7, 0x1A8, UpperLower); (0x1A9, 0x1A9, Shift 218);
   (0x1AC, 0x1AD, UpperLower); (0x1AE, 0x1AE, Shift 218);
   (0x1AF, 0x1B0, UpperLower); (0x1B1, 0x1B2, Shift 217);
   (0x1B3, 0x1B6, UpperLower); (0x1B7, 0x1B7, Shift 219);
   (0x1B8, 0x1B9, UpperLower); (0x1BC, 0x1BD, UpperLower);
   (0x1C4, 0x1C4, Shift 2); (0x1C5, 0x1C6, UpperLower);
   (0x1C7, 0x1C7, Shift 2); (0x1C8, 0x1C9, UpperLower);
   (0x1CA, 0x1CA, Shift 2); (0x1CB, 0x1DC, UpperLower);
   (0x1DE, 0x1EF, UpperLower); (0x1F1, 0x1F1, Shift 2);
   (0x1F2, 0x1F5, UpperLower); (0x1F6, 0x1F6, Shift (-97));
   (0x1F7, 0x1F7, Shift (-56)); (0x1F8, 0x21F, UpperLower);
   (0x220, 0x220, Shift (-130)); (0x222, 0x233, UpperLower);
   (0x23A, 0x23A, Shift 10795); (0x23B, 0x23C, UpperLower);
   (0x23D, 0x23D, Shift (-163)); (0x23E, 0x23E, Shift 10792);
   (0x241, 0x242, UpperLower); (0x243, 0x243, Shift (-195));
   (0x244, 0x244, Shift 69); (0x245, 0x245, Shift 71);
   (0x246, 0x24F, UpperLower); (0x370, 0x373, UpperLower);
   (0x376, 0x377, UpperLower); (0x37F, 0x37F, Shift 116);
   (0x386, 0x386, Shift 38); (0x388, 0x38A, Shift 37);
   (0x38C, 0x38C, Shift 64); (0x38E, 0x38F, Shift 63);
   (0x391, 0x3A1, Shift 32); (0x3A3, 0x3AB, Shift 32); (0x3CF, 0x3CF, Shift 8);
   (0x3D8, 0x3EF, UpperLower); (0x3F4, 0x3F4, Shift (-60));
   (0x3F7, 0x3F8, UpperLower); (0x3F9, 0x3F9, Shift (-7));
   (0x3FA, 0x3FB, UpperLower); (0x3FD, 0x3FF, Shift (-130));
   (0x400, 0x40F, Shift 80); (0x410, 0x42F, Shift 32);
   (0x460, 0x481, UpperLower); (0x48A, 0x4BF, UpperLower);
   (0x4C0, 0x4C0, Shift 15); (0x4C1, 0x4CE, UpperLower);
   (0x4D0, 0x52F, UpperLower); (0x531, 0x556, Shift 48);
   (0x10A0, 0x10C5, Shift 7264); (0x10C7, 0x10C7, Shift 7264);
   (0x10CD, 0x10CD, Shift 7264); (0x13A0, 0x13EF, Shift 38864);
   (0x13F0, 0x13F5, Shift 8); (0x1C90, 0x1CBA, Shift (-3008));
   (0x1CBD, 0x1CBF, Shift (-3008)); (0x1E00, 0x1E95, UpperLower);
   (0x1E9E, 0x1E9E, Shift (-7615)); (0x1EA0, 0x1EFF, UpperLower);
   (0x1F08, 0x1F0F, Shift (-8)); (0x1F18, 0x1F1D, Shift (-8));
   (0x1F28, 0x1F2F, Shift (-8)); (0x1F38, 0x1F3F, Shift (-8));
   (0x1F48, 0x1F4D, Shift (-8)); (0x1F59, 0x1F59, Shift (-8));
   (0x1F5B, 0x1F5B, Shift (-8)); (0x1F5D, 0x1F5D, Shift (-8));
   (0x1F5F, 0x1F5F, Shift (-8)); (0x1F68, 0x1F6F, Shift (-8));
   (0x1F88, 0x1F8F, Shift (-8)); (0x1F98, 0x1F9F, Shift (-8));
   (0x1FA8, 0x1FAF, Shift (-8)); (0x1FB8, 0x1FB9, Shift (-8));
   (0x1FBA, 0x1FBB, Shift (-74)); (0x1FBC, 0x1FBC, Shift (-9));
   (0x1FC8, 0x1FCB, Shift (-86)); (0x1FCC, 0x1FCC, Shift (-9));
   (0x1FD8, 0x1FD9, Shift (-8)); (0x1FDA, 0x1FDB, Shift (-100));
   (0x1FE8, 0x1FE9, Shift (-8)); (0x1FEA, 0x1FEB, Shift (-112));
   (0x1FEC, 0x1FEC, Shift (-7)); (0x1FF8, 0x1FF9, Shift (-128));
   (0x1FFA, 0x1FFB, Shift (-126)); (0x1FFC, 0x1FFC, Shift (-9));
   (0x2126, 0x2126, Shift (-7517)); (0x212A, 0x212A, Shift (-8383));
   (0x212B, 0x212B, Shift (-8262)); (0x2132, 0x2132, Shift 28);
   (0x2160, 0x216F, Shift 16); (0x2183, 0x2184, UpperLower);
   (0x24B6, 0x24CF, Shift 26); (0x2C00, 0x2C2F, Shift 48);
   (0x2C60, 0x2C61, UpperLower); (0x2C62, 0x2C62, Shift (-10743));
   (0x2C63, 0x2C63, Shift (-3814)); (0x2C64, 0x2C64, Shift (-10727));
   (0x2C67, 0x2C6C, UpperLower); (0x2C6D, 0x2C6D, Shift (-10780));
   (0x2C6E, 0x2C6E, Shift (-10749)); (0x2C6F, 0x2C6F, Shift (-10783));
   (0x2C70, 0x2C70, Shift (-10782)); (0x2C72, 0x2C73, UpperLower);
   (0x2C75, 0x2C76, UpperLower); (0x2C7E, 0x2C7F, Shift (-10815));
   (0x2C80, 0x2CE3, UpperLower); (0x2CEB, 0x2CEE, UpperLower);
   (0x2CF2, 0x2CF3, UpperLower); (0xA640, 0xA66D, UpperLower);
   (0xA680, 0xA69B, UpperLower); (0xA722, 0xA72F, UpperLower);
   (0xA732, 0xA76F, UpperLower); (0xA779, 0xA77C, UpperLower);
   (0xA77D, 0xA77D, Shift (-35332)); (0xA77E, 0xA787, UpperLower);
   (0xA78B, 0xA78C, UpperLower); (0xA78D, 0xA78D, Shift (-42280));
   (0xA790, 0xA793, UpperLower); (0xA796, 0xA7A9, UpperLower);
   (0xA7AA, 0xA7AA, Shift (-42308)); (0xA7AB, 0xA7AB, Shift (-42319));
   (0xA7AC, 0xA7AC, Shift (-42315)); (0xA7AD, 0xA7AD, Shift (-42305));
   (0xA7AE, 0xA7AE, Shift (-42308)); (0xA7B0, 0xA7B0, Shift (-42258));
   (0xA7B1, 0xA7B1, Shift (-42282)); (0xA7B2, 0xA7B2, Shift (-42261));
   (0xA7B3, 0xA7B3, Shift 928); (0xA7B4, 0xA7C3, UpperLower);
   (0xA7C4, 0xA7C4, Shift (-48)); (0xA7C5, 0xA7C5, Shift (-42307));
   (0xA7C6, 0xA7C6, Shift (-35384)); (0xA7C7, 0xA7CA, UpperLower);
   (0xA7D0, 0xA7D1, UpperLower); (0xA7D6, 0xA7D9, UpperLower);
   (0xA7F5, 0xA7F6, UpperLower); (0xFF21, 0xFF3A, Shift 32);
   (0x10400, 0x10427, Shift 40); (0x104B0, 0x104D3, Shift 40);
   (0x10570, 0x1057A, Shift 39); (0x1057C, 0x1058A, Shift 39);
   (0x1058C, 0x10592, Shift 39); (0x10594, 0x10595, Shift 39);
   (0x10C80, 0x10CB2, Shift 64); (0x118A0, 0x118BF, Shift 32);
   (0x16E40, 0x16E5F, Shift 32); (0x1E900, 0x1E921, Shift 34)])%Z.

(** The lookup of [unicode.to] for the lower case: the range of the rune
    decides, a rune in no range is returned as it is. *)
Fixpoint to_lower (ranges : list (Z * Z * delta)) (r : Z) : Z :=
  match ranges with
  | [] => r
  | (lo, hi, d) :: ranges =>
    if bool_decide (lo ≤ r ≤ hi)%Z then
      match d with
      | Shift d => (r + d)%Z
      | UpperLower => (lo + Z.lor (Z.land (r - lo) (-2)) 1)%Z
      end
    else to_lower ranges r
  end.

(** [unicode.ToLower]. *)
Definition ToLower (r : Z) : Z :=
  if bool_decide (r ≤ 0x7F)%Z then
    if bool_decide (0x41 ≤ r ≤ 0x5A)%Z then (r + 32)%Z else r
  else to_lower CaseRanges r.
End unicode.

(** ** [strings] and [bytes]

    Every separator the sources pass to [Split] and [SplitN] is one byte
    long ([\n], [\t], NUL); the embedding takes that byte. *)

Module strings.
Definition NUL : ascii := "000"%char.
Definition TAB : ascii := "009"%char.
Definition LF : ascii := "010"%char.

Fixpoint rev_onto (s acc : string) : string :=
  match s with
  | "" => acc
  | String c t => rev_onto t (String c acc)
  end.
Definition rev (s : string) : string := rev_onto s "".

Fixpoint HasPrefix (s prefix : string) {struct prefix} : bool :=
  match prefix, s with
  | "", _ => true
  | String p prefix, String c s => bool_decide (c = p) && HasPrefix s prefix
  | String _ _, "" => false
  end.

Definition HasSuffix (s suffix : string) : bool :=
  HasPrefix (rev s) (rev suffix).

Fixpoint Contains (s substr : string) : bool :=
  HasPrefix s substr ||
  match s with
  | "" => false
  | String _ t => Contains t substr
  end.

(** [strings.Split(s, sep)] / [bytes.Split(s, sep)]: always at least one
    field; [n] separators give [n + 1] fields. *)
Fixpoint Split (s : string) (sep : ascii) : list string :=
  match s with
  | "" => [""]
  | String c t =>
    if bool_decide (c = sep) then "" :: Split t sep
    else match Split t sep with
         | f :: fs => String c f :: fs
         | [] => [str1 c]
         end
  end.

(** [strings.Cut(s, sep)]: the text before and after the first [sep]. *)
Fixpoint Cut (s : string) (sep : ascii) : option (string * string) :=
  match s with
  | "" => None
  | String c t =>
    if bool_decide (c = sep) then Some ("", t)
    else match Cut t sep with
         | Some (a, b) => Some (String c a, b)
         | None => None
         end
  end.

(** [strings.SplitN(s, sep, n)] for [n ≥ 0]: at most [n] fields, the last
    one the unsplit remainder. *)
Fixpoint SplitN (s : string) (sep : ascii) (n : nat) : list string :=
  match n with
  | 0 => []
  | 1 => [s]
  | S n =>
    match Cut s sep with
    | Some (a, b) => a :: SplitN b sep n
    | None => [s]
    end
  end.

(** White space at the front of a string, as [strings.TrimSpace] sees
    it: a rune of [unicode.IsSpace] in its UTF-8 encoding.  These are the
    six ASCII blanks, U+0085 and U+00A0 (two bytes), and U+1680,
    U+2000..U+200A, U+2028, U+2029, U+202F, U+205F, U+3000 (three
    bytes). *)
Definition space1 (b0 : Z) : bool :=
  bool_decide (0x09 ≤ b0 ≤ 0x0D ∨ b0 = 0x20)%Z.
Definition space2 (b0 b1 : Z) : bool :=
  bool_decide (b0 = 0xC2 ∧ (b1 = 0x85 ∨ b1 = 0xA0))%Z.
Definition space3 (b0 b1 b2 : Z) : bool :=
  bool_decide ((b0 = 0xE1 ∧ b1 = 0x9A ∧ b2 = 0x80)
               ∨ (b0 = 0xE2 ∧ b1 = 0x80
                  ∧ (0x80 ≤ b2 ≤ 0x8A ∨ b2 = 0xA8 ∨ b2 = 0xA9 ∨ b2 = 0xAF))
               ∨ (b0 = 0xE2 ∧ b1 = 0x81 ∧ b2 = 0x9F)
               ∨ (b0 = 0xE3 ∧ b1 = 0x80 ∧ b2 = 0x80))%Z.

(** [strings.TrimLeftFunc(s, unicode.IsSpace)]. *)
Fixpoint TrimLeftSpace (s : string) : string :=
  match s with
  | String c0 t0 =>
    if space1 (byte c0) then TrimLeftSpace t0
    else match t0 with
         | String c1 t1 =>
           if space2 (byte c0) (byte c1) then TrimLeftSpace t1
           else match t1 with
                | String c2 t2 =>
                  if space3 (byte c0) (byte c1) (byte c2)
                  then TrimLeftSpace t2 else s
                | "" => s
                end
         | "" => s
         end
  | "" => s
  end.

(** The same scan over the reversed string: the last rune is decoded
    backwards, so the encodings are read last byte first. *)
Fixpoint TrimLeftSpace_rev (s : string) : string :=
  match s with
  | String c0 t0 =>
    if space1 (byte c0) then TrimLeftSpace_rev t0
    else match t0 with
         | String c1 t1 =>
           if space2 (byte c1) (byte c0) then TrimLeftSpace_rev t1
           else match t1 with
                | String c2 t2 =>
                  if space3 (byte c2) (byte c1) (byte c0)
                  then TrimLeftSpace_rev t2 else s
                | "" => s
                end
         | "" => s
         end
  | "" => s
  end.

(** [strings.TrimRightFunc(s, unicode.IsSpace)]. *)
Definition TrimRightSpace (s : string) : string :=
  rev (TrimLeftSpace_rev (rev s)).

Definition TrimSpace (s : string) : string :=
  TrimRightSpace (TrimLeftSpace s).

(** [strings.ToLower]: the runes of [s], each mapped by
    [unicode.ToLower], encoded again.  (Go takes a byte-wise short cut
    for an ASCII-only [s], with the same result.) *)
Definition ToLower (s : string) : string :=
  utf8.of_runes (unicode.ToLower <$> utf8.runes s).

(** [strings.TrimSuffix]. *)
Definition TrimSuffix (s suffix : string) : string :=
  if HasSuffix s suffix then keep (String.length s - String.length suffix) s else s.

(** [strings.Join]. *)
Fixpoint Join (elems : list string) (sep : string) : string :=
  match elems with
  | [] => ""
  | [e] => e
  | e :: es => e +:+ sep +:+ Join es sep
  end.
End strings.

(** ** [strconv] and [fmt] *)

Module strconv.
Definition digit (c : ascii) : option Z :=
  let b := byte c in
  if bool_decide (0x30 ≤ b ≤ 0x39)%Z then Some (b - 0x30)%Z else None.

(** The value of a non-empty string of decimal digits, read onto [acc]. *)
Fixpoint digits (s : string) (acc : Z) : option Z :=
  match s with
  | "" => Some acc
  | String c t =>
    match digit c with
    | Some d => digits t (10 * acc + d)%Z
    | None => None
    end
  end.

(** [strconv.Atoi]: an optional sign and at least one decimal digit; the
    value has to fit a 64-bit [int].  [None] stands for the error. *)
Definition Atoi (s : string) : option Z :=
  let '(neg, body) :=
    match s with
    | String "-" t => (true, t)
    | String "+" t => (false, t)
    | _ => (false, s)
    end in
  match body with
  | "" => None
  | _ =>
    match digits body 0 with
    | Some n =>
      let v := if neg then (- n)%Z else n in
      if bool_decide (Int.in_range v) then Some v else None
    | None => None
    end
  end.

(** The verb [%d] of [fmt.Sprintf]. *)
Definition Itoa (z : Z) : string := NilZero.string_of_int (Z.to_int z).
End strconv.

(** ** [path/filepath] (Unix) *)

Module filepath.
Definition slash : ascii := "/"%char.

Fixpoint drop_slashes (s : string) : string :=
  match s with
  | String c t => if bool_decide (c = slash) then drop_slashes t else s
  | "" => s
  end.

(** The text after the last ['/'] of [s]. *)
Definition last_element (s : string) : string :=
  List.last (strings.Split s slash) "".

(** [filepath.Base]. *)
Definition Base (path : string) : string :=
  if bool_decide (path = "") then "."
  else
    let p := strings.rev (drop_slashes (strings.rev path)) in
    let e := last_element p in
    if bool_decide (e = "") then "/" else e.

(** The suffix of [s] that starts at its last ['.'], or [""]. *)
Fixpoint from_last_dot (s : string) : string :=
  match s with
  | "" => ""
  | String c t =>
    match from_last_dot t with
    | "" => if bool_decide (c = "."%char) then s else ""
    | r => r
    end
  end.

(** [filepath.Ext]. *)
Definition Ext (path : string) : string := from_last_dot (last_element path).
End filepath.

(** * The data model ([types.go]) *)

Definition Mode := string.
Definition ModeAuto : Mode := "auto".
Definition ModeStaged : Mode := "staged".
Definition ModeUnstaged : Mode := "unstaged".
Definition ModeAll : Mode := "all".

Definition Format := string.
Definition FormatConventional : Format := "conventional".
Definition FormatPlain : Format := "plain".
Definition FormatGitmoji : Format := "gitmoji".

(** The options the heuristic core reads.  (The fields that configure the
    remote generator, the clipboard and the diagnostics are read by none
    of the functions below.) *)
Record Options := {
  Type_ : string;
  Scope : string;
  Breaking : bool;
  OFormat : Format;
  Lang : string;
  MaxItems : Z;
  MaxSubject : Z;
  Emoji : bool
}.

Module Change.
Record t := mk {
  Path : string;
  OldPath : string;
  Status : string;
  Source : Mode
}.

Definition with_Source (ch : t) (m : Mode) : t :=
  mk (Path ch) (OldPath ch) (Status ch) m.

Global Instance eq_dec : EqDecision t.
Proof. solve_decision. Defined.
End Change.

Module FileStat.
Record t := mk {
  Path : string;
  Added : Z;
  Deleted : Z;
  Binary : bool
}.

Global Instance eq_dec : EqDecision t.
Proof. solve_decision. Defined.
End FileStat.

(** What a call of a function with an indexed loop comes to. *)
Inductive outcome (A : Type) : Type :=
  | Done (a : A)     (** it returned [a] *)
  | Panic            (** an index was out of range *)
  | Unfinished.      (** the step budget of the embedding ran out *)
Arguments Done {A} a.
Arguments Panic {A}.
Arguments Unfinished {A}.

(** [l[i]], panicking out of range. *)
Definition index {A B : Type} (l : list A) (i : nat) (k : A → outcome B) : outcome B :=
  match l !! i with
  | Some x => k x
  | None => Panic
  end.

(** * Change extraction ([git.go]) *)

(** [status[:1]] when [status] is not empty, else [status]. *)
Definition statusChar (status : string) : string :=
  if bool_decide (0 < String.length status) then keep 1 status else status.

Definition renameOrCopy (statusChar : string) : bool :=
  bool_decide (statusChar = "R") || bool_decide (statusChar = "C").

(** The cursor loop of [parseNameStatus]: [i] is the cursor, [out] the
    records appended so far, [steps] the iterations left to the
    embedding. *)
Fixpoint parseNameStatus_loop (steps : nat) (fields : list string) (source : Mode)
    (i : nat) (out : list Change.t) : outcome (list Change.t) :=
  if bool_decide (length fields ≤ i) then Done out
  else match steps with
  | 0 => Unfinished
  | S steps =>
    index fields i (λ entry,
      if bool_decide (entry = "") then
        parseNameStatus_loop steps fields source (i + 1) out
      else if strings.Contains entry (str1 strings.TAB) then
        match strings.SplitN entry strings.TAB 2 with
        | status :: rest :: _ =>
          let sc := statusChar status in
          if renameOrCopy sc then
            let oldPath := rest in
            if bool_decide (length fields ≤ i + 1) then Done out
            else index fields (i + 1) (λ newPath,
              parseNameStatus_loop steps fields source (i + 2)
                (out ++ [Change.mk newPath oldPath sc source]))
          else
            let path := rest in
            parseNameStatus_loop steps fields source (i + 1)
              (out ++ [Change.mk path "" sc source])
        | _ => parseNameStatus_loop steps fields source (i + 1) out
        end
      else
        let sc := statusChar entry in
        if renameOrCopy sc then
          if bool_decide (length fields ≤ i + 2) then Done out
          else index fields (i + 1) (λ oldPath,
               index fields (i + 2) (λ newPath,
            parseNameStatus_loop steps fields source (i + 3)
              (if bool_decide (oldPath ≠ "") && bool_decide (newPath ≠ "")
               then out ++ [Change.mk newPath oldPath sc source] else out)))
        else if bool_decide (length fields ≤ i + 1) then Done out
        else index fields (i + 1) (λ path,
          parseNameStatus_loop steps fields source (i + 2)
            (if bool_decide (path ≠ "")
             then out ++ [Change.mk path "" sc source] else out)))
  end.

(** [parseNameStatus].  The cursor advances in every iteration, so the
    loop is given as many steps as there are fields. *)
Definition parseNameStatus (data : string) (source : Mode) : outcome (list Change.t) :=
  if bool_decide (String.length data = 0) then Done []
  else
    let fields := strings.Split data strings.NUL in
    parseNameStatus_loop (length fields) fields source 0 [].

Fixpoint parseUntracked_loop (fields : list string) (out : list Change.t) : list Change.t :=
  match fields with
  | [] => out
  | f :: fields =>
    let path := strings.TrimSpace f in
    if bool_decide (path = "") then parseUntracked_loop fields out
    else parseUntracked_loop fields (out ++ [Change.mk path "" "U" ModeUnstaged])
  end.

Definition parseUntracked (data : string) : list Change.t :=
  if bool_decide (String.length data = 0) then []
  else parseUntracked_loop (strings.Split data strings.NUL) [].

(** The two loops of [mergeChanges] over the map [byPath]. *)
Definition merge_seed (byPath : gmap string Change.t) (ch : Change.t) : gmap string Change.t :=
  <[Change.Path ch := ch]> byPath.

Definition merge_unstaged (byPath : gmap string Change.t) (ch : Change.t) : gmap string Change.t :=
  match byPath !! Change.Path ch with
  | Some existing => <[Change.Path ch := Change.with_Source existing ModeAll]> byPath
  | None => <[Change.Path ch := Change.with_Source ch ModeAll]> byPath
  end.

Definition merge_byPath (staged unstaged : list Change.t) : gmap string Change.t :=
  foldl merge_unstaged (foldl merge_seed ∅ staged) unstaged.

Definition mergeChanges (staged unstaged : list Change.t) : list Change.t :=
  (map_to_list (merge_byPath staged unstaged)).*2.

Definition selectChanges (mode : Mode) (staged unstaged : list Change.t) : Mode * list Change.t :=
  if bool_decide (mode = ModeStaged) then (ModeStaged, staged)
  else if bool_decide (mode = ModeUnstaged) then (ModeUnstaged, unstaged)
  else if bool_decide (mode = ModeAll) then (ModeAll, mergeChanges staged unstaged)
  else if bool_decide (0 < length staged) then (ModeStaged, staged)
  else (ModeUnstaged, unstaged).

(** * Stat aggregation ([git.go]) *)

Definition numstat_line (out : list FileStat.t) (line : string) : list FileStat.t :=
  let line := strings.TrimSpace line in
  if bool_decide (line = "") then out
  else match strings.SplitN line strings.TAB 3 with
  | addStr :: delStr :: path :: _ =>
    if bool_decide (addStr = "-") && bool_decide (delStr = "-") then
      out ++ [FileStat.mk path 0 0 true]
    else match strconv.Atoi addStr, strconv.Atoi delStr with
    | Some added, Some deleted => out ++ [FileStat.mk path added deleted false]
    | _, _ => out
    end
  | _ => out
  end.

Definition parseNumstat (raw : string) : list FileStat.t :=
  if bool_decide (strings.TrimSpace raw = "") then []
  else foldl numstat_line [] (strings.Split raw strings.LF).

Definition stats_seed (byPath : gmap string FileStat.t) (st : FileStat.t) : gmap string FileStat.t :=
  <[FileStat.Path st := st]> byPath.

Definition stats_combine (byPath : gmap string FileStat.t) (st : FileStat.t) : gmap string FileStat.t :=
  match byPath !! FileStat.Path st with
  | None => <[FileStat.Path st := st]> byPath
  | Some existing =>
    <[FileStat.Path st :=
        FileStat.mk (FileStat.Path existing)
          (Int.add (FileStat.Added existing) (FileStat.Added st))
          (Int.add (FileStat.Deleted existing) (FileStat.Deleted st))
          (FileStat.Binary existing || FileStat.Binary st)]> byPath
  end.

(** The closure [appendStats] of [collectNumstat], with the captured
    slice [combined] passed in and returned. *)
Definition appendStats (combined stats : list FileStat.t) : list FileStat.t :=
  if bool_decide (length stats = 0) then combined
  else (map_to_list (foldl stats_combine (foldl stats_seed ∅ combined) stats)).*2.

(** [collectNumstat].  The two [git diff --numstat] runs are outside the
    core: [cached] and [worktree] are what [gitOutput] returned for them,
    [None] standing for its error (with which [gitOutput] returns the
    empty string).  The result [None] is the error return. *)
Definition collectNumstat (mode : Mode) (cached worktree : option string)
    : option (list FileStat.t) :=
  if bool_decide (mode = ModeStaged) then parseNumstat <$> cached
  else if bool_decide (mode = ModeUnstaged) then parseNumstat <$> worktree
  else if bool_decide (mode = ModeAll) then
    let unstagedRaw := default "" worktree in
    let stagedRaw := default "" cached in
    Some (appendStats (appendStats [] (parseNumstat unstagedRaw)) (parseNumstat stagedRaw))
  else Some [].

(** * Classification ([detect.go]) *)

Definition catDocs : string := "docs".
Definition catTest : string := "test".
Definition catCI : string := "ci".
Definition catBuild : string := "build".
Definition catChore : string := "chore".
Definition catCode : string := "code".

Definition eqs (a b : string) : bool := bool_decide (a = b).

Definition categorizePath (path : string) : string :=
  let lower := strings.ToLower path in
  let base := strings.ToLower (filepath.Base path) in
  let ext := strings.ToLower (filepath.Ext path) in
  if eqs lower "readme" || strings.HasPrefix lower "readme."
     || strings.HasPrefix lower "changelog" || strings.HasPrefix lower "license"
     || strings.HasPrefix lower "contributing" then catDocs
  else if strings.HasPrefix lower "docs/" || eqs ext ".md" || eqs ext ".rst"
     || eqs ext ".adoc" then catDocs
  else if strings.Contains lower "/test/" || strings.Contains lower "/tests/"
     || strings.HasSuffix base "_test.go" || strings.Contains base ".spec."
     || strings.Contains base ".test." then catTest
  else if strings.HasPrefix lower ".github/workflows/"
     || strings.HasPrefix lower ".github/actions/"
     || strings.HasPrefix lower ".circleci/" || strings.HasPrefix lower ".gitlab-ci"
     || eqs base "jenkinsfile" || eqs base "azure-pipelines.yml"
     || eqs base "appveyor.yml" then catCI
  else if eqs base "makefile" || eqs base "dockerfile" || eqs base "go.mod"
     || eqs base "go.sum" || eqs base "package.json" || eqs base "package-lock.json"
     || eqs base "pnpm-lock.yaml" || eqs base "yarn.lock" || eqs base "cargo.toml"
     || eqs base "cargo.lock" || eqs base "pom.xml" || eqs base "build.gradle"
     || eqs base "build.gradle.kts" || eqs base "settings.gradle"
     || eqs base "settings.gradle.kts" || eqs base "gradle.properties"
     || eqs base "cmakelists.txt" then catBuild
  else if strings.HasPrefix lower "build/" || strings.HasPrefix lower "docker/"
     || strings.HasPrefix lower "vendor/" || strings.HasPrefix lower "third_party/"
  then catBuild
  else if strings.HasPrefix lower "scripts/" || strings.HasPrefix lower "tools/"
     || strings.HasPrefix lower "config/" || strings.HasPrefix lower ".vscode/"
  then catChore
  else if eqs base ".gitignore" || eqs base ".gitattributes"
     || eqs base ".editorconfig" || strings.HasPrefix base ".prettierrc"
     || strings.HasPrefix base ".eslintrc" || eqs base "tsconfig.json"
     || eqs base "eslint.config.js" || eqs base ".pre-commit-config.yaml"
     || eqs base "ruff.toml" then catChore
  else catCode.

(** [counts[key]]: a key that is absent reads as zero. *)
Definition count_of (counts : gmap string Z) (key : string) : Z :=
  default 0%Z (counts !! key).

(** [counts[key]++]. *)
Definition incr (counts : gmap string Z) (key : string) : gmap string Z :=
  <[key := Int.add (count_of counts key) 1]> counts.

Definition dominant_order : list string := [catDocs; catTest; catCI; catBuild; catChore].

(** The loop of [dominantNonCode], on the pair [(best, bestCount)]. *)
Definition dominant_step (counts : gmap string Z) (acc : string * Z) (cat : string)
    : string * Z :=
  let count := count_of counts cat in
  if bool_decide (acc.2 < count)%Z then (cat, count) else acc.

Definition dominantNonCode (counts : gmap string Z) : string :=
  let '(best, bestCount) :=
    foldl (dominant_step counts) (catChore, (-1)%Z) dominant_order in
  if bool_decide (bestCount ≤ 0)%Z then "chore" else best.

Definition isDiffHeader (line : string) : bool :=
  strings.HasPrefix line "+++" || strings.HasPrefix line "---"
  || strings.HasPrefix line "@@" || strings.HasPrefix line "diff "
  || strings.HasPrefix line "index ".

(** The body of the line loop of [diffHasKeyword]: does this line carry
    one of the keywords? *)
Definition line_has_keyword (lowerKeywords : list string) (line : string) : bool :=
  match line with
  | "" => false
  | String c0 rest =>
    if isDiffHeader line then false
    else if bool_decide (c0 ≠ "+"%char) && bool_decide (c0 ≠ "-"%char) then false
    else
      let content := strings.ToLower (strings.TrimSpace rest) in
      existsb (strings.Contains content) lowerKeywords
  end.

Definition diffHasKeyword (diff : string) (keywords : list string) : bool :=
  if bool_decide (diff = "") then false
  else
    let lowerKeywords := strings.ToLower <$> keywords in
    existsb (line_has_keyword lowerKeywords) (strings.Split diff strings.LF).

(** ** The three patterns of exported declarations

    Each pattern is anchored at the start of the line content and ends
    with the captured group NAME, which is [[A-Z][A-Za-z0-9_]*] in
    parentheses; what comes before it is a keyword followed by white space.  No continuation of a [\s+]
    begins with white space, so the greedy run is the only one that can
    match, and the matchers below read the patterns left to right. *)

Module regexp.
(** One piece of a pattern after another, on the text still to match. *)
Definition and_then (o : option string) (f : string → option string) : option string :=
  match o with
  | Some r => f r
  | None => None
  end.
Local Notation "o >>> f" := (and_then o f) (at level 50, left associativity).

(** A literal. *)
Fixpoint lit (p s : string) {struct p} : option string :=
  match p, s with
  | "", _ => Some s
  | String a p, String c s => if bool_decide (a = c) then lit p s else None
  | String _ _, "" => None
  end.

(** [\s] is [[\t\n\f\r ]]. *)
Definition is_s (c : ascii) : bool :=
  let b := byte c in
  bool_decide (b = 0x09 ∨ b = 0x0A ∨ b = 0x0C ∨ b = 0x0D ∨ b = 0x20)%Z.

Fixpoint skip_s (s : string) : string :=
  match s with
  | String c t => if is_s c then skip_s t else s
  | "" => s
  end.

(** [\s+]. *)
Definition s_plus (s : string) : option string :=
  match s with
  | String c t => if is_s c then Some (skip_s t) else None
  | "" => None
  end.

Definition upper (c : ascii) : bool := bool_decide (0x41 ≤ byte c ≤ 0x5A)%Z.
Definition word (c : ascii) : bool :=
  let b := byte c in
  bool_decide (0x41 ≤ b ≤ 0x5A ∨ 0x61 ≤ b ≤ 0x7A ∨ 0x30 ≤ b ≤ 0x39 ∨ b = 0x5F)%Z.

Fixpoint while_word (s : string) : string :=
  match s with
  | String c t => if word c then String c (while_word t) else ""
  | "" => ""
  end.

(** NAME: the captured name. *)
Definition name (s : string) : option string :=
  match s with
  | String c t => if upper c then Some (String c (while_word t)) else None
  | "" => None
  end.

(** [[^)]+\)]: the text after the first [')'], at least one byte in. *)
Fixpoint to_paren (s : string) : option string :=
  match s with
  | String c t => if bool_decide (c = ")"%char) then Some t else to_paren t
  | "" => None
  end.
Definition receiver (s : string) : option string :=
  match lit "(" s with
  | Some (String c t) =>
    if bool_decide (c = ")"%char) then None else to_paren t >>> s_plus
  | _ => None
  end.

(** An optional group: taken when it matches. *)
Definition opt (g : string → option string) (s : string) : string :=
  default s (g s).

(** The first alternative that matches. *)
Fixpoint alt (ps : list string) (s : string) : option string :=
  match ps with
  | [] => None
  | p :: ps => match lit p s with Some r => Some r | None => alt ps s end
  end.

(** [^(func\s+(?:\([^)]+\)\s+)?|type\s+|var\s+|const\s+)NAME] *)
Definition goExportedRe (s : string) : option string :=
  match lit "func" s >>> s_plus with
  | Some r => name (opt receiver r)
  | None => alt ["type"; "var"; "const"] s >>> s_plus >>> name
  end.

(** [^export\s+(?:default\s+)?(?:function|class|const|let|var|interface|type)\s+NAME] *)
Definition jsExportedRe (s : string) : option string :=
  lit "export" s >>> s_plus
    >>> (λ r, alt ["function"; "class"; "const"; "let"; "var"; "interface"; "type"]
               (opt (λ r, lit "default" r >>> s_plus) r))
    >>> s_plus >>> name.

(** [^(?:pub\s+)?(?:fn|struct|enum|trait)\s+NAME] *)
Definition rustExportedRe (s : string) : option string :=
  alt ["fn"; "struct"; "enum"; "trait"] (opt (λ r, lit "pub" r >>> s_plus) s)
    >>> s_plus >>> name.
End regexp.

(** The body of the line loop of [findExportedNames]: the name this line
    adds to the set, if any. *)
Definition exported_name (prefix : ascii) (line : string) : option string :=
  match line with
  | "" => None
  | String c0 rest =>
    if bool_decide (c0 ≠ prefix) then None
    else if isDiffHeader line then None
    else
      let content := strings.TrimSpace rest in
      match regexp.goExportedRe content with
      | Some m => Some m
      | None =>
        match regexp.jsExportedRe content with
        | Some m => Some m
        | None => regexp.rustExportedRe content
        end
      end
  end.

Definition findExportedNames (diff : string) (prefix : ascii) : list string :=
  if bool_decide (diff = "") then []
  else
    let set : gset string :=
      foldl (λ set line, match exported_name prefix line with
                         | Some m => {[m]} ∪ set
                         | None => set
                         end) ∅ (strings.Split diff strings.LF) in
    merge_sort String.le (elements set).

(** The flags and counters the first loop of [detectType] fills in. *)
Record scan := {
  counts : gmap string Z;
  hasNewCodeFile : bool;
  hasPerfHint : bool;
  hasRefactorHint : bool;
  hasStyleHint : bool
}.

Definition scan_init : scan := Build_scan ∅ false false false false.

Definition scan_step (st : scan) (ch : Change.t) : scan :=
  let cat := categorizePath (Change.Path ch) in
  let lower := strings.ToLower (Change.Path ch) in
  {| counts := incr (counts st) cat;
     hasNewCodeFile :=
       if eqs cat catCode && (eqs (Change.Status ch) "A" || eqs (Change.Status ch) "U"
                              || eqs (Change.Status ch) "C")
       then true else hasNewCodeFile st;
     hasPerfHint :=
       if strings.Contains lower "perf" || strings.Contains lower "optimiz"
       then true else hasPerfHint st;
     hasRefactorHint :=
       if strings.Contains lower "refactor" || strings.Contains lower "cleanup"
       then true else hasRefactorHint st;
     hasStyleHint :=
       if strings.Contains lower "lint" || strings.Contains lower "format"
          || strings.Contains lower "style"
       then true else hasStyleHint st |}.

Definition detectType (changes : list Change.t) (diff : string) (opts : Options)
    : string * list string :=
  if bool_decide (Type_ opts ≠ "") then (strings.ToLower (Type_ opts), ["type override"])
  else
    let st := foldl scan_step scan_init changes in
    if bool_decide (count_of (counts st) catCode = 0%Z) then
      (dominantNonCode (counts st), ["only non-code files"])
    else if hasPerfHint st || diffHasKeyword diff ["perf"; "optimiz"; "speed"] then
      ("perf", ["performance hints"])
    else if hasRefactorHint st || diffHasKeyword diff ["refactor"; "cleanup"; "restructure"] then
      ("refactor", ["refactor hints"])
    else if hasStyleHint st || diffHasKeyword diff ["format"; "lint"; "style"] then
      ("style", ["style hints"])
    else if hasNewCodeFile st || bool_decide (0 < length (findExportedNames diff "+"%char)) then
      ("feat", ["new code or exported symbols"])
    else ("fix", ["defaulted to fix"]).

Definition allowed_in_scope (r : Z) : bool :=
  bool_decide ((0x61 ≤ r ≤ 0x7A) ∨ (0x30 ≤ r ≤ 0x39) ∨ r = 0x2D ∨ r = 0x5F ∨ r = 0x2F)%Z.

(** [strings.ReplaceAll(s, " ", "-")]. *)
Fixpoint spaces_to_hyphens (s : string) : string :=
  match s with
  | "" => ""
  | String c t => String (if bool_decide (c = " "%char) then "-"%char else c) (spaces_to_hyphens t)
  end.

Definition sanitizeScope (scope : string) : string :=
  let scope := strings.TrimSpace scope in
  let scope := strings.ToLower scope in
  let scope := spaces_to_hyphens scope in
  utf8.of_runes (filter (λ r, allowed_in_scope r = true) (utf8.runes scope)).

Definition topLevel (path : string) : string :=
  match strings.Split path filepath.slash with
  | [] => ""
  | [_] => ""
  | top :: _ => top
  end.

Definition scopeFromPath (path : string) : string :=
  let top := topLevel path in
  if bool_decide (top ≠ "") then top
  else
    let base := filepath.Base path in
    if eqs base "" || eqs base "." then ""
    else strings.TrimSuffix base (filepath.Ext base).

Definition primaryArea (path : string) : string :=
  match strings.Split path filepath.slash with
  | [] => ""
  | [only] => strings.TrimSuffix only (filepath.Ext only)
  | first :: second :: _ =>
    if eqs first "cmd" || eqs first "pkg" || eqs first "internal" || eqs first "src"
       || eqs first "lib" || eqs first "app"
    then first +:+ "/" +:+ second
    else first
  end.

(** The loop of [detectScope]: [i] is the index of the next record,
    [scope] the candidate so far; [None] is the early return of the empty
    scope, [Some scope] the end of the loop. *)
Fixpoint detectScope_loop (changes : list Change.t) (i : nat) (scope : string) : option string :=
  match changes with
  | [] => Some scope
  | ch :: changes =>
    let candidate := topLevel (Change.Path ch) in
    if bool_decide (candidate = "") then None
    else if bool_decide (i = 0) then detectScope_loop changes (i + 1) candidate
    else if bool_decide (scope ≠ candidate) then None
    else detectScope_loop changes (i + 1) scope
  end.

Definition detectScope (changes : list Change.t) (override : string) : string :=
  if bool_decide (strings.TrimSpace override ≠ "") then sanitizeScope override
  else match changes with
  | [] => ""
  | [ch] => sanitizeScope (scopeFromPath (Change.Path ch))
  | _ =>
    match detectScope_loop changes 0 "" with
    | None => ""
    | Some scope => sanitizeScope scope
    end
  end.

Definition detectBreaking (changes : list Change.t) (diff : string) (opts : Options)
    : bool * string :=
  if Breaking opts then (true, "")
  else if diffHasKeyword diff ["breaking change"; "breaking-change"] then (true, "")
  else
    let removed := findExportedNames diff "-"%char in
    if bool_decide (0 < length removed)
    then (true, "removed exported symbols: " +:+ strings.Join removed ", ")
    else (false, "").

(** * Composition ([render.go]) *)

Definition validFormat (format : Format) : bool :=
  eqs format FormatConventional || eqs format FormatPlain || eqs format FormatGitmoji.

Definition emojiCode (commitType : string) : string :=
  let t := strings.ToLower commitType in
  if eqs t "feat" then ":sparkles:"
  else if eqs t "fix" then ":bug:"
  else if eqs t "docs" then ":memo:"
  else if eqs t "style" then ":art:"
  else if eqs t "refactor" then ":recycle:"
  else if eqs t "perf" then ":zap:"
  else if eqs t "test" then ":white_check_mark:"
  else if eqs t "build" then ":package:"
  else if eqs t "ci" then ":construction_worker:"
  else if eqs t "chore" then ":wrench:"
  else "".

Definition lowerFirst (s : string) : string :=
  if bool_decide (s = "") then s
  else
    let '(r, size) := utf8.DecodeRuneInString s in
    if bool_decide (r = utf8.RuneError) then s
    else strings.ToLower (utf8.EncodeRune r) +:+ skip size s.

(** The backward loop of [trimSubject]: [i] indices are still to visit,
    the next one is [i - 1]; [cut] is the value the loop leaves when no
    space is met. *)
Fixpoint last_space (runes : list Z) (i : nat) (cut : nat) : nat :=
  match i with
  | 0 => cut
  | S j => if bool_decide (runes !! j = Some 0x20%Z) then j else last_space runes j cut
  end.

Definition trimSubject (s : string) (max : Z) : string :=
  if bool_decide (max ≤ 0)%Z then s
  else
    let runes := utf8.runes s in
    if bool_decide (Z.of_nat (length runes) ≤ max)%Z then s
    else
      let runes := take (Z.to_nat max) runes in
      let cut := last_space runes (length runes) (length runes) in
      let cut := if bool_decide (cut < 3) then Z.to_nat max else cut in
      strings.TrimSpace (utf8.of_runes (take cut runes)).

Definition formatMessage (commitType scope subject body : string) (opts : Options)
    (breaking : bool) : string :=
  let prefixed := eqs (OFormat opts) FormatConventional || eqs (OFormat opts) FormatGitmoji in
  let subj := if prefixed then lowerFirst subject else subject in
  let subj := trimSubject subj (MaxSubject opts) in
  let prefix :=
    if prefixed then
      strings.ToLower commitType
      +:+ (if bool_decide (scope ≠ "") then "(" +:+ scope +:+ ")" else "")
      +:+ (if breaking then "!" else "")
      +:+ ": "
    else "" in
  let prefix :=
    if Emoji opts || eqs (OFormat opts) FormatGitmoji then
      let code := emojiCode commitType in
      if bool_decide (code ≠ "") then code +:+ " " +:+ prefix else prefix
    else prefix in
  let msg := prefix +:+ subj in
  if bool_decide (body ≠ "") then msg +:+ str1 strings.LF +:+ str1 strings.LF +:+ body
  else msg.

Definition summaryLine (changes : list Change.t) (lang : string) : string :=
  let counts := foldl (λ counts ch, incr counts (Change.Status ch)) ∅ changes in
  let added := Int.add (count_of counts "A") (count_of counts "U") in
  let modified := count_of counts "M" in
  let deleted := count_of counts "D" in
  let total := Z.of_nat (length changes) in
  if eqs lang "ru" then
    "Файлов изменено: " +:+ strconv.Itoa total +:+ " (добавлено " +:+ strconv.Itoa added
    +:+ ", удалено " +:+ strconv.Itoa deleted +:+ ", изменено " +:+ strconv.Itoa modified +:+ ")"
  else
    "Files changed: " +:+ strconv.Itoa total +:+ " (added " +:+ strconv.Itoa added
    +:+ ", removed " +:+ strconv.Itoa deleted +:+ ", modified " +:+ strconv.Itoa modified +:+ ")".

(** The vote of [inferTarget]: one step of the loop over the entries of
    the map [counts], on the triple [(best, bestCount, tie)]. *)
Definition vote_step (acc : string * Z * bool) (entry : string * Z) : string * Z * bool :=
  let '(best, bestCount, tie) := acc in
  let '(area, count) := entry in
  if bool_decide (bestCount < count)%Z then (area, count, false)
  else if bool_decide (count = bestCount) then (best, bestCount, true)
  else acc.

Definition vote (entries : list (string * Z)) : string :=
  let '(best, _, tie) := foldl vote_step ("", 0%Z, false) entries in
  if tie then "" else best.

Definition area_counts (changes : list Change.t) : gmap string Z :=
  foldl (λ counts ch,
           let area := primaryArea (Change.Path ch) in
           if bool_decide (area ≠ "") then incr counts area else counts)
        ∅ changes.

Definition inferTarget (changes : list Change.t) (scope : string) : string :=
  match changes with
  | [ch] => primaryArea (Change.Path ch)
  | _ =>
    if bool_decide (scope ≠ "") then scope
    else
      let counts := area_counts changes in
      if bool_decide (size counts = 0) then ""
      else vote (map_to_list counts)
  end.

(** [verbForType]: the verb and the default target of a commit type,
    in the language of the message. *)
Definition verbForType (commitType lang : string) : string * string :=
  let ct := strings.ToLower commitType in
  if eqs lang "ru" then
    if eqs ct "feat" then ("Добавь", "функциональность")
    else if eqs ct "fix" then ("Исправь", "ошибки")
    else if eqs ct "docs" then ("Обнови", "документацию")
    else if eqs ct "test" then ("Добавь", "тесты")
    else if eqs ct "refactor" then ("Улучши", "структуру кода")
    else if eqs ct "perf" then ("Оптимизируй", "производительность")
    else if eqs ct "style" then ("Приведи", "стиль")
    else if eqs ct "build" then ("Обнови", "сборку")
    else if eqs ct "ci" then ("Обнови", "CI")
    else if eqs ct "chore" then ("Обнови", "инструменты")
    else ("Обнови", "изменения")
  else
    if eqs ct "feat" then ("Add", "feature")
    else if eqs ct "fix" then ("Fix", "bug")
    else if eqs ct "docs" then ("Update", "docs")
    else if eqs ct "test" then ("Add", "tests")
    else if eqs ct "refactor" then ("Refactor", "code")
    else if eqs ct "perf" then ("Optimize", "performance")
    else if eqs ct "style" then ("Format", "code")
    else if eqs ct "build" then ("Update", "build")
    else if eqs ct "ci" then ("Update", "CI")
    else if eqs ct "chore" then ("Update", "tooling")
    else ("Update", "changes").

(** [buildSubject]: the verb of the type, a space, and the target. *)
Definition buildSubject (commitType scope : string) (changes : list Change.t)
    (opts : Options) : string :=
  let '(verb, defaultTarget) := verbForType commitType (Lang opts) in
  let target := inferTarget changes scope in
  let target := if eqs target "" then defaultTarget else target in
  let target :=
    if eqs target "" then (if eqs (Lang opts) "ru" then "изменения" else "changes")
    else target in
  strings.TrimSpace (verb +:+ " " +:+ target).

(** * Reference definitions for the statements

    These are not functions of the program: they say, in the words of the
    specification, what the theorems below compare the program with. *)

(** The number of records of [changes] that [key] maps to [k]. *)
Definition tally {A : Type} (key : A → string) (k : string) (l : list A) : Z :=
  Z.of_nat (length (filter (λ x, key x = k) l)).

Definition category (ch : Change.t) : string := categorizePath (Change.Path ch).

(** Type detection without code records, as the specification words it:
    the first category of the priority order whose count is positive, and
    chore when there is none. *)
Definition first_positive (n : string → Z) : string :=
  default catChore (List.find (λ c, bool_decide (0 < n c)%Z) dominant_order).

(** What [dominantNonCode] selects: the category with the greatest count,
    the earlier one in the priority order among equals, and chore when no
    category has a positive count. *)
Definition dominant (n : string → Z) (t : string) : Prop :=
  ((∀ c, c ∈ dominant_order → n c ≤ 0)%Z ∧ t = catChore)
  ∨ ∃ i : nat, dominant_order !! i = Some t ∧ (0 < n t)%Z
         ∧ ∀ (j : nat) c, dominant_order !! j = Some c →
                  (j < i → (n c < n t)%Z) ∧ (i < j → (n c ≤ n t)%Z).

(** The options [parseFlags] builds when no flag and no environment
    variable is set (the language resolved to English). *)
Definition default_options : Options :=
  {| Type_ := ""; Scope := ""; Breaking := false; OFormat := FormatConventional;
     Lang := "en"; MaxItems := 8; MaxSubject := 72; Emoji := false |}.

(** One documentation file and two test files. *)
Definition docs_and_tests : list Change.t :=
  [Change.mk "README.md" "" "M" ModeStaged; Change.mk "git_test.go" "" "M" ModeStaged;
   Change.mk "render_test.go" "" "M" ModeStaged].

(** The invariant of a stat record. *)
Definition binary_has_no_counts (st : FileStat.t) : Prop :=
  FileStat.Binary st = true → FileStat.Added st = 0%Z ∧ FileStat.Deleted st = 0%Z.

(** The records of a numstat run agree on which paths are binary. *)
Definition binary_by_path (stats : list FileStat.t) : Prop :=
  ∀ a b, a ∈ stats → b ∈ stats → FileStat.Path a = FileStat.Path b →
         FileStat.Binary a = FileStat.Binary b.

(** A record that carries the binary flag [binary] gives to its path,
    and a map from paths to such records. *)
Definition consistent_stat (binary : string → bool) (st : FileStat.t) : Prop :=
  FileStat.Binary st = binary (FileStat.Path st) ∧ binary_has_no_counts st.

Definition consistent_stats (binary : string → bool) (byPath : gmap string FileStat.t) : Prop :=
  ∀ p st, byPath !! p = Some st → FileStat.Path st = p ∧ consistent_stat binary st.

(** A path with counted lines in the index and binary content in the work
    tree: what the two numstat runs print for it. *)
Definition numstat_counted : string := "3" +:+ str1 strings.TAB +:+ "1" +:+ str1 strings.TAB +:+ "logo.svg".
Definition numstat_binary : string := "-" +:+ str1 strings.TAB +:+ "-" +:+ str1 strings.TAB +:+ "logo.svg".

Definition untracked (path : string) : Change.t := Change.mk path "" "U" ModeUnstaged.

(** The untracked listing as the specification words it: one record per
    non-empty entry, the path being the entry. *)
Definition untracked_plain_split (data : string) : list Change.t :=
  untracked <$> filter (λ f, f ≠ "") (strings.Split data strings.NUL).

(** A path staged as modified and deleted in the work tree. *)
Definition staged_modified : Change.t := Change.mk "git.go" "" "M" ModeStaged.
Definition unstaged_deleted : Change.t := Change.mk "git.go" "" "D" ModeUnstaged.

(** Every record of the map sits under its own path. *)
Definition keyed_by_path (byPath : gmap string Change.t) : Prop :=
  ∀ p ch, byPath !! p = Some ch → Change.Path ch = p.

(** The records [parseNameStatus] reads off the fields that lie at and
    after its cursor, by recursion on these fields. *)
Fixpoint walk (source : Mode) (fields : list string) : list Change.t :=
  match fields with
  | [] => []
  | entry :: rest =>
    if bool_decide (entry = "") then walk source rest
    else if strings.Contains entry (str1 strings.TAB) then
      match strings.SplitN entry strings.TAB 2 with
      | status :: p :: _ =>
        let sc := statusChar status in
        if renameOrCopy sc then
          match rest with
          | newPath :: rest => Change.mk newPath p sc source :: walk source rest
          | [] => []
          end
        else Change.mk p "" sc source :: walk source rest
      | _ => walk source rest
      end
    else
      let sc := statusChar entry in
      if renameOrCopy sc then
        match rest with
        | oldPath :: newPath :: rest =>
          (if bool_decide (oldPath ≠ "") && bool_decide (newPath ≠ "")
           then [Change.mk newPath oldPath sc source] else []) ++ walk source rest
        | _ => []
        end
      else
        match rest with
        | path :: rest =>
          (if bool_decide (path ≠ "") then [Change.mk path "" sc source] else [])
          ++ walk source rest
        | [] => []
        end
  end.

Definition no_byte (c : ascii) (s : string) : Prop := strings.Contains s (str1 c) = false.

(** A status field: not empty, free of TAB. *)
Definition status_field (st : string) : Prop := st ≠ "" ∧ no_byte strings.TAB st.

Definition is_rename (st : string) : Prop := renameOrCopy (statusChar st) = true.

(** Field sequences made of whole records, in either physical shape. *)
Inductive complete : list string → Prop :=
  | complete_nil : complete []
  | complete_empty fields : complete fields → complete ("" :: fields)
  | complete_joined st path fields :
      status_field st → ¬ is_rename st → complete fields →
      complete ((st +:+ str1 strings.TAB +:+ path) :: fields)
  | complete_joined_rename st old new fields :
      status_field st → is_rename st → complete fields →
      complete ((st +:+ str1 strings.TAB +:+ old) :: new :: fields)
  | complete_split st path fields :
      status_field st → ¬ is_rename st → complete fields →
      complete (st :: path :: fields)
  | complete_split_rename st old new fields :
      status_field st → is_rename st → complete fields →
      complete (st :: old :: new :: fields).

(** The start of a record whose remaining fields are missing. *)
Inductive truncated : list string → Prop :=
  | truncated_status st : status_field st → truncated [st]
  | truncated_old st old : status_field st → is_rename st → truncated [st; old]
  | truncated_joined st old :
      status_field st → is_rename st → truncated [st +:+ str1 strings.TAB +:+ old].

(** The cut point of a subject of more than [max] runes, as the
    specification words it: the nearest space before [max] if it lies at
    least three runes in, else [max] itself. *)
Definition cut_point (runes : list Z) (max cut : nat) : Prop :=
  (3 ≤ cut < max ∧ runes !! cut = Some 0x20%Z
   ∧ ∀ j, cut < j < max → runes !! j ≠ Some 0x20%Z)
  ∨ (cut = max ∧ ∀ j, 3 ≤ j < max → runes !! j ≠ Some 0x20%Z).

(** Whether a subject begins with white space: whether its first rune
    is a [unicode.IsSpace] rune. *)
Definition leading_space (s : string) : bool :=
  match utf8.runes s with
  | r :: _ => unicode.IsSpace r
  | [] => false
  end.

(** The verbs of [verbForType]. *)
Definition verbs : list string :=
  ["Добавь"; "Исправь"; "Обнови"; "Улучши"; "Оптимизируй"; "Приведи";
   "Add"; "Fix"; "Update"; "Refactor"; "Optimize"; "Format"].

(** A byte that belongs to no encoding of a white-space rune, and a byte
    that is neither a blank nor the first byte of such an encoding. *)
Definition anchor (c : ascii) : bool :=
  negb (strings.space1 (byte c))
  && bool_decide (byte c < 0x80 ∨ 0xC3 ≤ byte c ≤ 0xE0 ∨ 0xE4 ≤ byte c)%Z.
Definition no_lead (c : ascii) : bool :=
  negb (strings.space1 (byte c))
  && bool_decide (byte c ≠ 0xC2 ∧ ¬ (0xE1 ≤ byte c ≤ 0xE3))%Z.

(** A text that begins with an [anchor] byte and a [no_lead] byte which
    are, or begin, a rune that is no white space. *)
Definition subject_start (s : string) : bool :=
  match s with
  | String c0 (String c1 _) =>
    anchor c0 && no_lead c1 && bool_decide (byte c0 < 0xE0)%Z
    && negb (leading_space (String c0 (String c1 "")))
  | _ => false
  end.

(** ** A reader of the message prefix

    The grammar of the prefix that [formatMessage] writes for the
    conventional and gitmoji formats is
    [[":" code ":" " "] type ["(" scope ")"] ["!"] ":" " "].  [parsePrefix]
    reads it back. *)

Definition lower_letter (c : ascii) : bool := bool_decide (0x61 ≤ byte c ≤ 0x7A)%Z.

Fixpoint all_bytes (P : ascii → bool) (s : string) : bool :=
  match s with
  | "" => true
  | String c t => P c && all_bytes P t
  end.

(** A commit type: lower-case letters, at least one. *)
Definition type_token (ty : string) : Prop := ty ≠ "" ∧ all_bytes lower_letter ty = true.

(** A sanitized scope: only the bytes that [sanitizeScope] lets through. *)
Definition scope_token (sc : string) : Prop :=
  all_bytes (λ c, allowed_in_scope (byte c)) sc = true.

(** The longest prefix of lower-case letters, and what follows it. *)
Fixpoint span_lower (s : string) : string * string :=
  match s with
  | String c t =>
    if lower_letter c then let '(a, b) := span_lower t in (String c a, b) else ("", s)
  | "" => ("", "")
  end.

Definition skip_emoji (s : string) : option string :=
  match s with
  | String c t =>
    if bool_decide (c = ":"%char) then
      match strings.Cut t ":"%char with
      | Some (_, String sp r) => if bool_decide (sp = " "%char) then Some r else None
      | _ => None
      end
    else Some s
  | "" => Some s
  end.

Definition read_scope (s : string) : option (string * string) :=
  match s with
  | String c t => if bool_decide (c = "("%char) then strings.Cut t ")"%char else Some ("", s)
  | "" => Some ("", s)
  end.

Definition read_bang (s : string) : bool * string :=
  match s with
  | String c t => if bool_decide (c = "!"%char) then (true, t) else (false, s)
  | "" => (false, s)
  end.

Definition parsePrefix (msg : string) : option (string * string * bool) :=
  match skip_emoji msg with
  | None => None
  | Some s =>
    let '(ty, s) := span_lower s in
    match read_scope s with
    | None => None
    | Some (sc, s) =>
      let '(breaking, s) := read_bang s in
      if strings.HasPrefix s ": " then Some (ty, sc, breaking) else None
    end
  end.

Definition prefixed (format : Format) : Prop :=
  format = FormatConventional ∨ format = FormatGitmoji.

(** The options of [default_options] with the plain format. *)
Definition plain_options : Options :=
  {| Type_ := ""; Scope := ""; Breaking := false; OFormat := FormatPlain;
     Lang := "en"; MaxItems := 8; MaxSubject := 72; Emoji := false |}.

(** [strings.ToLower] on one ASCII byte. *)
Definition lower_byte (c : ascii) : ascii := chr (unicode.ToLower (byte c)).

Fixpoint map_bytes (f : ascii → ascii) (s : string) : string :=
  match s with
  | "" => ""
  | String c t => String (f c) (map_bytes f t)
  end.

Definition is_ascii (c : ascii) : bool := bool_decide (byte c < 0x80)%Z.

(** The line that reports the four numbers of a summary. *)
Definition summary_text (lang : string) (total added removed modified : Z) : string :=
  if eqs lang "ru" then
    "Файлов изменено: " +:+ strconv.Itoa total +:+ " (добавлено " +:+ strconv.Itoa added
    +:+ ", удалено " +:+ strconv.Itoa removed +:+ ", изменено " +:+ strconv.Itoa modified +:+ ")"
  else
    "Files changed: " +:+ strconv.Itoa total +:+ " (added " +:+ strconv.Itoa added
    +:+ ", removed " +:+ strconv.Itoa removed +:+ ", modified " +:+ strconv.Itoa modified +:+ ")".

(** The number of records of [changes] with status [s]. *)
Definition with_status (s : string) (changes : list Change.t) : Z :=
  tally Change.Status s changes.

(** A slice cannot hold more elements than an [int] counts. *)
Definition countable_len {A : Type} (l : list A) : Prop :=
  (Z.of_nat (length l) ≤ Int.max_int)%Z.

(** A byte that white-space trimming and UTF-8 decoding leave in place:
    ASCII and not a blank. *)
Definition solid (c : ascii) : bool := is_ascii c && negb (strings.space1 (byte c)).

Definition solid_first (s : string) : bool :=
  match s with
  | String c _ => solid c
  | "" => false
  end.







(** What every record of a name-status stream satisfies. *)
Definition parsed_record (source : Mode) (ch : Change.t) : Prop :=
  Change.Source ch = source
  ∧ String.length (Change.Status ch) ≤ 1
  ∧ (Change.OldPath ch ≠ "" → Change.Status ch = "R" ∨ Change.Status ch = "C").

(** The fields of a record in the split shape: status, old path for a
    rename or copy, path. *)
Definition fields_of (ch : Change.t) : list string :=
  if renameOrCopy (Change.Status ch)
  then [Change.Status ch; Change.OldPath ch; Change.Path ch]
  else [Change.Status ch; Change.Path ch].

(** A record as the version-control tool reports it: a status of one
    byte, a path, and an old path exactly for a rename or copy. *)
Definition reported (source : Mode) (ch : Change.t) : Prop :=
  Change.Source ch = source
  ∧ (∃ c, Change.Status ch = str1 c ∧ c ≠ strings.TAB)
  ∧ Change.Path ch ≠ ""
  ∧ (if renameOrCopy (Change.Status ch)
     then Change.OldPath ch ≠ "" else Change.OldPath ch = "")
  ∧ Forall (no_byte strings.NUL) (fields_of ch).

(** The NUL-terminated stream of a list of fields. *)
Definition terminated (fields : list string) : string :=
  strings.Join (fields ++ [""]) (str1 strings.NUL).

(** The shape of an exported name: an upper-case letter followed by
    letters, digits and underscores. *)
Definition exported_shape (n : string) : Prop :=
  ∃ c t, n = String c t ∧ regexp.upper c = true ∧ all_bytes regexp.word t = true.

(** The ten commit types of the classifier. *)
Definition commit_types : list string :=
  ["docs"; "test"; "ci"; "build"; "chore"; "perf"; "refactor"; "style"; "feat"; "fix"].

Definition scope_byte (c : ascii) : bool := allowed_in_scope (byte c).

(** An area that has strictly more records than every other area. *)
Definition strict_winner (entries : list (string * Z)) (a : string) : Prop :=
  ∃ c, (a, c) ∈ entries ∧ ∀ a' c', (a', c') ∈ entries → a' ≠ a → (c' < c)%Z.

(** The entries of a counter map: one entry per key, positive counts. *)
Definition counter_entries (entries : list (string * Z)) : Prop :=
  NoDup entries.*1 ∧ ∀ a c, (a, c) ∈ entries → (0 < c)%Z.

(** Every stat record of the map sits under its own path. *)
Definition stats_by_path (byPath : gmap string FileStat.t) : Prop :=
  ∀ p st, byPath !! p = Some st → FileStat.Path st = p.

(** The record that stands for two records of one path. *)
Definition combined (a b : FileStat.t) : FileStat.t :=
  FileStat.mk (FileStat.Path a)
    (Int.add (FileStat.Added a) (FileStat.Added b))
    (Int.add (FileStat.Deleted a) (FileStat.Deleted b))
    (FileStat.Binary a || FileStat.Binary b).

(** * Facts about the runtime model *)

Lemma Int_wrap_id z : Int.in_range z → Int.wrap z = z.
Proof.
  unfold Int.in_range, Int.wrap, Int.min_int, Int.max_int. intros ?.
  rewrite Z.mod_small; lia.
Qed.

Lemma Int_add_exact a b : Int.in_range (a + b) → Int.add a b = (a + b)%Z.
Proof. apply Int_wrap_id. Qed.

Lemma byte_range c : (0 ≤ byte c < 256)%Z.
Proof. unfold byte. pose proof (N_ascii_bounded c). lia. Qed.

Lemma chr_byte c : chr (byte c) = c.
Proof. unfold chr, byte. rewrite N2Z.id. apply ascii_N_embedding. Qed.

Lemma byte_chr z : (0 ≤ z < 256)%Z → byte (chr z) = z.
Proof. intros ?. unfold chr, byte. rewrite N_ascii_embedding; lia. Qed.

Lemma byte_inj c d : byte c = byte d → c = d.
Proof. intros H. rewrite <- (chr_byte c), <- (chr_byte d). by rewrite H. Qed.

Section string_facts.
Implicit Types (s t p : string) (c : ascii).

Lemma append_nil_r s : s +:+ "" = s.
Proof. induction s; simpl; congruence. Qed.

Lemma append_assoc s t p : (s +:+ t) +:+ p = s +:+ t +:+ p.
Proof. induction s; simpl; congruence. Qed.

Lemma length_append s t : String.length (s +:+ t) = String.length s + String.length t.
Proof. induction s; simpl; congruence. Qed.

Lemma append_eq_nil s t : s +:+ t = "" → s = "" ∧ t = "".
Proof. destruct s; simpl; [done | discriminate]. Qed.

Lemma rev_onto_app s acc : strings.rev_onto s acc = strings.rev s +:+ acc.
Proof.
  unfold strings.rev. revert acc.
  induction s as [|c s IH]; intros acc; simpl; [done|].
  rewrite (IH (String c acc)), (IH (String c "")), append_assoc. done.
Qed.

Lemma rev_cons c s : strings.rev (String c s) = strings.rev s +:+ str1 c.
Proof. unfold strings.rev at 1. simpl. apply rev_onto_app. Qed.

Lemma rev_append s t : strings.rev (s +:+ t) = strings.rev t +:+ strings.rev s.
Proof.
  induction s as [|c s IH]; simpl.
  - by rewrite append_nil_r.
  - by rewrite !rev_cons, IH, append_assoc.
Qed.

Lemma rev_involutive s : strings.rev (strings.rev s) = s.
Proof.
  induction s as [|c s IH]; [done|].
  by rewrite rev_cons, rev_append, IH.
Qed.

Lemma rev_inj s t : strings.rev s = strings.rev t → s = t.
Proof. intros H. by rewrite <- (rev_involutive s), H, rev_involutive. Qed.

Lemma HasPrefix_spec s p : strings.HasPrefix s p = true ↔ ∃ r, s = p +:+ r.
Proof.
  revert s. induction p as [|a p IH]; intros s; simpl.
  - split; [intros _; by exists s | done].
  - destruct s as [|c s]; simpl.
    + split; [done | by intros [? ?]].
    + rewrite andb_true_iff, bool_decide_eq_true, IH. split.
      * intros [-> [r ->]]. eauto.
      * intros [r [= -> ->]]. eauto.
Qed.

Lemma Contains_spec s p : strings.Contains s p = true ↔ ∃ a b, s = a +:+ p +:+ b.
Proof.
  induction s as [|c s IH]; simpl.
  - rewrite orb_false_r, HasPrefix_spec. split.
    + intros [r ->]. by exists "", r.
    + intros (a & b & H). symmetry in H.
      apply append_eq_nil in H as [-> H]. simpl in H. eauto.
  - rewrite orb_true_iff, HasPrefix_spec, IH. split.
    + intros [[r ->] | (a & b & ->)].
      * by exists "", r.
      * by exists (String c a), b.
    + intros ([|c' a] & b & H); simpl in H.
      * left. eauto.
      * right. injection H as -> ->. eauto.
Qed.

Lemma Contains_app s p a b : strings.Contains s p = true → strings.Contains (a +:+ s +:+ b) p = true.
Proof.
  rewrite !Contains_spec. intros (x & y & ->).
  exists (a +:+ x), (y +:+ b). by rewrite !append_assoc.
Qed.


End string_facts.

(** * Counters kept in a map *)

Section counters.
Context {A : Type} (key : A → string).
Implicit Types (m : gmap string Z) (l : list A) (k : string).

Lemma count_of_empty k : count_of ∅ k = 0%Z.
Proof. unfold count_of. by rewrite lookup_empty. Qed.

Lemma count_of_incr m k k' :
  count_of (incr m k) k' =
  if bool_decide (k = k') then Int.add (count_of m k) 1 else count_of m k'.
Proof.
  unfold incr, count_of at 1. case_bool_decide as Hk.
  - subst. by rewrite lookup_insert_eq.
  - by rewrite lookup_insert_ne.
Qed.

Lemma tally_nil k : tally key k [] = 0%Z.
Proof. done. Qed.

Lemma tally_cons k x l :
  tally key k (x :: l) = ((if bool_decide (key x = k) then 1 else 0) + tally key k l)%Z.
Proof.
  unfold tally. rewrite filter_cons.
  case_bool_decide; case_decide; try done; simpl; lia.
Qed.

Lemma tally_bounds k l : (0 ≤ tally key k l ≤ Z.of_nat (length l))%Z.
Proof.
  unfold tally. pose proof (length_filter (λ x, key x = k) l). lia.
Qed.

(** As long as the counters cannot overflow, a pass of [counts[key]++]
    over [l] adds to each counter the number of its records. *)
Lemma count_of_fold l m k :
  (∀ k, 0 ≤ count_of m k)%Z →
  (∀ k, count_of m k + Z.of_nat (length l) ≤ Int.max_int)%Z →
  count_of (foldl (λ c x, incr c (key x)) m l) k = (count_of m k + tally key k l)%Z.
Proof.
  revert m. induction l as [|x l IH]; intros m Hpos Hmax.
  - rewrite tally_nil. simpl. lia.
  - cbn [foldl]. cbn [length] in Hmax.
    assert (Hstep : ∀ k', count_of (incr m (key x)) k' =
              (count_of m k' + if bool_decide (key x = k') then 1 else 0)%Z).
    { intros k'. rewrite count_of_incr. case_bool_decide; [subst|lia].
      apply Int_add_exact. unfold Int.in_range, Int.min_int.
      specialize (Hpos (key x)). specialize (Hmax (key x)). lia. }
    rewrite IH.
    + rewrite Hstep, tally_cons. lia.
    + intros k'. rewrite Hstep. specialize (Hpos k'). case_bool_decide; lia.
    + intros k'. rewrite Hstep. specialize (Hmax k'). case_bool_decide; lia.
Qed.

Lemma count_of_fold_empty l k :
  (Z.of_nat (length l) ≤ Int.max_int)%Z →
  count_of (foldl (λ c x, incr c (key x)) ∅ l) k = tally key k l.
Proof.
  intros Hlen. rewrite count_of_fold.
  - rewrite count_of_empty. lia.
  - intros ?. by rewrite count_of_empty.
  - intros ?. rewrite count_of_empty. lia.
Qed.
End counters.

(** The counters of distinct keys count disjoint records. *)
Lemma tally_disjoint {A : Type} (key : A → string) (ks : list string) (l : list A) :
  NoDup ks → (foldr (λ k acc, tally key k l + acc) 0 ks ≤ Z.of_nat (length l))%Z.
Proof.
  intros Hnd. induction l as [|x l IH]; simpl.
  - induction ks as [|k ks IHk]; simpl; [lia|].
    rewrite tally_nil. apply NoDup_cons in Hnd as [_ Hnd]. specialize (IHk Hnd). lia.
  - assert (Hone : (foldr (λ k acc, tally key k (x :: l) + acc) 0 ks
                    ≤ foldr (λ k acc, tally key k l + acc) 0 ks + 1
                    ∧ (key x ∉ ks → foldr (λ k acc, tally key k (x :: l) + acc) 0 ks
                                     = foldr (λ k acc, tally key k l + acc) 0 ks))%Z).
    { clear IH. induction ks as [|k ks IHk]; simpl; [split; [lia|done]|].
      apply NoDup_cons in Hnd as [Hk Hnd]. destruct (IHk Hnd) as [Hle Heq].
      rewrite tally_cons. case_bool_decide as Hx.
      - subst k. rewrite (Heq Hk). split; [lia|]. intros Hin. exfalso. apply Hin. left.
      - split; [lia|]. intros Hin. rewrite Heq; [lia|]. intros ?. apply Hin. by right. }
    lia.
Qed.

Lemma tally_elem_of {A : Type} (key : A → string) (x : A) (l : list A) :
  x ∈ l → (1 ≤ tally key (key x) l)%Z.
Proof.
  intros Hin. unfold tally.
  assert (Hx : x ∈ filter (λ y, key y = key x) l) by (apply list_elem_of_filter; done).
  destruct (filter (λ y, key y = key x) l); [by apply elem_of_nil in Hx | simpl; lia].
Qed.

(** * The summary line *)

Ltac in_list := solve [repeat (first [left | right])].

Ltac distinct_strings :=
  repeat (apply NoDup_cons; split;
          [rewrite ?elem_of_cons, elem_of_nil; intuition discriminate|]);
  apply NoDup_nil_2.

(** C10.  The summary line reports the number of records as total, the
    records with status A or U as added, those with status D as removed
    and those with status M as modified.  The three sub-counts never
    exceed the total, and a record with status R or C makes their sum
    strictly smaller than the total. *)
Theorem summaryLine_counts (changes : list Change.t) (lang : string) :
  countable_len changes →
  summaryLine changes lang =
    summary_text lang (Z.of_nat (length changes))
      (with_status "A" changes + with_status "U" changes)
      (with_status "D" changes) (with_status "M" changes)
  ∧ (with_status "A" changes + with_status "U" changes + with_status "D" changes
     + with_status "M" changes ≤ Z.of_nat (length changes))%Z
  ∧ ∀ ch, ch ∈ changes → Change.Status ch = "R" ∨ Change.Status ch = "C" →
      (with_status "A" changes + with_status "U" changes + with_status "D" changes
       + with_status "M" changes < Z.of_nat (length changes))%Z.
Proof.
  intros Hlen. unfold with_status. split; [|split].
  - unfold summaryLine, summary_text.
    rewrite !(count_of_fold_empty Change.Status) by done.
    rewrite Int_add_exact; [done|].
    pose proof (tally_disjoint Change.Status ["A"; "U"] changes) as Hsum.
    simpl in Hsum. unfold countable_len in Hlen.
    pose proof (tally_bounds Change.Status "A" changes).
    pose proof (tally_bounds Change.Status "U" changes).
    unfold Int.in_range, Int.min_int.
    assert (NoDup ["A"; "U"]) as Hnd by distinct_strings.
    specialize (Hsum Hnd). lia.
  - pose proof (tally_disjoint Change.Status ["A"; "U"; "D"; "M"] changes) as Hsum.
    simpl in Hsum. assert (NoDup ["A"; "U"; "D"; "M"]) as Hnd by distinct_strings.
    specialize (Hsum Hnd). lia.
  - intros ch Hin Hst.
    pose proof (tally_elem_of Change.Status ch changes Hin) as Hch.
    pose proof (tally_disjoint Change.Status
                  ["A"; "U"; "D"; "M"; Change.Status ch] changes) as Hsum.
    simpl in Hsum.
    assert (NoDup ["A"; "U"; "D"; "M"; Change.Status ch]) as Hnd.
    { destruct Hst as [-> | ->]; distinct_strings. }
    specialize (Hsum Hnd). lia.
Qed.

Lemma summaryLine_counts_witness :
  countable_len [Change.mk "a.go" "" "A" ModeStaged; Change.mk "b.go" "old.go" "R" ModeStaged;
                 Change.mk "c.go" "" "U" ModeUnstaged]
  ∧ summaryLine [Change.mk "a.go" "" "A" ModeStaged; Change.mk "b.go" "old.go" "R" ModeStaged;
                 Change.mk "c.go" "" "U" ModeUnstaged] "en"
    = "Files changed: 3 (added 2, removed 0, modified 0)".
Proof.
  assert (Hlen : countable_len [Change.mk "a.go" "" "A" ModeStaged;
                                Change.mk "b.go" "old.go" "R" ModeStaged;
                                Change.mk "c.go" "" "U" ModeUnstaged])
    by (vm_compute; discriminate).
  split; [exact Hlen|].
  destruct (summaryLine_counts _ "en" Hlen) as [-> _]. reflexivity.
Defined.

(** * Type detection without code records *)

Section dominant.
Variable counts : gmap string Z.
Local Abbreviation n := (count_of counts).

(** The loop of [dominantNonCode] over any list of categories: either no
    category beats the initial count, or the result is the first
    category of the greatest count. *)
Lemma dominant_fold (l : list string) (b : string) (bc : Z) :
  let r := foldl (dominant_step counts) (b, bc) l in
  (r = (b, bc) ∧ ∀ c, c ∈ l → (n c ≤ bc)%Z)
  ∨ ∃ i : nat, l !! i = Some r.1 ∧ r.2 = n r.1 ∧ (bc < r.2)%Z
         ∧ ∀ (j : nat) c, l !! j = Some c →
             (j < i → (n c < r.2)%Z) ∧ (i < j → (n c ≤ r.2)%Z).
Proof.
  revert b bc. induction l as [|c l IH]; intros b bc; cbn zeta.
  - left. split; [done|]. intros c Hc. by apply elem_of_nil in Hc.
  - cbn [foldl].
    assert (Hstep : dominant_step counts (b, bc) c
                    = if bool_decide (bc < n c)%Z then (c, n c) else (b, bc)) by done.
    rewrite Hstep. clear Hstep. case_bool_decide as Hlt.
    + right. destruct (IH c (n c)) as [[Hr Hall] | (i & Hi & Hv & Hgt & Hord)].
      * exists 0. rewrite Hr. cbn [fst snd]. split; [done|]. split; [done|].
        split; [done|]. intros j c' Hj. split; [lia|]. intros Hlt'.
        destruct j as [|j]; [lia|]. apply Hall. by eapply list_elem_of_lookup_2.
      * exists (S i). split; [done|]. split; [done|]. split; [lia|].
        intros [|j] c' Hj; cbn in Hj.
        -- injection Hj as <-. split; lia.
        -- destruct (Hord j c' Hj). split; intros ?; auto with lia.
    + destruct (IH b bc) as [[Hr Hall] | (i & Hi & Hv & Hgt & Hord)].
      * left. split; [done|]. intros c' [-> | Hc']%elem_of_cons; [lia|]. by apply Hall.
      * right. exists (S i). split; [done|]. split; [done|]. split; [done|].
        intros [|j] c' Hj; cbn in Hj.
        -- injection Hj as <-. split; lia.
        -- destruct (Hord j c' Hj). split; intros ?; auto with lia.
Qed.

Lemma dominantNonCode_dominant : dominant n (dominantNonCode counts).
Proof.
  unfold dominantNonCode.
  pose proof (dominant_fold dominant_order catChore (-1)) as Hfold. cbn zeta in Hfold.
  destruct (foldl (dominant_step counts) (catChore, (-1)%Z) dominant_order)
    as [best bestCount] eqn:Hrun.
  cbn [fst snd] in Hfold.
  destruct Hfold as [[[= -> ->] Hall] | (i & Hi & Hv & Hgt & Hord)].
  - left. rewrite bool_decide_eq_true_2 by lia. split; [|done].
    intros c Hc. specialize (Hall c Hc). lia.
  - case_bool_decide as Hle.
    + left. split; [|done]. intros c [j Hj]%list_elem_of_lookup_1.
      destruct (Hord j c Hj) as [Hbefore Hafter].
      destruct (Nat.lt_trichotomy j i) as [?|[->|?]]; [lia| |lia].
      rewrite Hi in Hj. injection Hj as <-. lia.
    + right. exists i. subst bestCount. repeat split; try done; try lia;
        intros; by apply (Hord j c).
Qed.
End dominant.

Lemma dominant_ext (n n' : string → Z) (t : string) :
  (∀ c, n c = n' c) → dominant n t → dominant n' t.
Proof.
  intros Heq [[Hall ->] | (i & Hi & Hpos & Hord)].
  - left. split; [|done]. intros c Hc. rewrite <- Heq. by apply Hall.
  - right. exists i. rewrite <- !Heq. repeat split; try done;
      intros; rewrite <- !Heq; by apply (Hord j c).
Qed.

Lemma scan_counts (changes : list Change.t) (st : scan) :
  counts (foldl scan_step st changes)
  = foldl (λ c ch, incr c (category ch)) (counts st) changes.
Proof.
  revert st. induction changes as [|ch changes IH]; intros st; [done|].
  cbn [foldl]. by rewrite IH.
Qed.

Lemma scan_count_of (changes : list Change.t) (c : string) :
  countable_len changes →
  count_of (counts (foldl scan_step scan_init changes)) c = tally category c changes.
Proof.
  intros Hlen. rewrite scan_counts. by apply count_of_fold_empty.
Qed.

Lemma tally_zero {A : Type} (key : A → string) (k : string) (l : list A) :
  (∀ x, x ∈ l → key x ≠ k) → tally key k l = 0%Z.
Proof.
  intros Hno. unfold tally.
  destruct (filter (λ x, key x = k) l) as [|x f] eqn:Hf; [done|].
  assert (Hx : x ∈ filter (λ x, key x = k) l) by (rewrite Hf; left).
  apply list_elem_of_filter in Hx as [Hk Hin]. by destruct (Hno x Hin).
Qed.

(** C1 (as amended).  When no type is forced and no record is categorized
    as code, [detectType] answers with the reason "only non-code files"
    and the dominant non-code category: the category of the greatest
    count, the earlier one in the order docs, test, ci, build, chore when
    counts are equal, and chore when every count is zero. *)
Theorem detectType_non_code (changes : list Change.t) (diff : string) (opts : Options) :
  countable_len changes →
  Type_ opts = "" →
  (∀ ch, ch ∈ changes → category ch ≠ catCode) →
  ∃ t, detectType changes diff opts = (t, ["only non-code files"])
       ∧ dominant (λ c, tally category c changes) t.
Proof.
  intros Hlen Hty Hcode. unfold detectType.
  rewrite bool_decide_eq_false_2 by (by rewrite Hty; intros ?).
  rewrite scan_count_of by done.
  rewrite (tally_zero category catCode) by done.
  rewrite bool_decide_eq_true_2 by done.
  eexists. split; [done|].
  eapply dominant_ext; [|apply dominantNonCode_dominant].
  intros c. by apply scan_count_of.
Qed.

Lemma detectType_non_code_witness :
  countable_len docs_and_tests ∧ Type_ default_options = ""
  ∧ (∀ ch, ch ∈ docs_and_tests → category ch ≠ catCode)
  ∧ ∃ t, detectType docs_and_tests "" default_options = (t, ["only non-code files"])
         ∧ dominant (λ c, tally category c docs_and_tests) t.
Proof.
  assert (Hlen : countable_len docs_and_tests) by (vm_compute; discriminate).
  assert (Hcode : ∀ ch, ch ∈ docs_and_tests → category ch ≠ catCode).
  { intros ch Hin. repeat (apply elem_of_cons in Hin as [-> | Hin]; [by vm_compute|]).
    by apply elem_of_nil in Hin. }
  split; [exact Hlen|]. split; [reflexivity|]. split; [exact Hcode|].
  exact (detectType_non_code docs_and_tests "" default_options Hlen eq_refl Hcode).
Defined.

(** C1 (as stated) fails: with one documentation file and two test files
    the first category of the order with a positive count is docs, but
    [detectType] answers test, the category with the greater count. *)
Lemma detectType_not_first_positive :
  Type_ default_options = ""
  ∧ tally category catCode docs_and_tests = 0%Z
  ∧ (detectType docs_and_tests "" default_options).1
    ≠ first_positive (λ c, tally category c docs_and_tests).
Proof.
  split; [reflexivity|]. split; [by vm_compute|]. by vm_compute.
Qed.

(** * Stat records *)

Lemma numstat_line_invariant (out : list FileStat.t) (line : string) :
  Forall binary_has_no_counts out → Forall binary_has_no_counts (numstat_line out line).
Proof.
  intros Hout. unfold numstat_line.
  case_bool_decide; [done|].
  destruct (strings.SplitN _ _ 3) as [|addStr [|delStr [|path parts]]]; try done.
  destruct (bool_decide (addStr = "-") && bool_decide (delStr = "-")).
  - apply Forall_app. split; [done|]. by apply Forall_singleton.
  - destruct (strconv.Atoi addStr), (strconv.Atoi delStr); try done.
    apply Forall_app. split; [done|]. by apply Forall_singleton.
Qed.

Lemma parseNumstat_invariant (raw : string) : Forall binary_has_no_counts (parseNumstat raw).
Proof.
  unfold parseNumstat. case_bool_decide; [by apply Forall_nil|].
  assert (Hfold : ∀ lines out, Forall binary_has_no_counts out →
            Forall binary_has_no_counts (foldl numstat_line out lines)).
  { induction lines as [|line lines IH]; intros out Hout; [done|].
    cbn [foldl]. by apply IH, numstat_line_invariant. }
  by apply Hfold, Forall_nil.
Qed.

Section combining.
(** [binary] tells, for every path, whether its records are binary. *)
Variable binary : string → bool.

Local Abbreviation consistent := (consistent_stat binary).
Local Abbreviation consistent_map := (consistent_stats binary).

Lemma stats_seed_consistent byPath st :
  consistent_map byPath → consistent st → consistent_map (stats_seed byPath st).
Proof.
  intros Hm Hst p st'. unfold stats_seed.
  destruct (decide (FileStat.Path st = p)) as [<- | Hne].
  - rewrite lookup_insert_eq. by intros [= <-].
  - rewrite lookup_insert_ne by done. apply Hm.
Qed.

Lemma stats_combine_consistent byPath st :
  consistent_map byPath → consistent st → consistent_map (stats_combine byPath st).
Proof.
  intros Hm [Hbin Hinv] p st'. unfold stats_combine.
  destruct (byPath !! FileStat.Path st) as [existing|] eqn:Hex.
  - destruct (Hm _ _ Hex) as (Hpath & Hbin' & Hinv').
    destruct (decide (FileStat.Path st = p)) as [<- | Hne].
    + rewrite lookup_insert_eq. intros [= <-]. cbn. split; [done|].
      rewrite Hpath in Hbin'. unfold consistent, binary_has_no_counts. cbn.
      rewrite Hpath, Hbin', Hbin, orb_diag. split; [done|].
      intros Hb. rewrite <- Hbin' in Hb at 1.
      destruct (Hinv' Hb) as [-> ->].
      assert (Hst : FileStat.Binary st = true) by congruence.
      destruct (Hinv Hst) as [-> ->]. done.
    + rewrite lookup_insert_ne by done. apply Hm.
  - by apply stats_seed_consistent.
Qed.

Lemma appendStats_consistent combined stats :
  Forall consistent combined → Forall consistent stats →
  Forall consistent (appendStats combined stats).
Proof.
  intros Hc Hs. unfold appendStats. case_bool_decide; [done|].
  assert (Hseed : ∀ l m, Forall consistent l → consistent_map m →
            consistent_map (foldl stats_seed m l)).
  { induction l as [|st l IH]; intros m Hl Hm; [done|].
    apply Forall_cons in Hl as [Hst Hl]. cbn [foldl].
    by apply IH, stats_seed_consistent. }
  assert (Hcomb : ∀ l m, Forall consistent l → consistent_map m →
            consistent_map (foldl stats_combine m l)).
  { induction l as [|st l IH]; intros m Hl Hm; [done|].
    apply Forall_cons in Hl as [Hst Hl]. cbn [foldl].
    by apply IH, stats_combine_consistent. }
  apply Forall_forall. intros st [[p st'] [-> Hin]]%list_elem_of_fmap.
  apply elem_of_map_to_list in Hin. cbn [snd].
  assert (Hmap : consistent_map (foldl stats_combine (foldl stats_seed ∅ combined) stats)).
  { apply Hcomb; [done|]. apply Hseed; [done|]. intros ? ?. by rewrite lookup_empty. }
  by destruct (Hmap p st' Hin).
Qed.
End combining.

(** C2 (as amended).  Every record of [parseNumstat], and with it every
    record [collectNumstat] returns for the staged or the unstaged mode,
    satisfies binary implies added = deleted = 0.  In the mode all the
    records of one path are combined (added and deleted summed, binary
    OR-ed), and the combined records satisfy the invariant whenever the
    records of the two runs agree on which paths are binary. *)
Theorem collectNumstat_invariant (mode : Mode) (cached worktree : option string)
    (out : list FileStat.t) :
  collectNumstat mode cached worktree = Some out →
  (mode = ModeAll →
   binary_by_path (parseNumstat (default "" worktree) ++ parseNumstat (default "" cached))) →
  ∀ st, st ∈ out → binary_has_no_counts st.
Proof.
  unfold collectNumstat. intros Hout Hagree.
  repeat case_bool_decide.
  - destruct cached as [raw|]; [|done]. injection Hout as <-.
    apply Forall_forall, parseNumstat_invariant.
  - destruct worktree as [raw|]; [|done]. injection Hout as <-.
    apply Forall_forall, parseNumstat_invariant.
  - injection Hout as <-. specialize (Hagree ltac:(done)).
    set (u := parseNumstat (default "" worktree)) in *.
    set (s := parseNumstat (default "" cached)) in *.
    set (binary := λ p, existsb (λ st, bool_decide (FileStat.Path st = p)
                                       && FileStat.Binary st) (u ++ s)).
    assert (Hall : Forall (consistent_stat binary) (u ++ s)).
    { apply Forall_forall. intros st Hin. split.
      - unfold binary. destruct (FileStat.Binary st) eqn:Hb.
        + symmetry. apply existsb_exists. exists st.
          split; [by apply list_elem_of_In|]. by rewrite bool_decide_eq_true_2, Hb.
        + symmetry. apply not_true_is_false. intros (st' & Hin' & Hc)%existsb_exists.
          apply list_elem_of_In in Hin'.
          apply andb_true_iff in Hc as [Hp%bool_decide_eq_true Hb'].
          rewrite (Hagree st st' Hin Hin') in Hb by done. congruence.
      - revert st Hin. apply Forall_forall, Forall_app.
        split; apply parseNumstat_invariant. }
    apply Forall_app in Hall as [Hu Hs].
    intros st Hin.
    assert (Hres : Forall (consistent_stat binary) (appendStats (appendStats [] u) s)).
    { apply appendStats_consistent; [|done]. by apply appendStats_consistent. }
    by apply (proj1 (Forall_forall _ _) Hres st Hin).
  - injection Hout as <-. intros st Hin. by apply elem_of_nil in Hin.
Qed.

Lemma collectNumstat_invariant_witness :
  collectNumstat ModeAll (Some numstat_binary) (Some numstat_binary)
  = Some [FileStat.mk "logo.svg" 0 0 true]
  ∧ ∀ st, st ∈ [FileStat.mk "logo.svg" 0 0 true] → binary_has_no_counts st.
Proof.
  assert (Hrun : collectNumstat ModeAll (Some numstat_binary) (Some numstat_binary)
                 = Some [FileStat.mk "logo.svg" 0 0 true]) by (vm_compute; reflexivity).
  split; [exact Hrun|].
  apply (collectNumstat_invariant ModeAll (Some numstat_binary) (Some numstat_binary) _ Hrun).
  clear Hrun.
  assert (Hboth : parseNumstat (default "" (Some numstat_binary))
                  ++ parseNumstat (default "" (Some numstat_binary))
                  = [FileStat.mk "logo.svg" 0 0 true; FileStat.mk "logo.svg" 0 0 true])
    by (vm_compute; reflexivity).
  intros _. rewrite Hboth. clear Hboth. intros a b Ha Hb _.
  assert (Hsame : ∀ x, x ∈ [FileStat.mk "logo.svg" 0 0 true; FileStat.mk "logo.svg" 0 0 true]
                       → x = FileStat.mk "logo.svg" 0 0 true).
  { intros x Hx. apply elem_of_cons in Hx as [Hx | Hx]; [exact Hx|].
    apply elem_of_cons in Hx as [Hx | Hx]; [exact Hx|]. by apply elem_of_nil in Hx. }
  rewrite (Hsame a Ha), (Hsame b Hb). reflexivity.
Defined.

(** C2 (as stated) fails in the mode all: a path that is counted in the
    index and binary in the work tree comes out binary with its counts. *)
Lemma collectNumstat_binary_with_counts :
  collectNumstat ModeAll (Some numstat_counted) (Some numstat_binary)
  = Some [FileStat.mk "logo.svg" 3 1 true]
  ∧ ¬ binary_has_no_counts (FileStat.mk "logo.svg" 3 1 true).
Proof.
  split; [by vm_compute|]. intros H. by destruct (H eq_refl).
Qed.

(** * Merging the staged and the unstaged view *)

Section merge.
Implicit Types (byPath : gmap string Change.t) (ch : Change.t) (l : list Change.t).

Lemma merge_seed_keyed l byPath :
  keyed_by_path byPath → keyed_by_path (foldl merge_seed byPath l).
Proof.
  revert byPath. induction l as [|ch l IH]; intros byPath Hk; [done|].
  cbn [foldl]. apply IH. intros p ch'. unfold merge_seed.
  destruct (decide (Change.Path ch = p)) as [<- | Hne].
  - rewrite lookup_insert_eq. by intros [= <-].
  - rewrite lookup_insert_ne by done. apply Hk.
Qed.

Lemma merge_unstaged_keyed l byPath :
  keyed_by_path byPath → keyed_by_path (foldl merge_unstaged byPath l).
Proof.
  revert byPath. induction l as [|ch l IH]; intros byPath Hk; [done|].
  cbn [foldl]. apply IH. intros p ch'. unfold merge_unstaged.
  destruct (byPath !! Change.Path ch) as [existing|] eqn:Hex;
    (destruct (decide (Change.Path ch = p)) as [<- | Hne];
     [rewrite lookup_insert_eq; intros [= <-]; cbn
     |rewrite lookup_insert_ne by done; apply Hk]).
  - by apply Hk.
  - done.
Qed.

(** Seeding with records of other paths leaves the entry of [p] alone. *)
Lemma merge_seed_other l byPath p :
  (∀ ch, ch ∈ l → Change.Path ch ≠ p) →
  foldl merge_seed byPath l !! p = byPath !! p.
Proof.
  revert byPath. induction l as [|ch l IH]; intros byPath Hno; [done|].
  cbn [foldl]. rewrite IH.
  - unfold merge_seed. apply lookup_insert_ne, Hno. left.
  - intros ch' Hin. apply Hno. by right.
Qed.

(** The staged record that the seeding loop leaves under its path is the
    last one of that path. *)
Lemma merge_seed_last pre ch post :
  (∀ x, x ∈ post → Change.Path x ≠ Change.Path ch) →
  foldl merge_seed ∅ (pre ++ ch :: post) !! Change.Path ch = Some ch.
Proof.
  intros Hpost. rewrite foldl_app. cbn [foldl].
  rewrite merge_seed_other by done.
  unfold merge_seed. apply lookup_insert_eq.
Qed.

(** The second loop never replaces a record it finds: it only rewrites
    the origin, and only when an unstaged record of the path comes by. *)
Lemma merge_unstaged_present l byPath p ch :
  byPath !! p = Some ch →
  foldl merge_unstaged byPath l !! p =
  Some (if bool_decide (p ∈ Change.Path <$> l)
        then Change.with_Source ch ModeAll else ch).
Proof.
  revert byPath ch. induction l as [|u l IH]; intros byPath ch Hp.
  - cbn [foldl fmap list_fmap]. rewrite bool_decide_eq_false_2; [done|].
    apply not_elem_of_nil.
  - cbn [foldl fmap list_fmap]. destruct (decide (Change.Path u = p)) as [Hu | Hu].
    + rewrite (IH _ (Change.with_Source ch ModeAll)).
      * rewrite (bool_decide_eq_true_2 (p ∈ Change.Path u :: _)).
        -- by case_bool_decide.
        -- rewrite Hu. left.
      * unfold merge_unstaged. rewrite Hu, Hp. apply lookup_insert_eq.
    + rewrite (IH _ ch).
      * f_equal.
        rewrite (bool_decide_ext (p ∈ Change.Path u :: (Change.Path <$> l))
                   (p ∈ Change.Path <$> l)); [done|].
        rewrite elem_of_cons. split; [|by right]. by intros [-> | ?].
      * unfold merge_unstaged.
        destruct (byPath !! Change.Path u); by rewrite lookup_insert_ne.
Qed.
End merge.

(** C6.  The merge seeds the map with the staged records; an unstaged
    record whose path is already there leaves the staged record in place
    and rewrites its origin: when [ch] is the staged record of its path
    and an unstaged record [u] has the same path, the merged list holds
    exactly one record of that path, namely [ch] with origin [ModeAll].
    In particular a path staged as M and unstaged as D comes out with
    status M and origin [ModeAll]. *)
Theorem mergeChanges_staged_wins (pre post unstaged : list Change.t) (ch u : Change.t) :
  (∀ x, x ∈ post → Change.Path x ≠ Change.Path ch) →
  u ∈ unstaged → Change.Path u = Change.Path ch →
  merge_byPath (pre ++ ch :: post) unstaged !! Change.Path ch
    = Some (Change.with_Source ch ModeAll)
  ∧ Change.with_Source ch ModeAll ∈ mergeChanges (pre ++ ch :: post) unstaged
  ∧ ∀ r, r ∈ mergeChanges (pre ++ ch :: post) unstaged →
         Change.Path r = Change.Path ch →
         r = Change.with_Source ch ModeAll
         ∧ Change.Status r = Change.Status ch ∧ Change.Source r = ModeAll.
Proof.
  intros Hpost Hu Hpath.
  assert (Hlook : merge_byPath (pre ++ ch :: post) unstaged !! Change.Path ch
                  = Some (Change.with_Source ch ModeAll)).
  { unfold merge_byPath.
    rewrite (merge_unstaged_present _ _ _ ch) by (by apply merge_seed_last).
    rewrite bool_decide_eq_true_2; [done|].
    rewrite <- Hpath. by apply list_elem_of_fmap_2. }
  split; [exact Hlook|]. split.
  - unfold mergeChanges. apply list_elem_of_fmap.
    exists (Change.Path ch, Change.with_Source ch ModeAll).
    split; [done|]. by apply elem_of_map_to_list.
  - intros r Hr Hrp. unfold mergeChanges in Hr.
    apply list_elem_of_fmap in Hr as [[p r'] [-> Hin]]. cbn [snd] in *.
    apply elem_of_map_to_list in Hin.
    assert (Hkey : keyed_by_path (merge_byPath (pre ++ ch :: post) unstaged)).
    { apply merge_unstaged_keyed, merge_seed_keyed. intros ? ?. by rewrite lookup_empty. }
    rewrite <- (Hkey _ _ Hin), Hrp, Hlook in Hin. injection Hin as <-. done.
Qed.

Lemma mergeChanges_staged_wins_witness :
  (∀ x, x ∈ [] → Change.Path x ≠ Change.Path staged_modified)
  ∧ unstaged_deleted ∈ [unstaged_deleted]
  ∧ Change.Path unstaged_deleted = Change.Path staged_modified
  ∧ ∀ r, r ∈ mergeChanges [staged_modified] [unstaged_deleted] →
         Change.Path r = "git.go" → Change.Status r = "M" ∧ Change.Source r = ModeAll.
Proof.
  assert (Hpost : ∀ x : Change.t, x ∈ [] → Change.Path x ≠ Change.Path staged_modified).
  { intros x Hx. by apply elem_of_nil in Hx. }
  assert (Hu : unstaged_deleted ∈ [unstaged_deleted]) by left.
  split; [exact Hpost|]. split; [exact Hu|]. split; [reflexivity|].
  intros r Hr Hp.
  destruct (mergeChanges_staged_wins [] [] [unstaged_deleted] staged_modified
              unstaged_deleted Hpost Hu eq_refl) as (_ & _ & Hall).
  by destruct (Hall r Hr Hp) as (_ & ? & ?).
Defined.

(** * The untracked listing *)

Lemma parseUntracked_loop_spec (fields : list string) (out : list Change.t) :
  parseUntracked_loop fields out
  = out ++ (untracked <$> filter (λ p, p ≠ "") (strings.TrimSpace <$> fields)).
Proof.
  revert out. induction fields as [|f fields IH]; intros out.
  - cbn. by rewrite app_nil_r.
  - cbn [parseUntracked_loop fmap list_fmap]. rewrite filter_cons.
    case_bool_decide as Hp; case_decide; try done.
    rewrite IH, <- app_assoc. done.
Qed.

(** C9 (as amended).  The untracked listing is split at NUL, every entry
    is trimmed of surrounding white space, and each entry that is not
    empty after trimming gives one record, in order: its path is the
    trimmed entry, its status U, its origin unstaged, its old path
    empty. *)
Theorem parseUntracked_trimmed (data : string) :
  parseUntracked data
  = untracked <$> filter (λ p, p ≠ "") (strings.TrimSpace <$> strings.Split data strings.NUL).
Proof.
  unfold parseUntracked. case_bool_decide as Hlen.
  - destruct data; [done | discriminate].
  - by rewrite parseUntracked_loop_spec.
Qed.

(** C9 (as stated) fails: an entry with a leading blank is recorded under
    the trimmed path, and an entry of blanks only, though not empty, is
    not recorded at all. *)
Lemma parseUntracked_not_plain_split :
  parseUntracked " notes.txt" = [untracked "notes.txt"]
  ∧ untracked_plain_split " notes.txt" = [untracked " notes.txt"]
  ∧ parseUntracked " " = []
  ∧ untracked_plain_split " " = [untracked " "].
Proof. by vm_compute. Qed.

(** * The name-status walk *)

Section cursor.
Variable source : Mode.

(** With at least as many steps as fields remain, the cursor loop never
    panics and never runs out of steps: it returns the records it had,
    followed by the records of the fields from the cursor on. *)
Lemma parseNameStatus_loop_walk (steps : nat) (fields : list string) (i : nat)
    (out : list Change.t) :
  length fields ≤ i + steps →
  parseNameStatus_loop steps fields source i out
  = Done (out ++ walk source (drop i fields)).
Proof.
  revert i out. induction steps as [|steps IH]; intros i out Hlen;
    cbn [parseNameStatus_loop].
  { rewrite bool_decide_eq_true_2 by lia. rewrite drop_ge by lia.
    by rewrite app_nil_r. }
  case_bool_decide as Hi.
  { rewrite drop_ge by lia. by rewrite app_nil_r. }
  destruct (lookup_lt_is_Some_2 fields i) as [entry Hentry]; [lia|].
  unfold index at 1. rewrite Hentry, (drop_S _ _ _ Hentry). cbn [walk].
  replace (i + 1) with (S i) by lia.
  case_bool_decide as Hempty; [by rewrite IH by lia|].
  destruct (strings.Contains entry (str1 strings.TAB)).
  - destruct (strings.SplitN entry strings.TAB 2) as [|status [|p parts]];
      [by rewrite IH by lia .. |].
    destruct (renameOrCopy (statusChar status)).
    + case_bool_decide as Hnew.
      * rewrite (drop_ge fields (S i)) by lia. by rewrite app_nil_r.
      * destruct (lookup_lt_is_Some_2 fields (S i)) as [newPath Hnewp]; [lia|].
        unfold index. rewrite Hnewp, (drop_S _ _ _ Hnewp).
        replace (i + 2) with (S (S i)) by lia.
        rewrite IH by lia. by rewrite <- app_assoc.
    + rewrite IH by lia. by rewrite <- app_assoc.
  - destruct (renameOrCopy (statusChar entry)).
    + replace (i + 2) with (S (S i)) by lia.
      case_bool_decide as Hnew.
      * destruct (drop (S i) fields) as [|o [|nw rest]] eqn:Hdrop;
          [by rewrite app_nil_r .. |].
        apply (f_equal length) in Hdrop. rewrite length_drop in Hdrop.
        cbn in Hdrop. lia.
      * destruct (lookup_lt_is_Some_2 fields (S i)) as [oldPath Hold]; [lia|].
        destruct (lookup_lt_is_Some_2 fields (S (S i))) as [newPath Hnewp]; [lia|].
        unfold index. rewrite Hold, Hnewp, (drop_S _ _ _ Hold), (drop_S _ _ _ Hnewp).
        replace (i + 3) with (S (S (S i))) by lia.
        rewrite IH by lia.
        destruct (bool_decide (oldPath ≠ "") && bool_decide (newPath ≠ ""));
          by rewrite <- ?app_assoc.
    + case_bool_decide as Hnew.
      * rewrite (drop_ge fields (S i)) by lia. by rewrite app_nil_r.
      * destruct (lookup_lt_is_Some_2 fields (S i)) as [path Hpath]; [lia|].
        unfold index. rewrite Hpath, (drop_S _ _ _ Hpath).
        replace (i + 2) with (S (S i)) by lia.
        rewrite IH by lia.
        destruct (bool_decide (path ≠ "")); by rewrite <- ?app_assoc.
Qed.

Lemma parseNameStatus_walk (data : string) :
  parseNameStatus data source = Done (walk source (strings.Split data strings.NUL)).
Proof.
  unfold parseNameStatus. case_bool_decide as Hlen.
  - destruct data; [done | discriminate].
  - by rewrite parseNameStatus_loop_walk by lia.
Qed.
End cursor.

(** * Splitting and joining at a separator byte *)

Section separator.
Variable sep : ascii.
Implicit Types (s t : string) (l : list string).

Lemma no_byte_nil : no_byte sep "".
Proof. done. Qed.

Lemma no_byte_cons c s : no_byte sep (String c s) ↔ c ≠ sep ∧ no_byte sep s.
Proof.
  unfold no_byte. cbn [strings.Contains strings.HasPrefix str1].
  rewrite orb_false_iff, andb_true_r, bool_decide_eq_false. done.
Qed.

Lemma no_byte_app s t : no_byte sep (s +:+ t) ↔ no_byte sep s ∧ no_byte sep t.
Proof.
  induction s as [|c s IH]; cbn [String.append].
  - split; [by split | by intros [_ ?]].
  - rewrite !no_byte_cons, IH. tauto.
Qed.

Lemma Split_no_byte s : no_byte sep s → strings.Split s sep = [s].
Proof.
  induction s as [|c s IH]; [done|].
  intros [Hc Hs]%no_byte_cons. cbn [strings.Split].
  rewrite bool_decide_eq_false_2 by done. by rewrite IH.
Qed.

Lemma Split_app s t :
  no_byte sep s → strings.Split (s +:+ String sep t) sep = s :: strings.Split t sep.
Proof.
  induction s as [|c s IH]; cbn [String.append strings.Split].
  - intros _. by rewrite bool_decide_eq_true_2.
  - intros [Hc Hs]%no_byte_cons. rewrite bool_decide_eq_false_2 by done.
    by rewrite IH.
Qed.

(** Splitting undoes joining, as long as no field holds the separator. *)
Lemma Split_Join f l :
  Forall (no_byte sep) (f :: l) →
  strings.Split (strings.Join (f :: l) (str1 sep)) sep = f :: l.
Proof.
  revert f. induction l as [|g l IH]; intros f Hall.
  - apply Forall_cons in Hall as [Hf _]. by apply Split_no_byte.
  - apply Forall_cons in Hall as [Hf Hl].
    change (strings.Join (f :: g :: l) (str1 sep))
      with (f +:+ String sep (strings.Join (g :: l) (str1 sep))).
    rewrite Split_app by done. by rewrite IH.
Qed.

Lemma Cut_no_byte s : no_byte sep s → strings.Cut s sep = None.
Proof.
  induction s as [|c s IH]; [done|].
  intros [Hc Hs]%no_byte_cons. cbn [strings.Cut].
  rewrite bool_decide_eq_false_2 by done. by rewrite IH.
Qed.

Lemma Cut_app s t :
  no_byte sep s → strings.Cut (s +:+ String sep t) sep = Some (s, t).
Proof.
  induction s as [|c s IH]; cbn [String.append strings.Cut].
  - intros _. by rewrite bool_decide_eq_true_2.
  - intros [Hc Hs]%no_byte_cons. rewrite bool_decide_eq_false_2 by done.
    by rewrite IH.
Qed.

Lemma Contains_sep_app s t : strings.Contains (s +:+ String sep t) (str1 sep) = true.
Proof.
  apply Contains_spec. exists s, t. done.
Qed.
End separator.

(** * Whole records and truncated records *)

Section records.
Variable source : Mode.
Implicit Types (st path old new s : string) (fields rest tail : list string) (c : ascii).

Lemma joined_nonempty st path : st +:+ str1 strings.TAB +:+ path ≠ "".
Proof. destruct st; discriminate. Qed.

Lemma str1_app c s : str1 c +:+ s = String c s.
Proof. done. Qed.

Lemma walk_joined st path rest :
  status_field st → ¬ is_rename st →
  walk source ((st +:+ str1 strings.TAB +:+ path) :: rest)
  = Change.mk path "" (statusChar st) source :: walk source rest.
Proof.
  intros [Hne Htab] Hren. cbn [walk].
  rewrite bool_decide_eq_false_2 by apply joined_nonempty.
  rewrite str1_app, Contains_sep_app. cbn [strings.SplitN].
  rewrite (Cut_app strings.TAB st path Htab).
  by apply not_true_is_false in Hren as ->.
Qed.

Lemma walk_joined_rename st old new rest :
  status_field st → is_rename st →
  walk source ((st +:+ str1 strings.TAB +:+ old) :: new :: rest)
  = Change.mk new old (statusChar st) source :: walk source rest.
Proof.
  intros [Hne Htab] Hren. cbn [walk].
  rewrite bool_decide_eq_false_2 by apply joined_nonempty.
  rewrite str1_app, Contains_sep_app. cbn [strings.SplitN].
  rewrite (Cut_app strings.TAB st old Htab). unfold is_rename in Hren.
  by rewrite Hren.
Qed.

Lemma walk_joined_alone st old :
  status_field st → is_rename st →
  walk source [st +:+ str1 strings.TAB +:+ old] = [].
Proof.
  intros [Hne Htab] Hren. cbn [walk].
  rewrite bool_decide_eq_false_2 by apply joined_nonempty.
  rewrite str1_app, Contains_sep_app. cbn [strings.SplitN].
  rewrite (Cut_app strings.TAB st old Htab). unfold is_rename in Hren.
  by rewrite Hren.
Qed.

Lemma walk_split st rest :
  status_field st → ¬ is_rename st →
  walk source (st :: rest)
  = match rest with
    | path :: rest =>
      (if bool_decide (path ≠ "") then [Change.mk path "" (statusChar st) source] else [])
      ++ walk source rest
    | [] => []
    end.
Proof.
  intros [Hne Htab] Hren. cbn [walk].
  rewrite bool_decide_eq_false_2 by done. unfold no_byte in Htab. rewrite Htab.
  by apply not_true_is_false in Hren as ->.
Qed.

Lemma walk_split_rename st rest :
  status_field st → is_rename st →
  walk source (st :: rest)
  = match rest with
    | old :: new :: rest =>
      (if bool_decide (old ≠ "") && bool_decide (new ≠ "")
       then [Change.mk new old (statusChar st) source] else [])
      ++ walk source rest
    | _ => []
    end.
Proof.
  intros [Hne Htab] Hren. cbn [walk].
  rewrite bool_decide_eq_false_2 by done. unfold no_byte in Htab. rewrite Htab.
  unfold is_rename in Hren. by rewrite Hren.
Qed.

(** Whole records are read without looking at what follows them. *)
Lemma walk_complete_app fields tail :
  complete fields → walk source (fields ++ tail) = walk source fields ++ walk source tail.
Proof.
  induction 1 as [|fields _ IH|st path fields Hst Hren _ IH|st old new fields Hst Hren _ IH
                  |st path fields Hst Hren _ IH|st old new fields Hst Hren _ IH];
    cbn [app].
  - done.
  - cbn [walk]. by rewrite !bool_decide_eq_true_2.
  - by rewrite !walk_joined, IH.
  - by rewrite !walk_joined_rename, IH.
  - rewrite !walk_split by done. by rewrite IH, app_assoc.
  - rewrite !walk_split_rename by done. by rewrite IH, app_assoc.
Qed.

Lemma walk_truncated tail : truncated tail → walk source tail = [].
Proof.
  intros [st Hst|st old Hst Hren|st old Hst Hren].
  - destruct Hst as [Hne Htab]. cbn [walk].
    rewrite bool_decide_eq_false_2 by done. unfold no_byte in Htab. rewrite Htab.
    by destruct (renameOrCopy _).
  - by rewrite walk_split_rename.
  - by apply walk_joined_alone.
Qed.

Lemma walk_Split_Join fields :
  Forall (no_byte strings.NUL) fields →
  walk source (strings.Split (strings.Join fields (str1 strings.NUL)) strings.NUL)
  = walk source fields.
Proof.
  destruct fields as [|f fields]; [done|].
  intros Hall. by rewrite Split_Join.
Qed.
End records.

(** C8.  [parseNameStatus] returns for every input: no index is out of
    range and the cursor loop ends within its step budget.  When the
    fields run out in the middle of a record, the records of the whole
    fields before it are the result, the same as for the input without the
    truncated record. *)
Theorem parseNameStatus_partial (data : string) (fields tail : list string) (source : Mode) :
  (∃ out, parseNameStatus data source = Done out)
  ∧ (complete fields → truncated tail →
     Forall (no_byte strings.NUL) (fields ++ tail) →
     parseNameStatus (strings.Join (fields ++ tail) (str1 strings.NUL)) source
     = Done (walk source fields)
     ∧ parseNameStatus (strings.Join fields (str1 strings.NUL)) source
       = Done (walk source fields)).
Proof.
  split.
  - eexists. apply parseNameStatus_walk.
  - intros Hfields Htail Hnul. rewrite !parseNameStatus_walk.
    rewrite !walk_Split_Join; [|by apply Forall_app in Hnul as [? _] | done].
    rewrite walk_complete_app by done.
    by rewrite (walk_truncated _ _ Htail), app_nil_r.
Qed.

Lemma parseNameStatus_partial_witness :
  complete ["M"; "git.go"] ∧ truncated ["R100"; "old.go"]
  ∧ Forall (no_byte strings.NUL) (["M"; "git.go"] ++ ["R100"; "old.go"])
  ∧ parseNameStatus (strings.Join (["M"; "git.go"] ++ ["R100"; "old.go"]) (str1 strings.NUL))
      ModeStaged
    = Done [Change.mk "git.go" "" "M" ModeStaged].
Proof.
  assert (Hc : complete ["M"; "git.go"]).
  { apply complete_split; [by split | by intros ? | apply complete_nil]. }
  assert (Ht : truncated ["R100"; "old.go"]).
  { apply truncated_old; [by split | reflexivity]. }
  assert (Hn : Forall (no_byte strings.NUL) (["M"; "git.go"] ++ ["R100"; "old.go"])).
  { repeat (apply Forall_cons; split; [reflexivity|]). apply Forall_nil_2. }
  split; [exact Hc|]. split; [exact Ht|]. split; [exact Hn|].
  destruct (parseNameStatus_partial "" ["M"; "git.go"] ["R100"; "old.go"] ModeStaged)
    as [_ Hpartial].
  destruct (Hpartial Hc Ht Hn) as [-> _]. reflexivity.
Defined.

(** * The two shapes of a rename record *)

(** C5.  A rename or copy record with paths [old] and [new] is read the
    same way from the joined shape (status TAB old, then new) and from the
    split shape (status, old, new), wherever it stands among whole
    records: in both cases the result holds, at the same place, one record
    with path [new], old path [old] and the status letter alone as status,
    the rest of the status field (the similarity percentage) being
    dropped. *)
Theorem parseNameStatus_shape_invariant (pre rest : list string) (st old new : string)
    (source : Mode) :
  complete pre → status_field st → is_rename st → old ≠ "" → new ≠ "" →
  Forall (no_byte strings.NUL) (pre ++ st :: old :: new :: rest) →
  parseNameStatus
    (strings.Join (pre ++ (st +:+ str1 strings.TAB +:+ old) :: new :: rest) (str1 strings.NUL))
    source
  = Done (walk source pre ++ Change.mk new old (statusChar st) source :: walk source rest)
  ∧ parseNameStatus (strings.Join (pre ++ st :: old :: new :: rest) (str1 strings.NUL)) source
    = Done (walk source pre ++ Change.mk new old (statusChar st) source :: walk source rest)
  ∧ (statusChar st = "R" ∨ statusChar st = "C").
Proof.
  intros Hpre Hst Hren Hold Hnew Hnul. split; [|split].
  - rewrite parseNameStatus_walk, walk_Split_Join.
    + rewrite walk_complete_app by done. by rewrite walk_joined_rename.
    + apply Forall_app in Hnul as [Hp Hr]. apply Forall_app. split; [done|].
      apply Forall_cons in Hr as [Hs Hr]. apply Forall_cons in Hr as [Ho Hr].
      apply Forall_cons. split; [|done].
      apply no_byte_app. split; [done|]. apply no_byte_app. by split.
  - rewrite parseNameStatus_walk, walk_Split_Join by done.
    rewrite walk_complete_app by done. rewrite walk_split_rename by done.
    by rewrite !bool_decide_eq_true_2.
  - unfold is_rename, renameOrCopy in Hren.
    apply orb_true_iff in Hren as [H%bool_decide_eq_true | H%bool_decide_eq_true]; auto.
Qed.

Lemma parseNameStatus_shape_invariant_witness :
  complete ["M"; "git.go"] ∧ status_field "R087" ∧ is_rename "R087"
  ∧ "old.go" ≠ "" ∧ "new.go" ≠ ""
  ∧ Forall (no_byte strings.NUL) (["M"; "git.go"] ++ ["R087"; "old.go"; "new.go"; ""])
  ∧ parseNameStatus
      (strings.Join (["M"; "git.go"] ++ ["R087" +:+ str1 strings.TAB +:+ "old.go"; "new.go"; ""])
         (str1 strings.NUL)) ModeStaged
    = Done [Change.mk "git.go" "" "M" ModeStaged; Change.mk "new.go" "old.go" "R" ModeStaged]
  ∧ parseNameStatus
      (strings.Join (["M"; "git.go"] ++ ["R087"; "old.go"; "new.go"; ""]) (str1 strings.NUL))
      ModeStaged
    = Done [Change.mk "git.go" "" "M" ModeStaged; Change.mk "new.go" "old.go" "R" ModeStaged].
Proof.
  assert (Hc : complete ["M"; "git.go"]).
  { apply complete_split; [by split | by intros ? | apply complete_nil]. }
  assert (Hs : status_field "R087") by (by split).
  assert (Hr : is_rename "R087") by reflexivity.
  assert (Ho : "old.go" ≠ "") by discriminate.
  assert (Hw : "new.go" ≠ "") by discriminate.
  assert (Hn : Forall (no_byte strings.NUL)
                 (["M"; "git.go"] ++ ["R087"; "old.go"; "new.go"; ""])).
  { repeat (apply Forall_cons; split; [reflexivity|]). apply Forall_nil_2. }
  repeat (split; [assumption|]).
  destruct (parseNameStatus_shape_invariant ["M"; "git.go"] [""] "R087" "old.go" "new.go"
              ModeStaged Hc Hs Hr Ho Hw Hn) as (-> & -> & _).
  split; reflexivity.
Defined.

(** * Subject truncation *)

Lemma last_space_spec (runes : list Z) (i cut : nat) :
  (last_space runes i cut = cut ∧ ∀ j, j < i → runes !! j ≠ Some 0x20%Z)
  ∨ (last_space runes i cut < i
     ∧ runes !! last_space runes i cut = Some 0x20%Z
     ∧ ∀ j, last_space runes i cut < j < i → runes !! j ≠ Some 0x20%Z).
Proof.
  induction i as [|i IH]; cbn [last_space].
  - left. split; [done|]. intros j Hj. lia.
  - case_bool_decide as Hsp.
    + right. split; [lia|]. split; [done|]. intros j Hj. lia.
    + destruct IH as [[Heq Hno] | (Hlt & Hat & Hno)].
      * left. split; [done|]. intros j Hj.
        destruct (decide (j = i)) as [-> | Hne]; [done|]. apply Hno. lia.
      * right. split; [lia|]. split; [done|]. intros j Hj.
        destruct (decide (j = i)) as [-> | Hne]; [done|]. apply Hno. lia.
Qed.

(** ** The bytes of an encoded rune *)

Lemma forall_range (P : Z → bool) (lo n : Z) :
  forallb P (seqZ lo n) = true → ∀ q, (lo ≤ q < lo + n)%Z → P q = true.
Proof.
  intros Hall q Hq. rewrite forallb_forall in Hall. apply Hall.
  apply list_elem_of_In, elem_of_seqZ. lia.
Qed.

Lemma lor_80 (q : Z) : (0 ≤ q < 64)%Z → Z.lor 0x80 q = (0x80 + q)%Z.
Proof.
  intros Hq.
  assert (Hall : forallb (λ q, bool_decide (Z.lor 0x80 q = (0x80 + q)%Z)) (seqZ 0 64) = true)
    by (vm_compute; reflexivity).
  apply (bool_decide_eq_true_1 _ (forall_range _ _ _ Hall q Hq)).
Qed.

Lemma lor_C0 (q : Z) : (0 ≤ q < 32)%Z → Z.lor 0xC0 q = (0xC0 + q)%Z.
Proof.
  intros Hq.
  assert (Hall : forallb (λ q, bool_decide (Z.lor 0xC0 q = (0xC0 + q)%Z)) (seqZ 0 32) = true)
    by (vm_compute; reflexivity).
  apply (bool_decide_eq_true_1 _ (forall_range _ _ _ Hall q Hq)).
Qed.

Lemma lor_E0 (q : Z) : (0 ≤ q < 16)%Z → Z.lor 0xE0 q = (0xE0 + q)%Z.
Proof.
  intros Hq.
  assert (Hall : forallb (λ q, bool_decide (Z.lor 0xE0 q = (0xE0 + q)%Z)) (seqZ 0 16) = true)
    by (vm_compute; reflexivity).
  apply (bool_decide_eq_true_1 _ (forall_range _ _ _ Hall q Hq)).
Qed.

Lemma lor_F0 (q : Z) : (0 ≤ q < 8)%Z → Z.lor 0xF0 q = (0xF0 + q)%Z.
Proof.
  intros Hq.
  assert (Hall : forallb (λ q, bool_decide (Z.lor 0xF0 q = (0xF0 + q)%Z)) (seqZ 0 8) = true)
    by (vm_compute; reflexivity).
  apply (bool_decide_eq_true_1 _ (forall_range _ _ _ Hall q Hq)).
Qed.

Lemma byte_tail6 (r shift : Z) :
  (0 ≤ shift)%Z → byte (utf8.tail6 r shift) = (0x80 + (r / 2 ^ shift) mod 64)%Z.
Proof.
  intros Hs. unfold utf8.tail6. rewrite Z.shiftr_div_pow2 by done.
  change 0x3F%Z with (Z.ones 6). rewrite Z.land_ones by done.
  change (2 ^ 6)%Z with 64%Z.
  assert (0 ≤ (r / 2 ^ shift) mod 64 < 64)%Z by (apply Z.mod_pos_bound; lia).
  rewrite lor_80 by done. apply byte_chr. lia.
Qed.

Ltac no_space :=
  unfold strings.space1, strings.space2, strings.space3;
  repeat (rewrite bool_decide_eq_false_2 by (Z.div_mod_to_equations; lia));
  try reflexivity.

(** The encoding of a rune that is no white space is no white space for
    [strings.TrimSpace] either, whatever follows it. *)
Lemma TrimLeftSpace_EncodeRune (r : Z) (y : string) :
  unicode.IsSpace r = false →
  strings.TrimLeftSpace (utf8.EncodeRune r +:+ y) = utf8.EncodeRune r +:+ y.
Proof.
  intros Hsp%bool_decide_eq_false. unfold utf8.EncodeRune.
  case_bool_decide as H1.
  { unfold str1; cbn [String.append strings.TrimLeftSpace]. rewrite (byte_chr r) by lia.
    destruct y as [|c1 [|c2 y]]; no_space. }
  case_bool_decide as H2.
  { unfold str1; cbn [String.append strings.TrimLeftSpace].
    rewrite byte_tail6 by done. rewrite Z.shiftr_div_pow2 by done.
    change (2 ^ 6)%Z with 64%Z. change (2 ^ 0)%Z with 1%Z. rewrite Z.div_1_r.
    rewrite lor_C0 by (Z.div_mod_to_equations; lia).
    rewrite byte_chr by (Z.div_mod_to_equations; lia).
    destruct y as [|c2 y]; no_space. }
  destruct (bool_decide (r < 0 ∨ utf8.MaxRune < r)%Z || utf8.surrogate r) eqn:H3.
  { unfold str1; cbn [String.append strings.TrimLeftSpace].
    change (byte (chr 0xEF)) with 0xEF%Z. change (byte (chr 0xBF)) with 0xBF%Z.
    change (byte (chr 0xBD)) with 0xBD%Z. no_space. }
  apply orb_false_iff in H3 as [H3%bool_decide_eq_false H4%bool_decide_eq_false].
  unfold utf8.MaxRune in H3.
  case_bool_decide as H5.
  { unfold str1; cbn [String.append strings.TrimLeftSpace].
    rewrite !byte_tail6 by done. rewrite Z.shiftr_div_pow2 by done.
    change (2 ^ 12)%Z with 4096%Z. change (2 ^ 6)%Z with 64%Z. change (2 ^ 0)%Z with 1%Z.
    rewrite Z.div_1_r.
    rewrite lor_E0 by (Z.div_mod_to_equations; lia).
    rewrite byte_chr by (Z.div_mod_to_equations; lia).
    no_space. }
  unfold str1; cbn [String.append strings.TrimLeftSpace].
  rewrite !byte_tail6 by done. rewrite Z.shiftr_div_pow2 by done.
  change (2 ^ 18)%Z with 262144%Z.
  rewrite lor_F0 by (Z.div_mod_to_equations; lia).
  rewrite byte_chr by (Z.div_mod_to_equations; lia).
  no_space.
Qed.

(** With a positive maximum, a subject of at most [max] runes is returned
    unchanged.  A longer one is cut at the nearest space before rune
    [max] when that space lies at least three runes in, and at rune [max]
    otherwise; the cut text then goes through [strings.TrimSpace]. *)
Lemma trimSubject_cut_point (s : string) (max : Z) :
  (0 < max)%Z →
  ((Z.of_nat (length (utf8.runes s)) ≤ max)%Z → trimSubject s max = s)
  ∧ ((max < Z.of_nat (length (utf8.runes s)))%Z →
     ∃ cut, cut_point (utf8.runes s) (Z.to_nat max) cut
            ∧ trimSubject s max
              = strings.TrimSpace (utf8.of_runes (take cut (utf8.runes s)))).
Proof.
  intros Hmax. unfold trimSubject. rewrite bool_decide_eq_false_2 by lia. split.
  - intros Hshort. by rewrite bool_decide_eq_true_2.
  - intros Hlong. rewrite bool_decide_eq_false_2 by lia.
    set (rs := utf8.runes s) in *. set (m := Z.to_nat max).
    assert (Hm : m < length rs) by lia.
    assert (Hlen : length (take m rs) = m) by (rewrite length_take; lia).
    rewrite Hlen.
    assert (Hlook : ∀ j, j < m → take m rs !! j = rs !! j)
      by (intros j Hj; by apply lookup_take_lt).
    destruct (last_space_spec (take m rs) m m) as [[Heq Hno] | (Hlt & Hat & Hno)].
    + exists m. split.
      * right. split; [done|]. intros j Hj. rewrite <- Hlook by lia. apply Hno. lia.
      * rewrite Heq. replace (if bool_decide (m < 3) then m else m) with m
          by (by case_bool_decide).
        by rewrite take_take, Nat.min_id.
    + set (c := last_space (take m rs) m m) in *. case_bool_decide as Hc.
      * exists m. split.
        -- right. split; [done|]. intros j Hj. rewrite <- Hlook by lia. apply Hno. lia.
        -- by rewrite take_take, Nat.min_id.
      * exists c. split.
        -- left. split; [lia|]. split; [by rewrite <- Hlook by lia|].
           intros j Hj. rewrite <- Hlook by lia. apply Hno. lia.
        -- rewrite take_take. by rewrite Nat.min_l by lia.
Qed.

(** C7.  With a positive maximum, a subject of at most [max] runes is
    returned unchanged.  A longer one is cut at the nearest space before
    rune [max] when that space lies at least three runes in, and at rune
    [max] otherwise, and white space is trimmed from the end of the cut
    text.  The subject is one that does not begin with white space, as
    every subject of [buildSubject] is: [strings.TrimSpace] then has
    nothing to trim at the front. *)
Theorem trimSubject_cut (s : string) (max : Z) :
  (0 < max)%Z →
  leading_space s = false →
  ((Z.of_nat (length (utf8.runes s)) ≤ max)%Z → trimSubject s max = s)
  ∧ ((max < Z.of_nat (length (utf8.runes s)))%Z →
     ∃ cut, cut_point (utf8.runes s) (Z.to_nat max) cut
            ∧ trimSubject s max
              = strings.TrimRightSpace (utf8.of_runes (take cut (utf8.runes s)))).
Proof.
  intros Hmax Hlead. destruct (trimSubject_cut_point s max Hmax) as [Hshort Hlong].
  split; [done|]. intros Hlen. destruct (Hlong Hlen) as (cut & Hcut & ->).
  exists cut. split; [done|]. unfold strings.TrimSpace. f_equal.
  unfold leading_space in Hlead.
  destruct (utf8.runes s) as [|r rs] eqn:Hrs; [cbn in Hlen; lia|].
  assert (0 < cut) by (destruct Hcut as [? | [-> _]]; lia).
  destruct cut as [|cut]; [lia|]. cbn [take].
  change (utf8.of_runes (r :: take cut rs))
    with (utf8.EncodeRune r +:+ utf8.of_runes (take cut rs)).
  by apply TrimLeftSpace_EncodeRune.
Qed.

Lemma trimSubject_cut_witness :
  (0 < 10)%Z
  ∧ leading_space "Add feature across modules" = false
  ∧ ∃ cut, cut_point (utf8.runes "Add feature across modules") (Z.to_nat 10) cut
           ∧ trimSubject "Add feature across modules" 10
             = strings.TrimRightSpace
                 (utf8.of_runes (take cut (utf8.runes "Add feature across modules"))).
Proof.
  split; [reflexivity|]. split; [reflexivity|].
  apply (trimSubject_cut "Add feature across modules" 10); reflexivity.
Defined.

(** * Lower-casing ASCII text *)

Lemma runes_cons_ascii (c : ascii) (t : string) :
  (byte c < 0x80)%Z → utf8.runes (String c t) = byte c :: utf8.runes t.
Proof.
  intros Hc. unfold utf8.runes. cbn [String.length utf8.runes_from].
  unfold utf8.DecodeRuneInString. unfold utf8.RuneSelf.
  rewrite bool_decide_eq_true_2 by done. done.
Qed.

Lemma ToLower_rune_ascii (b : Z) :
  (0 ≤ b < 0x80)%Z → (0 ≤ unicode.ToLower b < 0x80)%Z.
Proof. intros Hb. unfold unicode.ToLower. repeat case_bool_decide; lia. Qed.

Lemma EncodeRune_ascii (r : Z) : (0 ≤ r < 0x80)%Z → utf8.EncodeRune r = str1 (chr r).
Proof. intros Hr. unfold utf8.EncodeRune. by rewrite bool_decide_eq_true_2 by lia. Qed.

Lemma ToLower_cons_ascii (c : ascii) (t : string) :
  (byte c < 0x80)%Z →
  strings.ToLower (String c t) = String (lower_byte c) (strings.ToLower t).
Proof.
  intros Hc. unfold strings.ToLower. rewrite runes_cons_ascii by done.
  cbn [fmap list_fmap]. unfold utf8.of_runes. cbn [fmap list_fmap concat].
  pose proof (byte_range c).
  rewrite EncodeRune_ascii by (apply ToLower_rune_ascii; lia). done.
Qed.

(** On ASCII text [strings.ToLower] works byte by byte. *)
Lemma ToLower_ascii (s : string) :
  all_bytes is_ascii s = true → strings.ToLower s = map_bytes lower_byte s.
Proof.
  induction s as [|c s IH]; [done|]. cbn [all_bytes map_bytes].
  intros [Hc Hs]%andb_true_iff. apply bool_decide_eq_true in Hc.
  by rewrite ToLower_cons_ascii, IH.
Qed.

Lemma lower_byte_lower_letter (c : ascii) : lower_letter c = true → lower_byte c = c.
Proof.
  intros Hc%bool_decide_eq_true. unfold lower_byte, unicode.ToLower.
  repeat case_bool_decide; try lia. apply chr_byte.
Qed.

Lemma ToLower_lower_letters (s : string) :
  all_bytes lower_letter s = true → strings.ToLower s = s.
Proof.
  intros Hs. rewrite ToLower_ascii.
  - induction s as [|c s IH]; [done|]. cbn [all_bytes map_bytes] in *.
    apply andb_true_iff in Hs as [Hc Hs]. by rewrite lower_byte_lower_letter, IH.
  - induction s as [|c s IH]; [done|]. cbn [all_bytes] in *.
    apply andb_true_iff in Hs as [Hc%bool_decide_eq_true Hs].
    apply andb_true_iff. split; [|by apply IH]. apply bool_decide_eq_true. lia.
Qed.

(** * Reading the prefix back *)

Lemma all_bytes_no_byte (P : ascii → bool) (sep : ascii) (s : string) :
  P sep = false → all_bytes P s = true → no_byte sep s.
Proof.
  intros Hsep. induction s as [|c s IH]; [done|]. cbn [all_bytes].
  intros [Hc Hs]%andb_true_iff. apply no_byte_cons. split; [|by apply IH].
  intros ->. congruence.
Qed.

Lemma span_lower_app (ty : string) (c : ascii) (rest : string) :
  all_bytes lower_letter ty = true → lower_letter c = false →
  span_lower (ty +:+ String c rest) = (ty, String c rest).
Proof.
  intros Hty Hc. induction ty as [|a ty IH]; cbn [String.append span_lower].
  - by rewrite Hc.
  - cbn [all_bytes] in Hty. apply andb_true_iff in Hty as [Ha Hty].
    by rewrite Ha, IH.
Qed.

Lemma skip_emoji_none (c : ascii) (s : string) :
  lower_letter c = true → skip_emoji (String c s) = Some (String c s).
Proof.
  intros Hc. cbn [skip_emoji]. rewrite bool_decide_eq_false_2; [done|].
  intros ->. done.
Qed.

Lemma skip_emoji_code (ty s : string) :
  emojiCode ty ≠ "" → skip_emoji (emojiCode ty +:+ " " +:+ s) = Some s.
Proof.
  unfold emojiCode.
  repeat (destruct (eqs (strings.ToLower ty) _); [intros _; vm_compute; reflexivity|]).
  done.
Qed.

Lemma formatMessage_prefix (ty sc subject body : string) (opts : Options) (breaking : bool) :
  prefixed (OFormat opts) →
  ∃ tail,
    formatMessage ty sc subject body opts breaking
    = (if Emoji opts || eqs (OFormat opts) FormatGitmoji
       then if bool_decide (emojiCode ty ≠ "") then emojiCode ty +:+ " " else ""
       else "")
      +:+ strings.ToLower ty
      +:+ (if bool_decide (sc ≠ "") then "(" +:+ sc +:+ ")" else "")
      +:+ (if breaking then "!" else "") +:+ ": " +:+ tail.
Proof.
  intros Hfmt. unfold formatMessage.
  assert (Hp : eqs (OFormat opts) FormatConventional || eqs (OFormat opts) FormatGitmoji = true).
  { apply orb_true_iff. unfold eqs. rewrite !bool_decide_eq_true. exact Hfmt. }
  rewrite Hp. clear Hp Hfmt.
  set (subj := trimSubject (lowerFirst subject) (MaxSubject opts)).
  set (S := if bool_decide (sc ≠ "") then "(" +:+ sc +:+ ")" else "").
  set (B := if breaking then "!" else "").
  set (T := strings.ToLower ty).
  exists (if bool_decide (body ≠ "")
          then subj +:+ str1 strings.LF +:+ str1 strings.LF +:+ body else subj).
  destruct (Emoji opts || eqs (OFormat opts) FormatGitmoji);
    repeat case_bool_decide; rewrite ?append_assoc; reflexivity.
Qed.

(** C4 (as amended).  For the conventional and the gitmoji format, for
    every commit type (lower-case letters), every sanitized scope and
    every breaking flag, reading the prefix of the formatted message
    gives back the type, the scope and the flag, whatever the subject, the
    body and the other options are. *)
Theorem parsePrefix_formatMessage (ty sc subject body : string) (opts : Options)
    (breaking : bool) :
  type_token ty → scope_token sc → prefixed (OFormat opts) →
  parsePrefix (formatMessage ty sc subject body opts breaking) = Some (ty, sc, breaking).
Proof.
  intros [Hne Hty] Hsc Hfmt.
  destruct (formatMessage_prefix ty sc subject body opts breaking Hfmt) as [tail ->].
  rewrite (ToLower_lower_letters ty Hty).
  assert (Hparen : no_byte ")"%char sc).
  { revert Hsc. by apply all_bytes_no_byte. }
  set (S := if bool_decide (sc ≠ "") then "(" +:+ sc +:+ ")" else "").
  set (B := if breaking then "!" else "").
  assert (Hafter : ∃ c r, S +:+ B +:+ ": " +:+ tail = String c r ∧ lower_letter c = false
            ∧ read_scope (String c r) = Some (sc, B +:+ ": " +:+ tail)).
  { unfold S. case_bool_decide as Hsc0.
    - exists "("%char, (sc +:+ String ")"%char (B +:+ ": " +:+ tail)).
      split; [by rewrite !append_assoc|]. split; [done|].
      cbn [read_scope]. rewrite bool_decide_eq_true_2 by done. by apply Cut_app.
    - assert (sc = "") as -> by (by destruct (decide (sc = ""))).
      unfold B. destruct breaking.
      + exists "!"%char, (": " +:+ tail). done.
      + exists ":"%char, (String " "%char tail). done. }
  destruct Hafter as (c & r & Heq & Hc & Hscope).
  assert (Hskip : skip_emoji
            ((if Emoji opts || eqs (OFormat opts) FormatGitmoji
              then if bool_decide (emojiCode ty ≠ "") then emojiCode ty +:+ " " else ""
              else "") +:+ ty +:+ S +:+ B +:+ ": " +:+ tail)
          = Some (ty +:+ S +:+ B +:+ ": " +:+ tail)).
  { destruct ty as [|a ty']; [done|]. cbn [all_bytes] in Hty.
    apply andb_true_iff in Hty as [Ha _].
    destruct (Emoji opts || eqs (OFormat opts) FormatGitmoji); [case_bool_decide|].
    - rewrite append_assoc. by apply skip_emoji_code.
    - by apply skip_emoji_none.
    - by apply skip_emoji_none. }
  unfold parsePrefix. rewrite Hskip, Heq, span_lower_app by done.
  rewrite Hscope. unfold B. destruct breaking; done.
Qed.

Lemma parsePrefix_formatMessage_witness :
  type_token "feat" ∧ scope_token "api/v2" ∧ prefixed FormatConventional
  ∧ parsePrefix (formatMessage "feat" "api/v2" "Add endpoint" "" default_options true)
    = Some ("feat", "api/v2", true).
Proof.
  assert (Ht : type_token "feat") by (by split).
  assert (Hs : scope_token "api/v2") by reflexivity.
  assert (Hf : prefixed (OFormat default_options)) by (by left).
  split; [exact Ht|]. split; [exact Hs|]. split; [by left|].
  exact (parsePrefix_formatMessage "feat" "api/v2" "Add endpoint" "" default_options true
           Ht Hs Hf).
Defined.

(** C4 (as stated) fails for the plain format: the message carries no
    prefix, two classification results give the same message, and no
    reader can tell them apart. *)
Lemma formatMessage_plain_no_reader :
  ¬ ∃ parse : string → option (string * string * bool),
      ∀ ty sc breaking, type_token ty → scope_token sc →
        parse (formatMessage ty sc "Add endpoint" "" plain_options breaking)
        = Some (ty, sc, breaking).
Proof.
  intros [parse Hparse].
  assert (Hfeat : formatMessage "feat" "api" "Add endpoint" "" plain_options true
                  = "Add endpoint") by (vm_compute; reflexivity).
  assert (Hfix : formatMessage "fix" "" "Add endpoint" "" plain_options false
                 = "Add endpoint") by (vm_compute; reflexivity).
  pose proof (Hparse "feat" "api" true ltac:(by split) ltac:(reflexivity)) as H1.
  pose proof (Hparse "fix" "" false ltac:(by split) ltac:(reflexivity)) as H2.
  rewrite Hfeat in H1. rewrite Hfix in H2. clear Hfeat Hfix Hparse.
  rewrite H1 in H2. discriminate H2.
Qed.

(** * Decoding around ASCII bytes *)

Lemma skip_length (w : nat) (s : string) :
  String.length (skip w s) = String.length s - w.
Proof.
  revert s. induction w as [|w IH]; intros [|c s]; cbn [skip String.length]; try lia.
  rewrite IH. lia.
Qed.


(** The width of a decoded rune: at least one byte, and every byte after
    the first of a wider rune is a non-ASCII byte of the string. *)
Lemma decode_width (s : string) (r : Z) (w : nat) :
  s ≠ "" → utf8.DecodeRuneInString s = (r, w) →
  1 ≤ w ∧ ∀ i, 1 ≤ i < w → ∃ c, String.get i s = Some c ∧ (0x80 ≤ byte c)%Z.
Proof.
  intros Hne. destruct s as [|c0 t]; [done|]. clear Hne.
  unfold utf8.DecodeRuneInString, utf8.RuneSelf, utf8.second, utf8.cont,
    utf8.accept_lo, utf8.accept_hi.
  destruct t as [|c1 [|c2 [|c3 t]]];
    repeat (case_bool_decide; cbn [andb]);
    intros [= <- <-]; (split; [lia|]); intros i Hi; try (exfalso; lia);
    (assert (i = 1 ∨ i = 2 ∨ i = 3) as [-> | [-> | ->]] by lia);
    try (exfalso; lia); (eexists; split; [reflexivity | lia]).
Qed.

Lemma runes_from_enough (n : nat) (s : string) :
  String.length s ≤ n → utf8.runes_from n s = utf8.runes s.
Proof.
  revert s. induction n as [n IH] using lt_wf_ind. intros s Hlen. unfold utf8.runes.
  destruct s as [|c t]; [by destruct n|].
  destruct n as [|n]; [cbn in Hlen; lia|]. cbn [String.length utf8.runes_from].
  destruct (utf8.DecodeRuneInString (String c t)) as [r w] eqn:Hdec.
  destruct (decode_width (String c t) r w ltac:(done) Hdec) as [Hw _].
  assert (Hskip : String.length (skip w (String c t)) ≤ String.length t).
  { rewrite skip_length. cbn [String.length]. lia. }
  cbn [String.length] in Hlen.
  rewrite (IH n) by lia. rewrite (IH (String.length t)) by lia. done.
Qed.

Lemma runes_unfold (c : ascii) (t : string) :
  utf8.runes (String c t)
  = (utf8.DecodeRuneInString (String c t)).1
    :: utf8.runes (skip (utf8.DecodeRuneInString (String c t)).2 (String c t)).
Proof.
  unfold utf8.runes at 1. cbn [String.length utf8.runes_from].
  destruct (utf8.DecodeRuneInString (String c t)) as [r w] eqn:Hdec. cbn [fst snd].
  destruct (decode_width (String c t) r w ltac:(done) Hdec) as [Hw _].
  rewrite runes_from_enough; [done|]. rewrite skip_length. cbn [String.length]. lia.
Qed.







(** * Trimming around a keyword *)





(** * The refactor signal *)







(** * Further properties of the name-status parser *)

Lemma statusChar_length (st : string) : String.length (statusChar st) ≤ 1.
Proof.
  unfold statusChar. case_bool_decide as Hlen.
  - destruct st as [|c st]; cbn in *; lia.
  - destruct st; cbn in *; lia.
Qed.

Lemma renameOrCopy_cases (sc : string) : renameOrCopy sc = true → sc = "R" ∨ sc = "C".
Proof.
  unfold renameOrCopy.
  intros [H%bool_decide_eq_true | H%bool_decide_eq_true]%orb_true_iff; auto.
Qed.

Lemma walk_parsed (source : Mode) (fields : list string) :
  Forall (parsed_record source) (walk source fields).
Proof.
  remember (length fields) as n eqn:Hn. revert fields Hn.
  induction n as [n IH] using lt_wf_ind. intros fields Hn.
  assert (Hrest : ∀ rest, length rest < n → Forall (parsed_record source) (walk source rest)).
  { intros rest Hlt. by apply (IH (length rest)). }
  assert (Hren : ∀ new old st, renameOrCopy (statusChar st) = true →
            parsed_record source (Change.mk new old (statusChar st) source)).
  { intros new old st Hst. split; [done|]. split; [apply statusChar_length|].
    intros _. by apply renameOrCopy_cases. }
  assert (Hplain : ∀ path st, parsed_record source (Change.mk path "" (statusChar st) source)).
  { intros path st. split; [done|]. split; [apply statusChar_length|]. done. }
  destruct fields as [|entry rest]; [apply Forall_nil_2|]. cbn [length] in Hn. cbn [walk].
  case_bool_decide; [apply Hrest; lia|].
  destruct (strings.Contains entry (str1 strings.TAB)).
  - destruct (strings.SplitN entry strings.TAB 2) as [|status [|p parts]];
      [apply Hrest; lia ..|].
    destruct (renameOrCopy (statusChar status)) eqn:Hsc.
    + destruct rest as [|newPath rest]; [apply Forall_nil_2|].
      apply Forall_cons. split; [by apply Hren|]. apply Hrest. cbn in Hn. lia.
    + apply Forall_cons. split; [apply Hplain|]. apply Hrest. lia.
  - destruct (renameOrCopy (statusChar entry)) eqn:Hsc.
    + destruct rest as [|oldPath [|newPath rest]]; [apply Forall_nil_2 ..|].
      apply Forall_app. split; [|apply Hrest; cbn in Hn; lia].
      destruct (_ && _); [|apply Forall_nil_2]. apply Forall_singleton. by apply Hren.
    + destruct rest as [|path rest]; [apply Forall_nil_2|].
      apply Forall_app. split; [|apply Hrest; cbn in Hn; lia].
      destruct (bool_decide _); [|apply Forall_nil_2]. apply Forall_singleton, Hplain.
Qed.

(** X1.  Whatever the input, every record [parseNameStatus] returns
    carries the source it was called with and a status of at most one
    byte, and has an old path only when its status is R or C. *)
Theorem parseNameStatus_records (data : string) (source : Mode) :
  ∃ out, parseNameStatus data source = Done out ∧ Forall (parsed_record source) out.
Proof.
  eexists. split; [apply parseNameStatus_walk | apply walk_parsed].
Qed.

Lemma statusChar_str1 (c : ascii) : statusChar (str1 c) = str1 c.
Proof. done. Qed.

Lemma reported_complete (source : Mode) (recs : list Change.t) :
  Forall (reported source) recs →
  complete (mjoin (fields_of <$> recs))
  ∧ walk source (mjoin (fields_of <$> recs)) = recs.
Proof.
  induction 1 as [|ch recs Hch _ [IHc IHw]]; [split; [apply complete_nil | done]|].
  destruct Hch as (Hsrc & (c & Hst & Htab) & Hpath & Hold & _).
  assert (Hfield : status_field (Change.Status ch)).
  { rewrite Hst. split; [done|]. apply no_byte_cons. split; [done|]. apply no_byte_nil. }
  cbn [fmap list_fmap mjoin list_join]. unfold fields_of at 1 3.
  destruct ch as [path old status src]. cbn [Change.Path Change.OldPath Change.Status
    Change.Source] in *. subst src.
  assert (Hsc : statusChar status = status) by (by rewrite Hst).
  destruct (renameOrCopy status) eqn:Hren; cbn [app].
  - assert (Hyes : is_rename status) by (unfold is_rename; by rewrite Hsc).
    split; [by apply complete_split_rename|].
    rewrite walk_split_rename by done.
    rewrite !bool_decide_eq_true_2 by done. cbn [andb app].
    rewrite Hsc. f_equal. exact IHw.
  - assert (Hnot : ¬ is_rename status) by (unfold is_rename; by rewrite Hsc, Hren).
    split; [by apply complete_split|].
    rewrite walk_split by done. rewrite bool_decide_eq_true_2 by done. cbn [app].
    rewrite Hsc, Hold. f_equal. exact IHw.
Qed.

(** X2.  Round trip: the NUL-terminated stream of the fields of reported
    records (status, old path for a rename or copy, path) is parsed back
    into exactly these records. *)
Theorem parseNameStatus_fields_of (recs : list Change.t) (source : Mode) :
  Forall (reported source) recs →
  parseNameStatus (terminated (mjoin (fields_of <$> recs))) source = Done recs.
Proof.
  intros Hrecs. destruct (reported_complete source recs Hrecs) as [Hc Hw].
  rewrite parseNameStatus_walk. unfold terminated. rewrite walk_Split_Join.
  - rewrite walk_complete_app by done. by rewrite Hw, app_nil_r.
  - apply Forall_app. split; [|by apply Forall_singleton].
    clear Hc Hw. induction Hrecs as [|ch recs Hch _ IH]; [apply Forall_nil_2|].
    cbn [fmap list_fmap mjoin list_join]. apply Forall_app. split; [|done].
    by destruct Hch as (_ & _ & _ & _ & Hnul).
Qed.

Lemma parseNameStatus_fields_of_witness :
  Forall (reported ModeStaged)
    [Change.mk "git.go" "" "M" ModeStaged; Change.mk "new.go" "old.go" "R" ModeStaged]
  ∧ parseNameStatus
      (terminated (mjoin (fields_of <$> [Change.mk "git.go" "" "M" ModeStaged;
                                         Change.mk "new.go" "old.go" "R" ModeStaged])))
      ModeStaged
    = Done [Change.mk "git.go" "" "M" ModeStaged; Change.mk "new.go" "old.go" "R" ModeStaged].
Proof.
  assert (H : Forall (reported ModeStaged)
                [Change.mk "git.go" "" "M" ModeStaged;
                 Change.mk "new.go" "old.go" "R" ModeStaged]).
  { repeat (apply Forall_cons; split; [|]); [| |apply Forall_nil_2].
    - split; [done|]. split; [by exists "M"%char|]. split; [done|]. split; [done|].
      repeat (apply Forall_cons; split; [reflexivity|]). apply Forall_nil_2.
    - split; [done|]. split; [by exists "R"%char|]. split; [done|]. split; [done|].
      repeat (apply Forall_cons; split; [reflexivity|]). apply Forall_nil_2. }
  split; [exact H|]. exact (parseNameStatus_fields_of _ ModeStaged H).
Defined.

(** * Further properties of the merge *)

Section merge_paths.
Implicit Types (byPath : gmap string Change.t) (ch u : Change.t) (l : list Change.t)
  (p : string).

Lemma merge_seed_dom l byPath p :
  is_Some (foldl merge_seed byPath l !! p)
  ↔ is_Some (byPath !! p) ∨ p ∈ Change.Path <$> l.
Proof.
  revert byPath. induction l as [|ch l IH]; intros byPath; cbn [foldl fmap list_fmap].
  - split; [by left | intros [? | H]; [done | by apply elem_of_nil in H]].
  - rewrite IH. unfold merge_seed. rewrite lookup_insert_is_Some, elem_of_cons. split.
    + intros [[-> | [_ ?]] | ?]; auto.
    + intros [? | [-> | ?]]; auto.
      destruct (decide (Change.Path ch = p)); auto.
Qed.

Lemma merge_unstaged_dom l byPath p :
  is_Some (foldl merge_unstaged byPath l !! p)
  ↔ is_Some (byPath !! p) ∨ p ∈ Change.Path <$> l.
Proof.
  revert byPath. induction l as [|u l IH]; intros byPath; cbn [foldl fmap list_fmap].
  - split; [by left | intros [? | H]; [done | by apply elem_of_nil in H]].
  - rewrite IH, elem_of_cons.
    assert (Hstep : is_Some (merge_unstaged byPath u !! p)
                    ↔ is_Some (byPath !! p) ∨ p = Change.Path u).
    { unfold merge_unstaged.
      destruct (byPath !! Change.Path u) eqn:Hu; rewrite lookup_insert_is_Some; split.
      - intros [<- | [_ ?]]; auto.
      - intros [? | ->]; auto. destruct (decide (Change.Path u = p)); auto.
      - intros [<- | [_ ?]]; auto.
      - intros [? | ->]; auto. destruct (decide (Change.Path u = p)); auto. }
    rewrite Hstep. tauto.
Qed.

Lemma merge_byPath_keyed staged unstaged : keyed_by_path (merge_byPath staged unstaged).
Proof.
  apply merge_unstaged_keyed, merge_seed_keyed. intros ? ?. by rewrite lookup_empty.
Qed.

Lemma keyed_paths byPath :
  keyed_by_path byPath →
  Change.Path <$> (map_to_list byPath).*2 = (map_to_list byPath).*1.
Proof.
  intros Hk. rewrite <- list_fmap_compose. apply list_fmap_ext.
  intros i [p ch] Hi. cbn. apply (Hk p ch).
  apply elem_of_map_to_list. by eapply list_elem_of_lookup_2.
Qed.

Lemma merge_unstaged_other l byPath p :
  (∀ x, x ∈ l → Change.Path x ≠ p) →
  foldl merge_unstaged byPath l !! p = byPath !! p.
Proof.
  revert byPath. induction l as [|u l IH]; intros byPath Hno; [done|].
  cbn [foldl]. rewrite IH by (intros x Hx; apply Hno; by right).
  unfold merge_unstaged.
  destruct (byPath !! Change.Path u); apply lookup_insert_ne, Hno; left.
Qed.

Lemma merge_unstaged_first pre u post byPath :
  byPath !! Change.Path u = None →
  (∀ x, x ∈ pre → Change.Path x ≠ Change.Path u) →
  foldl merge_unstaged byPath (pre ++ u :: post) !! Change.Path u
  = Some (Change.with_Source u ModeAll).
Proof.
  intros Hnone Hpre. rewrite foldl_app. cbn [foldl].
  rewrite (merge_unstaged_present _ _ _ (Change.with_Source u ModeAll)).
  - by case_bool_decide.
  - unfold merge_unstaged at 1. rewrite merge_unstaged_other, Hnone by done.
    apply lookup_insert_eq.
Qed.
End merge_paths.

Lemma mergeChanges_paths_facts (staged unstaged : list Change.t) :
  NoDup (Change.Path <$> mergeChanges staged unstaged)
  ∧ ∀ p, p ∈ Change.Path <$> mergeChanges staged unstaged
         ↔ p ∈ Change.Path <$> (staged ++ unstaged).
Proof.
  unfold mergeChanges. rewrite keyed_paths by apply merge_byPath_keyed. split.
  - apply NoDup_fst_map_to_list.
  - intros p. rewrite fmap_app, elem_of_app.
    transitivity (is_Some (merge_byPath staged unstaged !! p)).
    + split.
      * intros [[p' ch] [-> Hin]]%list_elem_of_fmap. cbn.
        apply elem_of_map_to_list in Hin. eauto.
      * intros [ch Hch]. apply list_elem_of_fmap. exists (p, ch).
        split; [done|]. by apply elem_of_map_to_list.
    + unfold merge_byPath. rewrite merge_unstaged_dom, merge_seed_dom, lookup_empty.
      split; [intros [[H | H] | H]; auto; by destruct H | tauto].
Qed.

(** X3.  The merged list holds one record per path: no path occurs
    twice, and the paths of the result are exactly the paths of the staged
    and the unstaged records. *)
Theorem mergeChanges_paths (staged unstaged : list Change.t) :
  NoDup (Change.Path <$> mergeChanges staged unstaged)
  ∧ ∀ p, p ∈ Change.Path <$> mergeChanges staged unstaged
         ↔ p ∈ Change.Path <$> (staged ++ unstaged).
Proof. apply mergeChanges_paths_facts. Qed.

(** X4.  When no two of the staged and unstaged records share a path,
    the merge keeps them all: the merged list is as long as the two lists
    together. *)
Theorem mergeChanges_disjoint_length (staged unstaged : list Change.t) :
  NoDup (Change.Path <$> (staged ++ unstaged)) →
  length (mergeChanges staged unstaged) = length staged + length unstaged.
Proof.
  intros Hnd. destruct (mergeChanges_paths_facts staged unstaged) as [Hnd' Hsame].
  rewrite <- length_app, <- (length_fmap Change.Path (staged ++ unstaged)).
  rewrite <- (length_fmap Change.Path (mergeChanges staged unstaged)).
  apply Permutation_length. by apply NoDup_Permutation.
Qed.

Lemma mergeChanges_disjoint_length_witness :
  NoDup (Change.Path <$> ([Change.mk "git.go" "" "M" ModeStaged]
                           ++ [Change.mk "notes.txt" "" "U" ModeUnstaged]))
  ∧ length (mergeChanges [Change.mk "git.go" "" "M" ModeStaged]
              [Change.mk "notes.txt" "" "U" ModeUnstaged]) = 1 + 1.
Proof.
  assert (H : NoDup (Change.Path <$> ([Change.mk "git.go" "" "M" ModeStaged]
                                       ++ [Change.mk "notes.txt" "" "U" ModeUnstaged])))
    by (cbn; distinct_strings).
  split; [exact H|]. exact (mergeChanges_disjoint_length _ _ H).
Defined.

(** X5.  A path that only the staged list has keeps its staged record
    untouched, origin included: the origin is rewritten only where an
    unstaged record takes part. *)
Theorem mergeChanges_staged_only (pre post unstaged : list Change.t) (ch : Change.t) :
  (∀ x, x ∈ post → Change.Path x ≠ Change.Path ch) →
  (∀ u, u ∈ unstaged → Change.Path u ≠ Change.Path ch) →
  ch ∈ mergeChanges (pre ++ ch :: post) unstaged
  ∧ ∀ r, r ∈ mergeChanges (pre ++ ch :: post) unstaged →
         Change.Path r = Change.Path ch → r = ch.
Proof.
  intros Hpost Hun.
  assert (Hlook : merge_byPath (pre ++ ch :: post) unstaged !! Change.Path ch = Some ch).
  { unfold merge_byPath. rewrite merge_unstaged_other by done. by apply merge_seed_last. }
  split.
  - unfold mergeChanges. apply list_elem_of_fmap. exists (Change.Path ch, ch).
    split; [done|]. by apply elem_of_map_to_list.
  - intros r Hr Hrp. unfold mergeChanges in Hr.
    apply list_elem_of_fmap in Hr as [[p r'] [-> Hin]]. cbn [snd] in *.
    apply elem_of_map_to_list in Hin.
    rewrite <- (merge_byPath_keyed _ _ _ _ Hin), Hrp, Hlook in Hin. by injection Hin.
Qed.

Lemma mergeChanges_staged_only_witness :
  (∀ x, x ∈ [] → Change.Path x ≠ Change.Path staged_modified)
  ∧ (∀ u, u ∈ [Change.mk "notes.txt" "" "U" ModeUnstaged]
          → Change.Path u ≠ Change.Path staged_modified)
  ∧ staged_modified ∈ mergeChanges [staged_modified]
                        [Change.mk "notes.txt" "" "U" ModeUnstaged].
Proof.
  assert (Hpost : ∀ x : Change.t, x ∈ [] → Change.Path x ≠ Change.Path staged_modified).
  { intros x Hx. by apply elem_of_nil in Hx. }
  assert (Hun : ∀ u, u ∈ [Change.mk "notes.txt" "" "U" ModeUnstaged]
                     → Change.Path u ≠ Change.Path staged_modified).
  { intros u Hu. apply list_elem_of_singleton in Hu as ->. discriminate. }
  split; [exact Hpost|]. split; [exact Hun|].
  exact (proj1 (mergeChanges_staged_only [] [] _ staged_modified Hpost Hun)).
Defined.

(** X6.  A path that only the unstaged list has comes out once, as the
    first unstaged record of that path with its origin rewritten to
    [ModeAll]. *)
Theorem mergeChanges_unstaged_only (staged pre post : list Change.t) (u : Change.t) :
  (∀ x, x ∈ staged → Change.Path x ≠ Change.Path u) →
  (∀ x, x ∈ pre → Change.Path x ≠ Change.Path u) →
  Change.with_Source u ModeAll ∈ mergeChanges staged (pre ++ u :: post)
  ∧ ∀ r, r ∈ mergeChanges staged (pre ++ u :: post) →
         Change.Path r = Change.Path u → r = Change.with_Source u ModeAll.
Proof.
  intros Hst Hpre.
  assert (Hlook : merge_byPath staged (pre ++ u :: post) !! Change.Path u
                  = Some (Change.with_Source u ModeAll)).
  { unfold merge_byPath. apply merge_unstaged_first; [|done].
    rewrite merge_seed_other by done. apply lookup_empty. }
  split.
  - unfold mergeChanges. apply list_elem_of_fmap.
    exists (Change.Path u, Change.with_Source u ModeAll).
    split; [done|]. by apply elem_of_map_to_list.
  - intros r Hr Hrp. unfold mergeChanges in Hr.
    apply list_elem_of_fmap in Hr as [[p r'] [-> Hin]]. cbn [snd] in *.
    apply elem_of_map_to_list in Hin.
    rewrite <- (merge_byPath_keyed _ _ _ _ Hin), Hrp, Hlook in Hin. by injection Hin.
Qed.

Lemma mergeChanges_unstaged_only_witness :
  (∀ x, x ∈ [staged_modified] → Change.Path x ≠ "notes.txt")
  ∧ (∀ x : Change.t, x ∈ [] → Change.Path x ≠ "notes.txt")
  ∧ Change.mk "notes.txt" "" "U" ModeAll
    ∈ mergeChanges [staged_modified] [Change.mk "notes.txt" "" "U" ModeUnstaged].
Proof.
  assert (Hst : ∀ x, x ∈ [staged_modified] → Change.Path x ≠ "notes.txt").
  { intros x Hx. apply list_elem_of_singleton in Hx as ->. discriminate. }
  assert (Hpre : ∀ x : Change.t, x ∈ [] → Change.Path x ≠ "notes.txt").
  { intros x Hx. by apply elem_of_nil in Hx. }
  split; [exact Hst|]. split; [exact Hpre|].
  exact (proj1 (mergeChanges_unstaged_only [staged_modified] [] []
                  (Change.mk "notes.txt" "" "U" ModeUnstaged) Hst Hpre)).
Defined.

(** * Exported names *)

Lemma and_then_Some (o : option string) (f : string → option string) (n : string) :
  regexp.and_then o f = Some n → ∃ r, o = Some r ∧ f r = Some n.
Proof. destruct o as [r|]; [|done]. intros H. by exists r. Qed.

Lemma while_word_word (s : string) : all_bytes regexp.word (regexp.while_word s) = true.
Proof.
  induction s as [|c s IH]; [done|]. cbn [regexp.while_word].
  destruct (regexp.word c) eqn:Hc; [|done]. cbn [all_bytes]. by rewrite Hc, IH.
Qed.

Lemma name_shape (s n : string) : regexp.name s = Some n → exported_shape n.
Proof.
  destruct s as [|c t]; [done|]. cbn [regexp.name].
  destruct (regexp.upper c) eqn:Hc; [|done]. intros [= <-].
  exists c, (regexp.while_word t). split; [done|]. split; [done|]. apply while_word_word.
Qed.

Lemma exported_name_shape (prefix : ascii) (line n : string) :
  exported_name prefix line = Some n → exported_shape n.
Proof.
  unfold exported_name. destruct line as [|c0 rest]; [done|].
  case_bool_decide; [done|]. destruct (isDiffHeader _); [done|].
  set (content := strings.TrimSpace rest).
  destruct (regexp.goExportedRe content) as [m|] eqn:Hgo.
  { intros [= <-]. unfold regexp.goExportedRe in Hgo.
    destruct (regexp.and_then (regexp.lit "func" content) regexp.s_plus) as [r|].
    - by apply name_shape in Hgo.
    - apply and_then_Some in Hgo as (r & _ & Hn). by apply name_shape in Hn. }
  destruct (regexp.jsExportedRe content) as [m|] eqn:Hjs.
  { intros [= <-]. unfold regexp.jsExportedRe in Hjs.
    apply and_then_Some in Hjs as (r & _ & Hn). by apply name_shape in Hn. }
  unfold regexp.rustExportedRe. intros Hrs.
  apply and_then_Some in Hrs as (r & _ & Hn). by apply name_shape in Hn.
Qed.

Lemma collected_names (f : string → option string) (lines : list string)
    (set : gset string) (n : string) :
  n ∈ foldl (λ set line, match f line with
                         | Some m => {[m]} ∪ set
                         | None => set
                         end) set lines
  ↔ n ∈ set ∨ ∃ line, line ∈ lines ∧ f line = Some n.
Proof.
  revert set. induction lines as [|line lines IH]; intros set; cbn [foldl].
  - split; [by left|]. intros [? | (line & Hin & _)]; [done|]. by apply elem_of_nil in Hin.
  - rewrite IH. split.
    + intros [Hn | (l & Hl & Hf)].
      * destruct (f line) as [m|] eqn:Hm; [|by left].
        apply elem_of_union in Hn as [->%elem_of_singleton | Hn]; [|by left].
        right. exists line. split; [left | done].
      * right. exists l. split; [by right | done].
    + intros [Hn | (l & [-> | Hl]%elem_of_cons & Hf)].
      * left. destruct (f line); [|done]. apply elem_of_union. by right.
      * left. rewrite Hf. apply elem_of_union. left. by apply elem_of_singleton.
      * right. eauto.
Qed.

(** X7.  [findExportedNames] returns the names in ascending byte order
    and without repetition; a name is returned when and only when some
    line of the diff yields it, and every name is an upper-case letter
    followed by letters, digits and underscores. *)
Theorem findExportedNames_sorted_set (diff : string) (prefix : ascii) :
  StronglySorted String.le (findExportedNames diff prefix)
  ∧ NoDup (findExportedNames diff prefix)
  ∧ (∀ n, n ∈ findExportedNames diff prefix
          ↔ ∃ line, line ∈ strings.Split diff strings.LF
                    ∧ exported_name prefix line = Some n)
  ∧ ∀ n, n ∈ findExportedNames diff prefix → exported_shape n.
Proof.
  assert (Hmem : ∀ n, n ∈ findExportedNames diff prefix
            ↔ ∃ line, line ∈ strings.Split diff strings.LF
                      ∧ exported_name prefix line = Some n).
  { intros n. unfold findExportedNames. case_bool_decide as Hd.
    - subst diff. split; [by intros ?%elem_of_nil|].
      intros (line & Hin & Hn). cbn in Hin.
      apply list_elem_of_singleton in Hin as ->. done.
    - rewrite merge_sort_Permutation, elem_of_elements, collected_names.
      split; [intros [?%elem_of_empty | ?]; done | by right]. }
  split; [|split; [|split; [exact Hmem|]]].
  - unfold findExportedNames. case_bool_decide; [constructor|].
    apply StronglySorted_merge_sort; apply _.
  - unfold findExportedNames. case_bool_decide; [constructor|].
    rewrite merge_sort_Permutation. apply NoDup_elements.
  - intros n (line & _ & Hn)%Hmem. by eapply exported_name_shape.
Qed.

(** * The range of the classifier *)

Lemma dominantNonCode_range (counts : gmap string Z) :
  dominantNonCode counts ∈ dominant_order.
Proof.
  destruct (dominantNonCode_dominant counts) as [[_ ->] | (i & Hi & _)].
  - unfold dominant_order. in_list.
  - by eapply list_elem_of_lookup_2.
Qed.

Lemma commit_types_tokens (ty : string) : ty ∈ commit_types → type_token ty.
Proof.
  intros Hty. unfold commit_types in Hty.
  repeat (apply elem_of_cons in Hty as [-> | Hty]; [by split|]).
  by apply elem_of_nil in Hty.
Qed.

Lemma detectType_range (changes : list Change.t) (diff : string) (opts : Options) :
  Type_ opts = "" → (detectType changes diff opts).1 ∈ commit_types.
Proof.
  unfold detectType. intros ->. rewrite bool_decide_eq_false_2 by (by intros ?).
  case_bool_decide.
  { cbn [fst]. pose proof (dominantNonCode_range
      (counts (foldl scan_step scan_init changes))) as Hdom.
    unfold dominant_order, catDocs, catTest, catCI, catBuild, catChore in Hdom.
    unfold commit_types.
    repeat (apply elem_of_cons in Hdom as [-> | Hdom]; [in_list|]).
    by apply elem_of_nil in Hdom. }
  unfold commit_types.
  repeat (match goal with |- context [if ?b then _ else _] => destruct b end);
    cbn [fst]; in_list.
Qed.

(** X8.  Without a forced type, [detectType] answers with one of the ten
    commit types, whatever the records and the diff are; with a forced
    type it answers with that type in lower case and the reason "type
    override". *)
Theorem detectType_labels (changes : list Change.t) (diff : string) (opts : Options) :
  (Type_ opts = "" → (detectType changes diff opts).1 ∈ commit_types)
  ∧ (Type_ opts ≠ "" →
     detectType changes diff opts = (strings.ToLower (Type_ opts), ["type override"])).
Proof.
  split; [apply detectType_range|].
  intros Hty. unfold detectType. by rewrite bool_decide_eq_true_2.
Qed.

Lemma detectType_labels_witness :
  Type_ default_options = ""
  ∧ (detectType docs_and_tests "" default_options).1 ∈ commit_types.
Proof.
  split; [reflexivity|].
  exact (proj1 (detectType_labels docs_and_tests "" default_options) eq_refl).
Defined.

(** * Scopes *)

Lemma scope_byte_ascii (c : ascii) : scope_byte c = true → (byte c < 0x80)%Z.
Proof. unfold scope_byte, allowed_in_scope. intros H%bool_decide_eq_true. lia. Qed.

Lemma of_runes_cons (r : Z) (rs : list Z) :
  utf8.of_runes (r :: rs) = utf8.EncodeRune r +:+ utf8.of_runes rs.
Proof. done. Qed.

(** Runes that pass the filter are written as one allowed byte each. *)
Lemma of_runes_allowed (rs : list Z) :
  Forall (λ r, allowed_in_scope r = true) rs →
  all_bytes scope_byte (utf8.of_runes rs) = true.
Proof.
  induction 1 as [|r rs Hr _ IH]; [done|].
  rewrite of_runes_cons. apply bool_decide_eq_true in Hr as Hr'.
  rewrite EncodeRune_ascii by lia. cbn [str1 String.append all_bytes].
  unfold scope_byte at 1. rewrite byte_chr by lia. by rewrite Hr, IH.
Qed.

Lemma sanitizeScope_token (scope : string) : scope_token (sanitizeScope scope).
Proof.
  unfold scope_token, sanitizeScope. apply of_runes_allowed.
  apply Forall_forall. intros r Hr. by apply list_elem_of_filter in Hr as [? _].
Qed.

Lemma all_bytes_app (P : ascii → bool) (s t : string) :
  all_bytes P (s +:+ t) = all_bytes P s && all_bytes P t.
Proof.
  induction s as [|c s IH]; [done|]. cbn [String.append all_bytes].
  by rewrite IH, andb_assoc.
Qed.

Lemma all_bytes_rev (P : ascii → bool) (s : string) :
  all_bytes P (strings.rev s) = all_bytes P s.
Proof.
  induction s as [|c s IH]; [done|].
  rewrite rev_cons, all_bytes_app, IH. cbn [str1 all_bytes].
  rewrite andb_true_r. apply andb_comm.
Qed.

Lemma TrimLeftSpace_solid (s : string) :
  solid_first s = true → strings.TrimLeftSpace s = s ∧ strings.TrimLeftSpace_rev s = s.
Proof.
  destruct s as [|c0 t0]; [done|]. cbn [solid_first]. unfold solid, is_ascii.
  intros [Hc%bool_decide_eq_true Hs%negb_true_iff]%andb_true_iff.
  cbn [strings.TrimLeftSpace strings.TrimLeftSpace_rev]. rewrite Hs.
  destruct t0 as [|c1 t1]; [done|].
  assert (strings.space2 (byte c0) (byte c1) = false) as ->.
  { apply bool_decide_eq_false. lia. }
  assert (strings.space2 (byte c1) (byte c0) = false) as ->.
  { apply bool_decide_eq_false. lia. }
  destruct t1 as [|c2 t2]; [done|].
  assert (strings.space3 (byte c0) (byte c1) (byte c2) = false) as ->.
  { apply bool_decide_eq_false. lia. }
  assert (strings.space3 (byte c2) (byte c1) (byte c0) = false) as ->.
  { apply bool_decide_eq_false. lia. }
  done.
Qed.

Lemma scope_byte_solid (c : ascii) : scope_byte c = true → solid c = true.
Proof.
  unfold scope_byte, allowed_in_scope, solid, is_ascii, strings.space1.
  intros H%bool_decide_eq_true. apply andb_true_iff. split.
  - apply bool_decide_eq_true. lia.
  - apply negb_true_iff, bool_decide_eq_false. lia.
Qed.

Lemma scope_token_solid_first (s : string) :
  all_bytes scope_byte s = true → s ≠ "" → solid_first s = true.
Proof.
  destruct s as [|c s]; [done|]. cbn [all_bytes solid_first].
  intros [Hc _]%andb_true_iff _. by apply scope_byte_solid.
Qed.

Lemma TrimSpace_scope_token (s : string) :
  all_bytes scope_byte s = true → strings.TrimSpace s = s.
Proof.
  intros Hs. destruct (decide (s = "")) as [-> | Hne]; [done|].
  unfold strings.TrimSpace, strings.TrimRightSpace.
  rewrite (proj1 (TrimLeftSpace_solid s (scope_token_solid_first s Hs Hne))).
  assert (Hrev : solid_first (strings.rev s) = true).
  { apply scope_token_solid_first; [by rewrite all_bytes_rev|].
    intros Hr. apply Hne. apply rev_inj. by rewrite Hr. }
  rewrite (proj2 (TrimLeftSpace_solid _ Hrev)). apply rev_involutive.
Qed.

Lemma sanitize_steps_token (s : string) :
  all_bytes scope_byte s = true →
  strings.ToLower s = s ∧ spaces_to_hyphens s = s
  ∧ utf8.of_runes (filter (λ r, allowed_in_scope r = true) (utf8.runes s)) = s.
Proof.
  induction s as [|c s IH]; [done|]. cbn [all_bytes].
  intros [Hc Hs]%andb_true_iff. destruct (IH Hs) as (IH1 & IH2 & IH3).
  pose proof (scope_byte_ascii c Hc) as Hascii.
  assert (Hallowed : allowed_in_scope (byte c) = true) by done.
  apply bool_decide_eq_true in Hc as Hrange.
  split; [|split].
  - rewrite ToLower_cons_ascii, IH1 by done. f_equal.
    unfold lower_byte, unicode.ToLower. repeat case_bool_decide; try lia. apply chr_byte.
  - cbn [spaces_to_hyphens]. rewrite IH2. rewrite bool_decide_eq_false_2; [done|].
    intros ->. change (byte " "%char) with 32%Z in Hrange. lia.
  - rewrite runes_cons_ascii by done. rewrite filter_cons.
    destruct (decide (allowed_in_scope (byte c) = true)); [|done].
    rewrite of_runes_cons, IH3. pose proof (byte_range c).
    rewrite EncodeRune_ascii by lia. by rewrite chr_byte.
Qed.

(** X9.  [sanitizeScope] returns nothing but the bytes a-z, 0-9, '-', '_'
    and '/', and a string of such bytes is left as it is: sanitizing twice
    is sanitizing once. *)
Theorem sanitizeScope_idempotent (scope : string) :
  scope_token (sanitizeScope scope)
  ∧ sanitizeScope (sanitizeScope scope) = sanitizeScope scope.
Proof.
  split; [apply sanitizeScope_token|].
  pose proof (sanitizeScope_token scope) as Htok.
  unfold sanitizeScope at 1. rewrite (TrimSpace_scope_token _ Htok).
  by destruct (sanitize_steps_token _ Htok) as (-> & -> & ->).
Qed.

Lemma detectScope_sanitized (changes : list Change.t) (override : string) :
  scope_token (detectScope changes override).
Proof.
  unfold detectScope. case_bool_decide; [apply sanitizeScope_token|].
  destruct changes as [|ch [|ch' changes]]; [done | apply sanitizeScope_token|].
  destruct (detectScope_loop _ _ _); [apply sanitizeScope_token | done].
Qed.

(** X10.  Whatever the records and the override are, the scope
    [detectScope] returns is empty or made of the bytes a-z, 0-9, '-',
    '_' and '/' only, and sanitizing it again changes nothing. *)
Theorem detectScope_token (changes : list Change.t) (override : string) :
  scope_token (detectScope changes override)
  ∧ sanitizeScope (detectScope changes override) = detectScope changes override.
Proof.
  pose proof (detectScope_sanitized changes override) as Htok.
  split; [exact Htok|]. unfold sanitizeScope at 1. rewrite (TrimSpace_scope_token _ Htok).
  by destruct (sanitize_steps_token _ Htok) as (-> & -> & ->).
Qed.

(** The prefix written for a type token and a scope token reads back. *)
Lemma parsePrefix_tokens (ty sc subject body : string) (opts : Options)
    (breaking : bool) :
  type_token ty → scope_token sc → prefixed (OFormat opts) →
  parsePrefix (formatMessage ty sc subject body opts breaking) = Some (ty, sc, breaking).
Proof.
  intros [Hne Hty] Hsc Hfmt.
  destruct (formatMessage_prefix ty sc subject body opts breaking Hfmt) as [tail ->].
  rewrite (ToLower_lower_letters ty Hty).
  assert (Hparen : no_byte ")"%char sc).
  { revert Hsc. by apply all_bytes_no_byte. }
  set (S := if bool_decide (sc ≠ "") then "(" +:+ sc +:+ ")" else "").
  set (B := if breaking then "!" else "").
  assert (Hafter : ∃ c r, S +:+ B +:+ ": " +:+ tail = String c r ∧ lower_letter c = false
            ∧ read_scope (String c r) = Some (sc, B +:+ ": " +:+ tail)).
  { unfold S. case_bool_decide as Hsc0.
    - exists "("%char, (sc +:+ String ")"%char (B +:+ ": " +:+ tail)).
      split; [by rewrite !append_assoc|]. split; [done|].
      cbn [read_scope]. rewrite bool_decide_eq_true_2 by done. by apply Cut_app.
    - assert (sc = "") as -> by (by destruct (decide (sc = ""))).
      unfold B. destruct breaking.
      + exists "!"%char, (": " +:+ tail). done.
      + exists ":"%char, (String " "%char tail). done. }
  destruct Hafter as (c & r & Heq & Hc & Hscope).
  assert (Hskip : skip_emoji
            ((if Emoji opts || eqs (OFormat opts) FormatGitmoji
              then if bool_decide (emojiCode ty ≠ "") then emojiCode ty +:+ " " else ""
              else "") +:+ ty +:+ S +:+ B +:+ ": " +:+ tail)
          = Some (ty +:+ S +:+ B +:+ ": " +:+ tail)).
  { destruct ty as [|a ty']; [done|]. cbn [all_bytes] in Hty.
    apply andb_true_iff in Hty as [Ha _].
    destruct (Emoji opts || eqs (OFormat opts) FormatGitmoji); [case_bool_decide|].
    - rewrite append_assoc. by apply skip_emoji_code.
    - by apply skip_emoji_none.
    - by apply skip_emoji_none. }
  unfold parsePrefix. rewrite Hskip, Heq, span_lower_app by done.
  rewrite Hscope. unfold B. destruct breaking; done.
Qed.

(** X11.  The classifier and the composer fit together: without a forced
    type, in the conventional and the gitmoji format, the prefix of the
    message composed from the detected type and the detected scope reads
    back as exactly this type, this scope and the breaking flag. *)
Theorem parsePrefix_pipeline (changes : list Change.t) (diff subject body : string)
    (opts : Options) (breaking : bool) :
  Type_ opts = "" → prefixed (OFormat opts) →
  parsePrefix (formatMessage (detectType changes diff opts).1
                 (detectScope changes (Scope opts)) subject body opts breaking)
  = Some ((detectType changes diff opts).1, detectScope changes (Scope opts), breaking).
Proof.
  intros Hty Hfmt. apply parsePrefix_tokens; [|apply detectScope_sanitized|done].
  by apply commit_types_tokens, detectType_range.
Qed.

Lemma parsePrefix_pipeline_witness :
  Type_ default_options = "" ∧ prefixed (OFormat default_options)
  ∧ parsePrefix (formatMessage (detectType docs_and_tests "" default_options).1
                   (detectScope docs_and_tests (Scope default_options))
                   "Update docs" "" default_options false)
    = Some ((detectType docs_and_tests "" default_options).1,
            detectScope docs_and_tests (Scope default_options), false).
Proof.
  split; [reflexivity|]. split; [by left|].
  apply (parsePrefix_pipeline docs_and_tests "" "Update docs" "" default_options false);
    [reflexivity | by left].
Defined.

(** * The keyword scan and the breaking verdict *)




(** X13.  The breaking verdict: a forced flag gives true without a note;
    an empty diff leaves the forced flag as the verdict; and a note is
    only ever produced together with a true verdict, when the diff
    removes exported names, and then it lists exactly these names. *)
Theorem detectBreaking_note (changes : list Change.t) (diff : string) (opts : Options) :
  (Breaking opts = true → detectBreaking changes diff opts = (true, ""))
  ∧ detectBreaking changes "" opts = (Breaking opts, "")
  ∧ ((detectBreaking changes diff opts).2 ≠ "" →
     findExportedNames diff "-"%char ≠ []
     ∧ detectBreaking changes diff opts
       = (true, "removed exported symbols: "
                +:+ strings.Join (findExportedNames diff "-"%char) ", ")).
Proof.
  unfold detectBreaking. split; [by intros ->|]. split; [by destruct (Breaking opts)|].
  destruct (Breaking opts); [done|].
  destruct (diffHasKeyword diff _); [done|].
  case_bool_decide as Hlen; [|done]. intros _. split; [|done].
  intros Hnil. rewrite Hnil in Hlen. cbn in Hlen. lia.
Qed.

Lemma detectBreaking_note_witness :
  (detectBreaking [] "-func OldAPI() {}" default_options).2 ≠ ""
  ∧ detectBreaking [] "-func OldAPI() {}" default_options
    = (true, "removed exported symbols: OldAPI").
Proof.
  assert (H : (detectBreaking [] "-func OldAPI() {}" default_options).2 ≠ "")
    by (vm_compute; discriminate).
  split; [exact H|].
  destruct (detectBreaking_note [] "-func OldAPI() {}" default_options) as (_ & _ & Hnote).
  destruct (Hnote H) as [_ ->]. vm_compute. reflexivity.
Defined.

(** * The vote over the areas *)

Lemma vote_invariant (l : list (string * Z)) :
  counter_entries l →
  ∃ best bc tie,
    foldl vote_step ("", 0%Z, false) l = (best, bc, tie)
    ∧ (∀ a c, (a, c) ∈ l → (c ≤ bc)%Z)
    ∧ (l = [] → best = "" ∧ bc = 0%Z ∧ tie = false)
    ∧ (l ≠ [] → (best, bc) ∈ l)
    ∧ (tie = false → ∀ a, (a, bc) ∈ l → a = best)
    ∧ (tie = true → ∃ a, a ≠ best ∧ (a, bc) ∈ l).
Proof.
  induction l as [|[a c] l IH] using rev_ind; intros [Hnd Hpos].
  - exists "", 0%Z, false. split; [done|]. split; [by intros ? ? ?%elem_of_nil|].
    split; [done|]. split; [done|]. split; [by intros _ ? ?%elem_of_nil | done].
  - rewrite fmap_app in Hnd. apply NoDup_app in Hnd as (Hnd & Hfresh & _).
    assert (Ha : ∀ c', (a, c') ∉ l).
    { intros c' Hin. apply (Hfresh a); [|cbn; left].
      apply list_elem_of_fmap. by exists (a, c'). }
    assert (Hc : (0 < c)%Z) by (apply (Hpos a c), elem_of_app; right; left).
    destruct IH as (best & bc & tie & Hrun & Hmax & Hnil & Hin & Huniq & Htie).
    { split; [done|]. intros a' c' Hin. apply (Hpos a' c'), elem_of_app. by left. }
    rewrite foldl_app, Hrun. cbn [foldl vote_step].
    assert (Hlast : ∀ x y, (x, y) ∈ l ++ [(a, c)] ↔ (x, y) ∈ l ∨ (x = a ∧ y = c)).
    { intros x y. rewrite elem_of_app, list_elem_of_singleton. split.
      - intros [? | [= -> ->]]; auto.
      - intros [? | [-> ->]]; auto. }
    case_bool_decide as Hgt; [|case_bool_decide as Heq].
    + exists a, c, false. split; [done|]. split.
      { intros x y [Hxy | [-> ->]]%Hlast; [|lia]. specialize (Hmax x y Hxy). lia. }
      split; [by intros [_ ?]%app_eq_nil|]. split; [intros _; apply Hlast; auto|].
      split; [|done]. intros _ x [Hx | [-> _]]%Hlast; [|done].
      specialize (Hmax x c Hx). lia.
    + subst c. exists best, bc, true. split; [done|]. split.
      { intros x y [Hxy | [-> ->]]%Hlast; [by apply (Hmax x)|lia]. }
      split; [by intros [_ ?]%app_eq_nil|].
      assert (Hne : l ≠ []).
      { intros ->. destruct Hnil as (_ & -> & _); [done|]. lia. }
      split; [intros _; apply Hlast; auto|]. split; [done|]. intros _.
      exists a. split; [|apply Hlast; auto].
      intros ->. by apply (Ha bc), Hin.
    + exists best, bc, tie. split; [done|]. split.
      { intros x y [Hxy | [-> ->]]%Hlast; [by apply (Hmax x)|lia]. }
      split; [by intros [_ ?]%app_eq_nil|].
      assert (Hne : l ≠ []).
      { intros ->. destruct Hnil as (_ & -> & _); [done|]. lia. }
      split; [intros _; apply Hlast; auto|]. split.
      * intros Ht x [Hx | [-> ?]]%Hlast; [by apply Huniq | done].
      * intros Ht. destruct (Htie Ht) as (x & Hx & Hxin). exists x.
        split; [done|]. apply Hlast. auto.
Qed.

Lemma vote_winner (l : list (string * Z)) :
  counter_entries l →
  (∃ a, strict_winner l a ∧ vote l = a ∧ ∀ b, strict_winner l b → b = a)
  ∨ ((∀ a, ¬ strict_winner l a) ∧ vote l = "").
Proof.
  intros Hl. destruct (vote_invariant l Hl)
    as (best & bc & tie & Hrun & Hmax & Hnil & Hin & Huniq & Htie).
  destruct Hl as [Hnd Hpos]. unfold vote. rewrite Hrun.
  assert (Hkey : ∀ a c c', (a, c) ∈ l → (a, c') ∈ l → c = c').
  { intros a c c' H1 H2. apply list_elem_of_lookup_1 in H1 as [i Hi].
    apply list_elem_of_lookup_1 in H2 as [j Hj].
    assert (i = j) as ->; [|congruence].
    apply (NoDup_lookup l.*1 i j a); [done|..]; rewrite list_lookup_fmap.
    - by rewrite Hi. - by rewrite Hj. }
  destruct (decide (l = [])) as [-> | Hne].
  { right. destruct Hnil as (-> & _ & ->); [done|]. split; [|done].
    intros a (c & Hc & _). by apply elem_of_nil in Hc. }
  specialize (Hin Hne). destruct tie.
  - right. split; [|done]. intros a (c & Hc & Hwin).
    destruct (Htie eq_refl) as (x & Hx & Hxin).
    destruct (decide (a = best)) as [-> | Hab].
    + assert (c = bc) as -> by (by eapply Hkey). specialize (Hwin x bc Hxin Hx). lia.
    + specialize (Hwin best bc Hin ltac:(done)). specialize (Hmax a c Hc). lia.
  - left. exists best. split; [|split; [done|]].
    + exists bc. split; [done|]. intros a' c' Hin' Hne'.
      specialize (Hmax a' c' Hin').
      destruct (decide (c' = bc)) as [-> | ?]; [|lia].
      by destruct Hne'; apply Huniq.
    + intros b (c & Hc & Hwin). destruct (decide (b = best)) as [|Hb]; [done|].
      specialize (Hwin best bc Hin ltac:(done)). specialize (Hmax b c Hc). lia.
Qed.

Lemma strict_winner_Permutation (l l' : list (string * Z)) (a : string) :
  l ≡ₚ l' → strict_winner l a → strict_winner l' a.
Proof.
  intros Hp (c & Hc & Hwin). exists c. split; [by rewrite <- Hp|].
  intros a' c' Hin. apply Hwin. by rewrite Hp.
Qed.

Lemma counter_entries_Permutation (l l' : list (string * Z)) :
  l ≡ₚ l' → counter_entries l → counter_entries l'.
Proof.
  intros Hp [Hnd Hpos]. split; [by rewrite <- Hp|].
  intros a c Hin. apply (Hpos a c). by rewrite Hp.
Qed.

Lemma vote_Permutation (l l' : list (string * Z)) :
  l ≡ₚ l' → counter_entries l → vote l = vote l'.
Proof.
  intros Hp Hl. pose proof (counter_entries_Permutation l l' Hp Hl) as Hl'.
  destruct (vote_winner l Hl) as [(a & Ha & -> & _) | [Hnone ->]];
    destruct (vote_winner l' Hl') as [(a' & Ha' & -> & Huniq) | [Hnone' ->]]; try done.
  - by apply Huniq, (strict_winner_Permutation l l').
  - destruct (Hnone' a). by apply (strict_winner_Permutation l l').
  - destruct (Hnone a'). by apply (strict_winner_Permutation l' l).
Qed.

Lemma area_counts_entries (changes : list Change.t) :
  countable_len changes → counter_entries (map_to_list (area_counts changes)).
Proof.
  intros Hlen. split; [apply NoDup_fst_map_to_list|].
  assert (Hinv : ∀ (l : list Change.t) (m : gmap string Z) (k : Z),
            (∀ a c, m !! a = Some c → 0 < c ≤ k)%Z →
            (0 ≤ k)%Z → (k + Z.of_nat (length l) ≤ Int.max_int)%Z →
            ∀ a c,
              foldl (λ counts ch,
                       let area := primaryArea (Change.Path ch) in
                       if bool_decide (area ≠ "") then incr counts area else counts)
                    m l !! a = Some c → (0 < c)%Z).
  { induction l as [|ch l IH]; intros m k Hm Hk Hmax a c; cbn [foldl].
    - intros Hc. by destruct (Hm a c Hc).
    - cbn [length] in Hmax. apply (IH _ (k + 1)%Z); [|lia|lia].
      intros a' c'. cbn zeta. case_bool_decide; [|intros Hc'; specialize (Hm a' c' Hc'); lia].
      unfold incr. set (area := primaryArea (Change.Path ch)).
      assert (Hcount : (0 ≤ count_of m area ≤ k)%Z).
      { unfold count_of. destruct (m !! area) as [v|] eqn:Hv; cbn; [|lia].
        specialize (Hm area v Hv). lia. }
      rewrite Int_add_exact by (unfold Int.in_range, Int.min_int, Int.max_int in *; lia).
      destruct (decide (area = a')) as [<- | Hne].
      + rewrite lookup_insert_eq. intros [= <-]. lia.
      + rewrite lookup_insert_ne by done. intros Hc'. specialize (Hm a' c' Hc'). lia. }
  intros a c Hin%elem_of_map_to_list.
  apply (Hinv changes ∅ 0%Z) with (a := a); [|lia|exact Hlen|exact Hin].
  intros a' c'. by rewrite lookup_empty.
Qed.

(** X14.  The target vote does not depend on the order in which the map
    of area counts is ranged over: for several records and no scope,
    [inferTarget] is the vote over any arrangement of the counted areas,
    and the vote is the area with strictly more records than every other
    one, or empty when there is no such area. *)
Theorem inferTarget_any_order (changes : list Change.t) (entries : list (string * Z)) :
  countable_len changes → length changes ≠ 1 →
  entries ≡ₚ map_to_list (area_counts changes) →
  inferTarget changes "" = vote entries
  ∧ ((∃ a, strict_winner entries a ∧ vote entries = a)
     ∨ ((∀ a, ¬ strict_winner entries a) ∧ vote entries = "")).
Proof.
  intros Hlen Hmany Hperm.
  pose proof (area_counts_entries changes Hlen) as Hmap.
  assert (Hentries : counter_entries entries).
  { by apply (counter_entries_Permutation (map_to_list (area_counts changes))). }
  split.
  - assert (Hvote : inferTarget changes "" = vote (map_to_list (area_counts changes))).
    { unfold inferTarget. destruct changes as [|ch [|ch' changes]]; [done|done|].
      rewrite bool_decide_eq_false_2 by (by intros ?).
      case_bool_decide as Hsize; [|done].
      apply map_size_empty_inv in Hsize. rewrite Hsize. by rewrite map_to_list_empty. }
    rewrite Hvote. symmetry. by apply vote_Permutation.
  - destruct (vote_winner entries Hentries) as [(a & Ha & Hv & _) | ?]; [left | by right].
    by exists a.
Qed.

Lemma inferTarget_any_order_witness :
  countable_len [Change.mk "cmd/tool/a.go" "" "M" ModeStaged;
                 Change.mk "cmd/tool/b.go" "" "M" ModeStaged;
                 Change.mk "docs/guide.md" "" "M" ModeStaged]
  ∧ inferTarget [Change.mk "cmd/tool/a.go" "" "M" ModeStaged;
                 Change.mk "cmd/tool/b.go" "" "M" ModeStaged;
                 Change.mk "docs/guide.md" "" "M" ModeStaged] ""
    = vote [("docs", 1%Z); ("cmd/tool", 2%Z)].
Proof.
  assert (Hlen : countable_len [Change.mk "cmd/tool/a.go" "" "M" ModeStaged;
                                Change.mk "cmd/tool/b.go" "" "M" ModeStaged;
                                Change.mk "docs/guide.md" "" "M" ModeStaged])
    by (vm_compute; discriminate).
  split; [exact Hlen|].
  refine (proj1 (inferTarget_any_order _ [("docs", 1%Z); ("cmd/tool", 2%Z)] Hlen _ _)).
  - cbn. lia.
  - clear Hlen.
    assert (Hmap : map_to_list (area_counts [Change.mk "cmd/tool/a.go" "" "M" ModeStaged;
                                             Change.mk "cmd/tool/b.go" "" "M" ModeStaged;
                                             Change.mk "docs/guide.md" "" "M" ModeStaged])
                   = [("cmd/tool", 2%Z); ("docs", 1%Z)]) by (vm_compute; reflexivity).
    rewrite Hmap. apply Permutation_swap.
Defined.

(** * The length of a truncated subject *)

Lemma length_rev (s : string) : String.length (strings.rev s) = String.length s.
Proof.
  induction s as [|c s IH]; [done|]. rewrite rev_cons, length_append, IH. cbn. lia.
Qed.

Lemma length_TrimLeftSpace (s : string) :
  String.length (strings.TrimLeftSpace s) ≤ String.length s.
Proof.
  remember (String.length s) as n eqn:Hn. revert s Hn.
  induction n as [n IH] using lt_wf_ind. intros s ->.
  destruct s as [|c0 t0]; [done|]. cbn [strings.TrimLeftSpace].
  destruct (strings.space1 (byte c0)).
  { pose proof (IH (String.length t0) ltac:(cbn; lia) t0 eq_refl). cbn. lia. }
  destruct t0 as [|c1 t1]; [done|].
  destruct (strings.space2 (byte c0) (byte c1)).
  { pose proof (IH (String.length t1) ltac:(cbn; lia) t1 eq_refl). cbn. lia. }
  destruct t1 as [|c2 t2]; [done|].
  destruct (strings.space3 (byte c0) (byte c1) (byte c2)); [|done].
  pose proof (IH (String.length t2) ltac:(cbn; lia) t2 eq_refl). cbn. lia.
Qed.

Lemma length_TrimLeftSpace_rev (s : string) :
  String.length (strings.TrimLeftSpace_rev s) ≤ String.length s.
Proof.
  remember (String.length s) as n eqn:Hn. revert s Hn.
  induction n as [n IH] using lt_wf_ind. intros s ->.
  destruct s as [|c0 t0]; [done|]. cbn [strings.TrimLeftSpace_rev].
  destruct (strings.space1 (byte c0)).
  { pose proof (IH (String.length t0) ltac:(cbn; lia) t0 eq_refl). cbn. lia. }
  destruct t0 as [|c1 t1]; [done|].
  destruct (strings.space2 (byte c1) (byte c0)).
  { pose proof (IH (String.length t1) ltac:(cbn; lia) t1 eq_refl). cbn. lia. }
  destruct t1 as [|c2 t2]; [done|].
  destruct (strings.space3 (byte c2) (byte c1) (byte c0)); [|done].
  pose proof (IH (String.length t2) ltac:(cbn; lia) t2 eq_refl). cbn. lia.
Qed.

Lemma length_TrimSpace (s : string) :
  String.length (strings.TrimSpace s) ≤ String.length s.
Proof.
  unfold strings.TrimSpace, strings.TrimRightSpace. rewrite length_rev.
  pose proof (length_TrimLeftSpace_rev (strings.rev (strings.TrimLeftSpace s))) as H1.
  pose proof (length_TrimLeftSpace s) as H2.
  rewrite length_rev in H1. lia.
Qed.

Lemma length_keep (k : nat) (s : string) : String.length (keep k s) ≤ k.
Proof.
  revert s. induction k as [|k IH]; intros [|c s]; cbn [keep String.length]; try lia.
  specialize (IH s). lia.
Qed.

Lemma runes_ascii (s : string) :
  all_bytes is_ascii s = true →
  length (utf8.runes s) = String.length s
  ∧ ∀ k, utf8.of_runes (take k (utf8.runes s)) = keep k s.
Proof.
  induction s as [|c s IH]; cbn [all_bytes].
  - intros _. split; [done|]. by intros [|k].
  - intros [Hc%bool_decide_eq_true Hs]%andb_true_iff. destruct (IH Hs) as [IHl IHk].
    rewrite runes_cons_ascii by done. split; [cbn; by rewrite IHl|].
    intros [|k]; [done|]. cbn [take keep]. rewrite of_runes_cons, IHk.
    pose proof (byte_range c). rewrite EncodeRune_ascii by lia. by rewrite chr_byte.
Qed.

Lemma last_space_le (runes : list Z) (i cut : nat) :
  last_space runes i cut ≤ Nat.max i cut.
Proof.
  induction i as [|i IH]; cbn [last_space]; [lia|]. case_bool_decide; lia.
Qed.

(** X15.  For a subject of ASCII text and a positive maximum, the result
    of [trimSubject] is never longer than the maximum. *)
Theorem trimSubject_ascii_bound (s : string) (max : Z) :
  all_bytes is_ascii s = true → (0 < max)%Z →
  (Z.of_nat (String.length (trimSubject s max)) ≤ max)%Z.
Proof.
  intros Hs Hmax. destruct (runes_ascii s Hs) as [Hlen Hkeep].
  unfold trimSubject. rewrite bool_decide_eq_false_2 by lia.
  case_bool_decide as Hshort; [lia|].
  set (m := Z.to_nat max).
  assert (Hm : length (take m (utf8.runes s)) = m) by (rewrite length_take; lia).
  rewrite Hm.
  pose proof (last_space_le (take m (utf8.runes s)) m m) as Hcut.
  set (c := last_space (take m (utf8.runes s)) m m) in *.
  assert (Hc : (if bool_decide (c < 3) then m else c) ≤ m) by (case_bool_decide; lia).
  set (cut := if bool_decide (c < 3) then m else c) in *.
  rewrite take_take, Nat.min_l by done. rewrite Hkeep.
  pose proof (length_TrimSpace (keep cut s)). pose proof (length_keep cut s). lia.
Qed.

Lemma trimSubject_ascii_bound_witness :
  all_bytes is_ascii "Add feature across modules" = true ∧ (0 < 10)%Z
  ∧ (Z.of_nat (String.length (trimSubject "Add feature across modules" 10)) ≤ 10)%Z.
Proof.
  split; [reflexivity|]. split; [reflexivity|].
  apply trimSubject_ascii_bound; reflexivity.
Defined.

(** * Combining the two numstat runs *)

Section stats.
Implicit Types (byPath : gmap string FileStat.t) (st a b : FileStat.t)
  (l : list FileStat.t) (p : string).

Lemma stats_combine_by_path l byPath :
  stats_by_path byPath → stats_by_path (foldl stats_combine byPath l).
Proof.
  revert byPath. induction l as [|st l IH]; intros byPath Hk; [done|].
  cbn [foldl]. apply IH. intros p st'. unfold stats_combine.
  destruct (byPath !! FileStat.Path st) as [existing|] eqn:Hex;
    (destruct (decide (FileStat.Path st = p)) as [<- | Hne];
     [rewrite lookup_insert_eq; intros [= <-]; cbn
     |rewrite lookup_insert_ne by done; apply Hk]).
  - by apply Hk.
  - done.
Qed.

Lemma stats_combine_other l byPath p :
  (∀ x, x ∈ l → FileStat.Path x ≠ p) →
  foldl stats_combine byPath l !! p = byPath !! p.
Proof.
  revert byPath. induction l as [|st l IH]; intros byPath Hno; [done|].
  cbn [foldl]. rewrite IH by (intros x Hx; apply Hno; by right).
  unfold stats_combine.
  destruct (byPath !! FileStat.Path st); apply lookup_insert_ne, Hno; left.
Qed.

Lemma stats_combine_dom l byPath p :
  is_Some (foldl stats_combine byPath l !! p)
  ↔ is_Some (byPath !! p) ∨ p ∈ FileStat.Path <$> l.
Proof.
  revert byPath. induction l as [|st l IH]; intros byPath; cbn [foldl fmap list_fmap].
  - split; [by left | intros [? | H]; [done | by apply elem_of_nil in H]].
  - rewrite IH, elem_of_cons.
    assert (Hstep : is_Some (stats_combine byPath st !! p)
                    ↔ is_Some (byPath !! p) ∨ p = FileStat.Path st).
    { unfold stats_combine.
      destruct (byPath !! FileStat.Path st) eqn:Hst; rewrite lookup_insert_is_Some; split.
      - intros [<- | [_ ?]]; auto.
      - intros [? | ->]; auto. destruct (decide (FileStat.Path st = p)); auto.
      - intros [<- | [_ ?]]; auto.
      - intros [? | ->]; auto. destruct (decide (FileStat.Path st = p)); auto. }
    rewrite Hstep. tauto.
Qed.

Lemma stats_seed_other l byPath p :
  p ∉ FileStat.Path <$> l → foldl stats_seed byPath l !! p = byPath !! p.
Proof.
  revert byPath. induction l as [|st l IH]; intros byPath Hno; [done|].
  cbn [foldl fmap list_fmap] in *. apply not_elem_of_cons in Hno as [Hne Hno].
  rewrite IH by done. unfold stats_seed. by apply lookup_insert_ne.
Qed.

Lemma stats_seed_unique l byPath st :
  NoDup (FileStat.Path <$> l) → st ∈ l →
  foldl stats_seed byPath l !! FileStat.Path st = Some st.
Proof.
  revert byPath. induction l as [|x l IH]; intros byPath Hnd Hin.
  - by apply elem_of_nil in Hin.
  - cbn [foldl fmap list_fmap] in *. apply NoDup_cons in Hnd as [Hx Hnd].
    apply elem_of_cons in Hin as [-> | Hin]; [|by apply IH].
    rewrite stats_seed_other by done. unfold stats_seed. apply lookup_insert_eq.
Qed.

Lemma stats_paths byPath :
  stats_by_path byPath →
  FileStat.Path <$> (map_to_list byPath).*2 = (map_to_list byPath).*1.
Proof.
  intros Hk. rewrite <- list_fmap_compose. apply list_fmap_ext.
  intros i [p st] Hi. cbn. apply (Hk p st).
  apply elem_of_map_to_list. by eapply list_elem_of_lookup_2.
Qed.

(** Seeding a map with the records of a map gives that map again. *)
Lemma stats_seed_entries byPath :
  stats_by_path byPath → foldl stats_seed ∅ (map_to_list byPath).*2 = byPath.
Proof.
  intros Hk. apply map_eq. intros p.
  assert (Hnd : NoDup (FileStat.Path <$> (map_to_list byPath).*2)).
  { rewrite stats_paths by done. apply NoDup_fst_map_to_list. }
  destruct (byPath !! p) as [st|] eqn:Hp.
  - rewrite <- (Hk p st Hp). apply stats_seed_unique; [done|].
    apply list_elem_of_fmap. exists (p, st). split; [done|]. by apply elem_of_map_to_list.
  - rewrite stats_seed_other; [apply lookup_empty|].
    rewrite stats_paths by done. intros [[p' st] [-> Hin]]%list_elem_of_fmap.
    apply elem_of_map_to_list in Hin. cbn in Hp. congruence.
Qed.

(** In the mode all the records are the entries of one map, filled from
    the work-tree run and then from the index run. *)
Lemma appendStats_twice (u s : list FileStat.t) :
  appendStats (appendStats [] u) s = (map_to_list (foldl stats_combine ∅ (u ++ s))).*2.
Proof.
  destruct u as [|a u]; destruct s as [|b s].
  - cbn. by rewrite map_to_list_empty.
  - reflexivity.
  - rewrite app_nil_r. reflexivity.
  - unfold appendStats at 1. rewrite bool_decide_eq_false_2 by done.
    unfold appendStats. rewrite bool_decide_eq_false_2 by done.
    change (foldl stats_seed ∅ []) with (∅ : gmap string FileStat.t).
    rewrite (stats_seed_entries (foldl stats_combine ∅ (a :: u))).
    + by rewrite <- foldl_app.
    + apply stats_combine_by_path. intros ? ?. by rewrite lookup_empty.
Qed.

Lemma stats_combine_pair pre a mid b post byPath :
  byPath !! FileStat.Path a = None →
  FileStat.Path b = FileStat.Path a →
  (∀ x, x ∈ pre ++ mid ++ post → FileStat.Path x ≠ FileStat.Path a) →
  foldl stats_combine byPath (pre ++ a :: mid ++ b :: post) !! FileStat.Path a
  = Some (combined a b).
Proof.
  intros Hnone Hb Hno.
  assert (Hpre : ∀ x, x ∈ pre → FileStat.Path x ≠ FileStat.Path a).
  { intros x Hx. apply Hno. apply elem_of_app. by left. }
  assert (Hmid : ∀ x, x ∈ mid → FileStat.Path x ≠ FileStat.Path a).
  { intros x Hx. apply Hno. apply elem_of_app. right. apply elem_of_app. by left. }
  assert (Hpost : ∀ x, x ∈ post → FileStat.Path x ≠ FileStat.Path a).
  { intros x Hx. apply Hno. apply elem_of_app. right. apply elem_of_app. by right. }
  rewrite foldl_app. cbn [foldl]. rewrite foldl_app. cbn [foldl].
  rewrite stats_combine_other by done.
  set (m1 := foldl stats_combine byPath pre).
  assert (H1 : m1 !! FileStat.Path a = None).
  { unfold m1. by rewrite stats_combine_other. }
  set (m2 := foldl stats_combine (stats_combine m1 a) mid).
  assert (H2 : m2 !! FileStat.Path a = Some a).
  { unfold m2. rewrite stats_combine_other by done.
    unfold stats_combine. rewrite H1. apply lookup_insert_eq. }
  unfold stats_combine at 1. rewrite Hb, H2. apply lookup_insert_eq.
Qed.
End stats.

(** X16.  In the mode all [collectNumstat] returns one record per path:
    no path occurs twice, and the paths are exactly the paths of the two
    runs. *)
Theorem collectNumstat_all_paths (cached worktree : option string) (out : list FileStat.t) :
  collectNumstat ModeAll cached worktree = Some out →
  NoDup (FileStat.Path <$> out)
  ∧ ∀ p, p ∈ FileStat.Path <$> out
         ↔ p ∈ FileStat.Path <$> (parseNumstat (default "" worktree)
                                   ++ parseNumstat (default "" cached)).
Proof.
  unfold collectNumstat. cbn. intros [= <-]. rewrite appendStats_twice.
  set (u := parseNumstat (default "" worktree)). set (s := parseNumstat (default "" cached)).
  assert (Hk : stats_by_path (foldl stats_combine ∅ (u ++ s))).
  { apply stats_combine_by_path. intros ? ?. by rewrite lookup_empty. }
  rewrite stats_paths by done. split; [apply NoDup_fst_map_to_list|].
  intros p. transitivity (is_Some (foldl stats_combine ∅ (u ++ s) !! p)).
  - split.
    + intros [[p' st] [-> Hin]]%list_elem_of_fmap. cbn.
      apply elem_of_map_to_list in Hin. eauto.
    + intros [st Hst]. apply list_elem_of_fmap. exists (p, st).
      split; [done|]. by apply elem_of_map_to_list.
  - rewrite stats_combine_dom, lookup_empty.
    split; [intros [H | H]; [by destruct H | done] | by right].
Qed.

Lemma collectNumstat_all_paths_witness :
  collectNumstat ModeAll (Some numstat_counted) (Some numstat_binary)
  = Some [FileStat.mk "logo.svg" 3 1 true]
  ∧ NoDup (FileStat.Path <$> [FileStat.mk "logo.svg" 3 1 true]).
Proof.
  assert (H : collectNumstat ModeAll (Some numstat_counted) (Some numstat_binary)
              = Some [FileStat.mk "logo.svg" 3 1 true]) by (vm_compute; reflexivity).
  split; [exact H|]. exact (proj1 (collectNumstat_all_paths _ _ _ H)).
Defined.

(** X17.  A path that each of the two runs reports once comes out, in the
    mode all, as one record: added and deleted are the (wrapping) sums of
    the two records, work tree first, and binary is the OR of the two
    flags. *)
Theorem collectNumstat_all_sum (cached worktree : option string)
    (u1 u2 s1 s2 : list FileStat.t) (a b : FileStat.t) (out : list FileStat.t) :
  parseNumstat (default "" worktree) = u1 ++ a :: u2 →
  parseNumstat (default "" cached) = s1 ++ b :: s2 →
  FileStat.Path b = FileStat.Path a →
  (∀ x, x ∈ u1 ++ (u2 ++ s1) ++ s2 → FileStat.Path x ≠ FileStat.Path a) →
  collectNumstat ModeAll cached worktree = Some out →
  combined a b ∈ out
  ∧ ∀ st, st ∈ out → FileStat.Path st = FileStat.Path a → st = combined a b.
Proof.
  intros Hu Hs Hb Hno. unfold collectNumstat. cbn. intros [= <-].
  rewrite appendStats_twice, Hu, Hs.
  assert (Hlook : foldl stats_combine ∅ ((u1 ++ a :: u2) ++ s1 ++ b :: s2)
                    !! FileStat.Path a = Some (combined a b)).
  { rewrite <- app_assoc. cbn [app]. rewrite (app_assoc u2 s1).
    by apply stats_combine_pair; [apply lookup_empty | |]. }
  assert (Hk : stats_by_path (foldl stats_combine ∅ ((u1 ++ a :: u2) ++ s1 ++ b :: s2))).
  { apply stats_combine_by_path. intros ? ?. by rewrite lookup_empty. }
  split.
  - apply list_elem_of_fmap. exists (FileStat.Path a, combined a b).
    split; [done|]. by apply elem_of_map_to_list.
  - intros st [[p st'] [-> Hin]]%list_elem_of_fmap Hp. cbn [snd] in *.
    apply elem_of_map_to_list in Hin.
    rewrite <- (Hk _ _ Hin), Hp, Hlook in Hin. by injection Hin.
Qed.

Lemma collectNumstat_all_sum_witness :
  collectNumstat ModeAll (Some numstat_counted) (Some numstat_counted)
  = Some [FileStat.mk "logo.svg" 6 2 false]
  ∧ combined (FileStat.mk "logo.svg" 3 1 false) (FileStat.mk "logo.svg" 3 1 false)
    ∈ [FileStat.mk "logo.svg" 6 2 false].
Proof.
  assert (H : collectNumstat ModeAll (Some numstat_counted) (Some numstat_counted)
              = Some [FileStat.mk "logo.svg" 6 2 false]) by (vm_compute; reflexivity).
  split; [exact H|].
  assert (Hp : parseNumstat (default "" (Some numstat_counted))
               = [] ++ FileStat.mk "logo.svg" 3 1 false :: []) by (vm_compute; reflexivity).
  refine (proj1 (collectNumstat_all_sum (Some numstat_counted) (Some numstat_counted)
                   [] [] [] [] _ _ _ Hp Hp eq_refl _ H)).
  clear H Hp. intros x Hx. by apply elem_of_nil in Hx.
Defined.

(** * The subject line *)

Lemma TrimLeftSpace_rev_anchored (p : string) (a1 a0 : ascii) (q : string) :
  no_lead a1 = true → anchor a0 = true →
  ∃ p', strings.TrimLeftSpace_rev (p +:+ String a1 (String a0 q))
        = p' +:+ String a1 (String a0 q).
Proof.
  unfold no_lead, anchor, strings.space1.
  intros [H1s%negb_true_iff%bool_decide_eq_false H1%bool_decide_eq_true]%andb_true_iff
         [H0s%negb_true_iff%bool_decide_eq_false H0%bool_decide_eq_true]%andb_true_iff.
  assert (Hs2 : ∀ c, strings.space2 (byte a0) c = false
                     ∧ strings.space2 (byte a1) c = false
                     ∧ strings.space2 c (byte a0) = false).
  { intros c. unfold strings.space2.
    repeat split; apply bool_decide_eq_false; lia. }
  assert (Hs3 : ∀ c d, strings.space3 (byte a0) c d = false
                       ∧ strings.space3 (byte a1) c d = false
                       ∧ strings.space3 c (byte a0) d = false
                       ∧ strings.space3 c d (byte a0) = false).
  { intros c d. unfold strings.space3.
    repeat split; apply bool_decide_eq_false; lia. }
  remember (String.length p) as n eqn:Hn. revert p Hn.
  induction n as [n IH] using lt_wf_ind. intros p ->.
  destruct p as [|c0 p0].
  { exists "". cbn [String.append strings.TrimLeftSpace_rev].
    unfold strings.space1 at 1. rewrite (bool_decide_eq_false_2 _ H1s).
    rewrite (proj1 (Hs2 _)).
    destruct q as [|c2 q]; [done|]. by rewrite (proj1 (proj2 (proj2 (Hs3 _ _)))). }
  cbn [String.append strings.TrimLeftSpace_rev].
  destruct (strings.space1 (byte c0)).
  { apply (IH (String.length p0) ltac:(cbn; lia) p0 eq_refl). }
  destruct p0 as [|c1 p1].
  { exists (String c0 ""). cbn [String.append].
    rewrite (proj1 (proj2 (Hs2 _))). by rewrite (proj1 (Hs3 _ _)). }
  cbn [String.append].
  destruct (strings.space2 (byte c1) (byte c0)).
  { apply (IH (String.length p1) ltac:(cbn; lia) p1 eq_refl). }
  destruct p1 as [|c2 p2].
  { exists (String c0 (String c1 "")). cbn [String.append].
    by rewrite (proj1 (proj2 (Hs3 _ _))). }
  cbn [String.append].
  destruct (strings.space3 (byte c2) (byte c1) (byte c0)).
  { apply (IH (String.length p2) ltac:(cbn; lia) p2 eq_refl). }
  by exists (String c0 (String c1 (String c2 p2))).
Qed.

(** Trimming on the right keeps the first two bytes of a string that
    begins with such a pair. *)
Lemma TrimRightSpace_anchored (a0 a1 : ascii) (t : string) :
  anchor a0 = true → no_lead a1 = true →
  ∃ w, strings.TrimRightSpace (String a0 (String a1 t)) = String a0 (String a1 w).
Proof.
  intros H0 H1. unfold strings.TrimRightSpace.
  rewrite !rev_cons, !append_assoc. unfold str1. cbn [String.append].
  destruct (TrimLeftSpace_rev_anchored (strings.rev t) a1 a0 "" H1 H0) as [p' ->].
  exists (strings.rev p').
  rewrite rev_append, !rev_cons. reflexivity.
Qed.

Lemma TrimLeftSpace_anchored (a0 : ascii) (t : string) :
  anchor a0 = true → strings.TrimLeftSpace (String a0 t) = String a0 t.
Proof.
  unfold anchor.
  intros [H0s%negb_true_iff H0%bool_decide_eq_true]%andb_true_iff.
  cbn [strings.TrimLeftSpace]. rewrite H0s.
  destruct t as [|c1 t]; [done|].
  unfold strings.space2. rewrite bool_decide_eq_false_2 by lia.
  destruct t as [|c2 t]; [done|].
  unfold strings.space3. by rewrite bool_decide_eq_false_2 by lia.
Qed.

(** A rune whose first byte is below [0xE0] is decoded from at most two
    bytes. *)
Lemma decode_two (c0 c1 : ascii) (w : string) :
  (byte c0 < 0xE0)%Z →
  utf8.DecodeRuneInString (String c0 (String c1 w))
  = utf8.DecodeRuneInString (String c0 (String c1 ""))
  ∧ (utf8.DecodeRuneInString (String c0 (String c1 ""))).2 ≤ 2.
Proof.
  intros Hc. unfold utf8.DecodeRuneInString, utf8.RuneSelf.
  repeat case_bool_decide; try lia; (split; [done|]); cbn [snd]; try lia.
  destruct (utf8.cont _); cbn [snd]; lia.
Qed.

Lemma leading_space_two (c0 c1 : ascii) (w : string) :
  (byte c0 < 0xE0)%Z →
  leading_space (String c0 (String c1 w))
  = unicode.IsSpace (utf8.DecodeRuneInString (String c0 (String c1 ""))).1.
Proof.
  intros Hc. unfold leading_space. rewrite runes_unfold.
  by rewrite (proj1 (decode_two c0 c1 w Hc)).
Qed.

Lemma lowerFirst_two (c0 c1 : ascii) (w : string) :
  (byte c0 < 0xE0)%Z →
  lowerFirst (String c0 (String c1 w)) = lowerFirst (String c0 (String c1 "")) +:+ w.
Proof.
  intros Hc. unfold lowerFirst. rewrite !bool_decide_eq_false_2 by done.
  destruct (decode_two c0 c1 w Hc) as [-> Hsize].
  destruct (utf8.DecodeRuneInString (String c0 (String c1 ""))) as [r size].
  cbn [snd] in Hsize. case_bool_decide; [done|].
  rewrite append_assoc. f_equal.
  destruct size as [|[|[|size]]]; [done | done | done | lia].
Qed.

Lemma subject_start_app (s w : string) :
  subject_start s = true → subject_start (s +:+ w) = true.
Proof. by destruct s as [|c0 [|c1 s]]. Qed.

Lemma subject_start_leading_space (s : string) :
  subject_start s = true → leading_space s = false.
Proof.
  destruct s as [|c0 [|c1 s]]; try done. cbn [subject_start].
  intros [[_ Hc%bool_decide_eq_true]%andb_true_iff Hsp%negb_true_iff]%andb_true_iff.
  rewrite leading_space_two by done. by rewrite leading_space_two in Hsp by done.
Qed.

Lemma subject_start_TrimSpace (s : string) :
  subject_start s = true →
  ∃ c0 c1 v w, s = String c0 (String c1 v)
               ∧ strings.TrimSpace s = String c0 (String c1 w).
Proof.
  destruct s as [|c0 [|c1 s]]; try done. cbn [subject_start].
  intros [[[H0 H1]%andb_true_iff _]%andb_true_iff _]%andb_true_iff.
  unfold strings.TrimSpace. rewrite TrimLeftSpace_anchored by done.
  destruct (TrimRightSpace_anchored c0 c1 s H0 H1) as [w ->]. by exists c0, c1, s, w.
Qed.

Lemma verbForType_verbs (commitType lang : string) :
  (verbForType commitType lang).1 ∈ verbs.
Proof.
  unfold verbForType, verbs.
  repeat match goal with |- context [eqs ?a ?b] => destruct (eqs a b) end;
    cbn [fst]; in_list.
Qed.

Lemma verbs_start (verb : string) :
  verb ∈ verbs →
  subject_start verb = true ∧ subject_start (lowerFirst (keep 2 verb)) = true.
Proof.
  intros Hin.
  assert (Hall : forallb (λ verb, subject_start verb
                                  && subject_start (lowerFirst (keep 2 verb))) verbs = true)
    by (vm_compute; reflexivity).
  rewrite forallb_forall in Hall. by apply andb_true_iff, Hall, list_elem_of_In.
Qed.

(** X18.  The subject that [buildSubject] returns never begins with white
    space, and neither does it after [lowerFirst], which the
    conventional and the gitmoji format apply to it: it begins with the
    verb of [verbForType], whatever the target is. *)
Theorem buildSubject_no_leading_space (commitType scope : string)
    (changes : list Change.t) (opts : Options) :
  leading_space (buildSubject commitType scope changes opts) = false
  ∧ leading_space (lowerFirst (buildSubject commitType scope changes opts)) = false.
Proof.
  unfold buildSubject.
  pose proof (verbForType_verbs commitType (Lang opts)) as Hverb.
  destruct (verbForType commitType (Lang opts)) as [verb defaultTarget].
  cbn [fst] in Hverb. apply verbs_start in Hverb as [Hstart Hlower].
  set (target := if eqs (if eqs _ _ then _ else _) "" then _ else _).
  destruct (subject_start_TrimSpace (verb +:+ " " +:+ target))
    as (c0 & c1 & v & w & Heq & ->); [by apply subject_start_app|].
  destruct verb as [|d0 [|d1 verb]]; try done.
  cbn [String.append] in Heq. injection Heq as <- <- _.
  cbn [keep] in Hlower. split.
  - apply subject_start_leading_space. exact Hstart.
  - cbn [subject_start] in Hstart.
    apply andb_true_iff in Hstart as [[_ Hc%bool_decide_eq_true]%andb_true_iff _].
    rewrite lowerFirst_two by done.
    by apply subject_start_leading_space, subject_start_app.
Qed.

(** * The paths of the stat records *)

Lemma TrimLeftSpace_rev_head (s : string) (c : ascii) (t : string) :
  strings.TrimLeftSpace_rev s = String c t → strings.space1 (byte c) = false.
Proof.
  remember (String.length s) as n eqn:Hn. revert s Hn.
  induction n as [n IH] using lt_wf_ind. intros s ->.
  destruct s as [|c0 t0]; [done|]. cbn [strings.TrimLeftSpace_rev].
  destruct (strings.space1 (byte c0)) eqn:H0.
  { apply (IH (String.length t0) ltac:(cbn; lia) t0 eq_refl). }
  destruct t0 as [|c1 t1]; [by intros [= <- _]|].
  destruct (strings.space2 (byte c1) (byte c0)).
  { apply (IH (String.length t1) ltac:(cbn; lia) t1 eq_refl). }
  destruct t1 as [|c2 t2]; [by intros [= <- _]|].
  destruct (strings.space3 (byte c2) (byte c1) (byte c0)); [|by intros [= <- _]].
  apply (IH (String.length t2) ltac:(cbn; lia) t2 eq_refl).
Qed.

(** A trimmed text does not end with an ASCII blank. *)
Lemma TrimSpace_last (s x : string) (c : ascii) :
  strings.TrimSpace s = x +:+ str1 c → strings.space1 (byte c) = false.
Proof.
  unfold strings.TrimSpace, strings.TrimRightSpace. intros H.
  apply (f_equal strings.rev) in H. rewrite rev_involutive, rev_append in H.
  by apply TrimLeftSpace_rev_head in H.
Qed.

Lemma Cut_Some (s : string) (sep : ascii) (a b : string) :
  strings.Cut s sep = Some (a, b) → s = a +:+ String sep b.
Proof.
  revert a. induction s as [|c s IH]; intros a; [done|]. cbn [strings.Cut].
  case_bool_decide as Hc; [by intros [= <- <-]; subst c|].
  destruct (strings.Cut s sep) as [[a' b']|]; [|done].
  intros [= <- <-]. by rewrite (IH a' eq_refl).
Qed.

Lemma numstat_line_path (out : list FileStat.t) (line : string) :
  Forall (λ st, FileStat.Path st ≠ "") out →
  Forall (λ st, FileStat.Path st ≠ "") (numstat_line out line).
Proof.
  intros Hout. unfold numstat_line. case_bool_decide; [done|].
  destruct (strings.SplitN _ _ 3) as [|addStr [|delStr [|path parts]]] eqn:Hsplit; try done.
  assert (Hpath : path ≠ "").
  { intros ->. cbn [strings.SplitN] in Hsplit.
    destruct (strings.Cut (strings.TrimSpace line) strings.TAB) as [[a b]|] eqn:Hcut1;
      [|done].
    destruct (strings.Cut b strings.TAB) as [[a' b']|] eqn:Hcut2; [|done].
    injection Hsplit as _ _ -> _.
    apply Cut_Some in Hcut1, Hcut2. subst b.
    assert (Hlast : strings.TrimSpace line = (a +:+ String strings.TAB a') +:+ str1 strings.TAB).
    { rewrite Hcut1. by rewrite append_assoc. }
    by apply TrimSpace_last in Hlast. }
  destruct (bool_decide (addStr = "-") && bool_decide (delStr = "-")).
  - apply Forall_app. split; [done|]. by apply Forall_singleton.
  - destruct (strconv.Atoi addStr), (strconv.Atoi delStr); try done.
    apply Forall_app. split; [done|]. by apply Forall_singleton.
Qed.

(** X19.  Every record of [parseNumstat] has a path that is not empty: a
    line is trimmed before it is split at its first two tabs, so the third
    field cannot be empty. *)
Theorem parseNumstat_paths (raw : string) :
  Forall (λ st, FileStat.Path st ≠ "") (parseNumstat raw).
Proof.
  unfold parseNumstat. case_bool_decide; [by apply Forall_nil|].
  assert (Hfold : ∀ lines out, Forall (λ st, FileStat.Path st ≠ "") out →
            Forall (λ st, FileStat.Path st ≠ "") (foldl numstat_line out lines)).
  { induction lines as [|line lines IH]; intros out Hout; [done|].
    cbn [foldl]. by apply IH, numstat_line_path. }
  by apply Hfold, Forall_nil.
Qed.
